(** * laser_wanderer.py: the kinematic model, the rollout generator, the cost
    evaluator, the time-budgeted search loop, the visualisation callback and
    [main], embedded over IEEE 754 binary64 arithmetic.

    Python floats and numpy float64 scalars are binary64 numbers.  They are
    modelled by the Standard Library's [spec_float] at precision 53 and
    maximal exponent 1024, whose operations round to nearest, ties to even,
    as the hardware does.  The C library's transcendental functions are an
    interface ([Libm]); Python exceptions are values of [result]; loops that
    Python runs without a bound take fuel and report [OutOfFuel] when it is
    exhausted. *)

From Stdlib Require Import ZArith Lia List Bool SpecFloat.
Import ListNotations.

Local Open Scope Z_scope.

(* ================================================================== *)
(** * Binary64 arithmetic *)
(* ================================================================== *)

Module B64.

Definition float := spec_float.

Definition prec : Z := 53.
Definition emax : Z := 1024.

Definition add : float -> float -> float := SFadd prec emax.
Definition sub : float -> float -> float := SFsub prec emax.
Definition mul : float -> float -> float := SFmul prec emax.
Definition div : float -> float -> float := SFdiv prec emax.
Definition abs : float -> float := SFabs.
Definition ltb : float -> float -> bool := SFltb.
Definition leb : float -> float -> bool := SFleb.
Definition eqb : float -> float -> bool := SFeqb.

(** [valid x]: [x] is a binary64 datum in canonical form (every value read
    from memory is). *)
Definition valid (x : float) : bool := valid_binary prec emax x.

(** Conversion of a Python integer to a float (round to nearest even). *)
Definition of_Z (z : Z) : float := binary_normalize prec emax z 0 false.

Definition is_nan (x : float) : bool :=
  match x with S754_nan => true | _ => false end.

Definition is_zero (x : float) : bool :=
  match x with S754_zero _ => true | _ => false end.

Definition is_finite (x : float) : bool :=
  match x with S754_zero _ | S754_finite _ _ _ => true | _ => false end.

Definition zero : float := S754_zero false.
Definition nan : float := S754_nan.
Definition pinf : float := S754_infinity false.
Definition one : float := S754_finite false 4503599627370496 (-52).
Definition two : float := S754_finite false 4503599627370496 (-51).

(** The integer value of a finite float scaled by [2^-e]: [m * 2^e] as a
    pair (signed mantissa, exponent). *)
Definition signed_mantissa (s : bool) (m : positive) : Z :=
  if s then Z.neg m else Z.pos m.

(** [math.ceil], to an integer; [None] on NaN and the infinities. *)
Definition ceil_to_Z (x : float) : option Z :=
  match x with
  | S754_zero _ => Some 0
  | S754_finite s m e =>
      let M := signed_mantissa s m in
      Some (if 0 <=? e then M * 2 ^ e else - ((- M) / 2 ^ (- e)))
  | _ => None
  end.

(** Rounding to the nearest integer, halfway cases away from zero: the
    value of Python 2's [round(x)], which [int] then converts exactly. *)
Definition round_half_away (x : float) : option Z :=
  match x with
  | S754_zero _ => Some 0
  | S754_finite s m e =>
      let a := if 0 <=? e then Z.pos m * 2 ^ e
               else (Z.pos m + 2 ^ (- e - 1)) / 2 ^ (- e) in
      Some (if s then - a else a)
  | _ => None
  end.

(** ** Values, keys and rounding, for the theory of the order *)

(** The exponent of the least positive float, [2^emin]. *)
Definition emin : Z := -1074.

(** The record after [n >= 1] right shifts of an exact record. *)
Definition shr_spec (V n : Z) : shr_record :=
  {| shr_m := V / 2 ^ n;
     shr_r := Z.testbit V (n - 1);
     shr_s := negb (V mod 2 ^ (n - 1) =? 0) |}.

(** [V / 2^n] rounded to the nearest integer, ties to even. *)
Definition rne (V n : Z) : Z :=
  let q := V / 2 ^ n in
  let r := V mod 2 ^ n in
  if (2 ^ n <? 2 * r) || ((2 * r =? 2 ^ n) && Z.odd q) then q + 1 else q.

(** The float [m * 2^e] of sign [s], or the infinity when [e] is too large. *)
Definition overflow_to_inf (s : bool) (m e : Z) : float :=
  if e <=? emax - prec then S754_finite s (Z.to_pos m) e else S754_infinity s.

(** The float of sign [s] nearest to [V * 2^emin], for [V > 0]: exact up to
    [prec] digits, else [prec] digits are kept, with a carry into the
    exponent when the rounding reaches [2^prec]. *)
Definition rnd_pos (s : bool) (V : Z) : float :=
  let d := Z.log2 V + 1 in
  if d <=? prec then S754_finite s (Z.to_pos V) emin
  else
    let n := d - prec in
    let q := rne V n in
    if q <? 2 ^ prec then overflow_to_inf s q (emin + n)
    else overflow_to_inf s (2 ^ (prec - 1)) (emin + n + 1).

(** The order of floats is the lexicographic order of their keys. *)
Definition key (x : float) : Z * Z * Z :=
  match x with
  | S754_zero _ => (0, 0, 0)
  | S754_infinity s => (if s then -2 else 2, 0, 0)
  | S754_nan => (0, 0, 0)
  | S754_finite s m e => if s then (-1, - e, Z.neg m) else (1, e, Z.pos m)
  end.

Definition lex3 (a b : Z * Z * Z) : comparison :=
  let '(a1, a2, a3) := a in
  let '(b1, b2, b3) := b in
  match a1 ?= b1 with
  | Eq => match a2 ?= b2 with Eq => a3 ?= b3 | c => c end
  | c => c
  end.

Definition lex_lt (a b : Z * Z * Z) : Prop :=
  let '(a1, a2, a3) := a in
  let '(b1, b2, b3) := b in
  a1 < b1 \/ (a1 = b1 /\ (a2 < b2 \/ (a2 = b2 /\ a3 < b3))).

Definition lex_le (a b : Z * Z * Z) : Prop := lex_lt a b \/ a = b.

(** The value of a finite float in units of [2^emin]. *)
Definition Zval (x : float) : Z :=
  match x with
  | S754_finite s m e => signed_mantissa s m * 2 ^ (e - emin)
  | _ => 0
  end.

(** The float nearest to [S * 2^emin]. *)
Definition radd (S : Z) : float :=
  match S with
  | Z0 => zero
  | Z.pos p => rnd_pos false (Z.pos p)
  | Z.neg p => rnd_pos true (Z.pos p)
  end.

Definition kneg (a : Z * Z * Z) : Z * Z * Z :=
  let '(a1, a2, a3) := a in (- a1, - a2, - a3).

Definition ovfk (m e : Z) : Z * Z * Z :=
  if e <=? emax - prec then (1, e, m) else (2, 0, 0).

(** The key of [rnd_pos false V]. *)
Definition pk (V : Z) : Z * Z * Z :=
  let d := Z.log2 V + 1 in
  if d <=? prec then (1, emin, V)
  else
    let n := d - prec in
    let q := rne V n in
    if q <? 2 ^ prec then ovfk q (emin + n)
    else ovfk (2 ^ (prec - 1)) (emin + n + 1).

End B64.

Import B64.

(* ================================================================== *)
(** * The Python run time: exceptions, sequences, numpy *)
(* ================================================================== *)

(** The exceptions the modelled code can raise. *)
Inductive pyerr : Type :=
| IndexError
| ValueError
| OverflowError
| ZeroDivisionError.

(** The outcome of running a piece of Python: a value, an exception that
    propagates to the caller, or no answer within the fuel given. *)
Inductive result (A : Type) : Type :=
| Ok (a : A)
| Raise (e : pyerr)
| OutOfFuel.

Arguments Ok {A} a.
Arguments Raise {A} e.
Arguments OutOfFuel {A}.

Definition bind {A B : Type} (r : result A) (k : A -> result B) : result B :=
  match r with
  | Ok a => k a
  | Raise e => Raise e
  | OutOfFuel => OutOfFuel
  end.

Notation "x <- c ;; k" := (bind c (fun x => k))
  (at level 61, c at next level, right associativity).

(** [seq[i]] on a Python list or tuple: a negative index counts from the
    end, and an index outside [-len, len) raises [IndexError]. *)
Definition py_getitem {A : Type} (l : list A) (i : Z) : result A :=
  let n := Z.of_nat (length l) in
  let j := if i <? 0 then i + n else i in
  if (0 <=? j) && (j <? n) then
    match nth_error l (Z.to_nat j) with
    | Some a => Ok a
    | None => Raise IndexError
    end
  else Raise IndexError.

(** [a[i]] on a numpy array for an index produced by [xrange]. *)
Definition np_getitem {A : Type} (l : list A) (i : nat) : result A :=
  match nth_error l i with
  | Some a => Ok a
  | None => Raise IndexError
  end.

(** [a[i] = v] on a numpy array for an index produced by [xrange]. *)
Fixpoint np_setitem {A : Type} (l : list A) (i : nat) (v : A) : result (list A) :=
  match l, i with
  | [], _ => Raise IndexError
  | _ :: t, O => Ok (v :: t)
  | h :: t, S j => t' <- np_setitem t j v ;; Ok (h :: t')
  end.

(** [int(round(x))]: [ValueError] on NaN, [OverflowError] on an infinity. *)
Definition int_round (x : float) : result Z :=
  match round_half_away x with
  | Some z => Ok z
  | None => if is_nan x then Raise ValueError else Raise OverflowError
  end.

(** [a / b] on two Python floats. *)
Definition py_div (a b : float) : result float :=
  if is_zero b then Raise ZeroDivisionError else Ok (div a b).

Definition max_intp : Z := 2 ^ 63 - 1.

(** Element [i] of [np.arange(start, stop, step)]. *)
Definition arange_item (start step : float) (i : nat) : float :=
  let next := add start step in
  let delta := sub next start in
  match i with
  | O => start
  | S O => next
  | _ => add start (mul (of_Z (Z.of_nat i)) delta)
  end.

(** The sign bit of a float. *)
Definition signbit (x : float) : bool :=
  match x with
  | S754_zero s | S754_infinity s | S754_finite s _ _ => s
  | S754_nan => false
  end.

Definition min_intp : Z := - 2 ^ 63.

(** The length of [np.arange(start, stop, step)] on Python floats.  The
    quotient [(stop - start) / step] is a division of Python floats; its
    ceiling must be a number between the least index and [2.0**63], the
    index bounds as doubles, or the call ends in a [ValueError].  The
    conversion of [2.0**63] itself to an index gives the least index (as
    on x86-64).  A quotient that is zero although [stop - start] is not
    (an underflow, or a division by an infinity) gives the length 1, or 0
    when its sign bit is set. *)
Definition arange_length (start stop step : float) : result Z :=
  let next := sub stop start in
  value <- py_div next step ;;
  match ceil_to_Z value with
  | None => Raise ValueError
  | Some ivalue =>
      if (ivalue <? min_intp) || (max_intp + 1 <? ivalue) then Raise ValueError
      else
        let len := if ivalue =? max_intp + 1 then min_intp else ivalue in
        Ok (if is_zero value && negb (is_zero next)
            then (if signbit value then 0 else 1)
            else len)
  end.

(** [np.arange(start, stop, step)] on floats: a length that is not
    positive gives the empty array, and an array of float64 whose size in
    bytes does not fit the index type is a [ValueError] (memory is taken to
    be unbounded otherwise).  The first two elements are [start] and
    [start + step], and element [i >= 2] is [start + i * delta] where
    [delta] is the difference of the first two elements as stored. *)
Definition np_arange (start stop step : float) : result (list float) :=
  len <- arange_length start stop step ;;
  if len <=? 0 then Ok []
  else if max_intp <? len * 8 then Raise ValueError
  else Ok (map (arange_item start step) (seq 0 (Z.to_nat len))).

(** The scan of [np.argmin] over float64 data after its first element:
    [mp] is the least value so far and [ind] its index; an element replaces
    it when [x >= mp] fails, and a NaN ends the scan. *)
Fixpoint argmin_scan (mp : float) (ind : nat) (i : nat) (l : list float) : nat :=
  match l with
  | [] => ind
  | x :: t =>
      if leb mp x then argmin_scan mp ind (S i) t
      else if is_nan x then i
      else argmin_scan x i (S i) t
  end.

(** [np.argmin(a)]: [ValueError] on an empty array. *)
Definition np_argmin (a : list float) : result nat :=
  match a with
  | [] => Raise ValueError
  | x :: t => if is_nan x then Ok O else Ok (argmin_scan x 0 1 t)
  end.

(* ================================================================== *)
(** * The C library *)
(* ================================================================== *)

(** The functions of libm the program calls, with the exact results that
    Annex F of the C standard fixes at the arguments used below.  Nothing
    else is assumed of them. *)
Class Libm : Type := {
  m_cos : float -> float;
  m_sin : float -> float;
  m_tan : float -> float;
  m_atan : float -> float;
  m_atan2 : float -> float -> float;
  m_pow : float -> float -> float;
  cos_zero : forall s, m_cos (S754_zero s) = one;
  sin_zero : forall s, m_sin (S754_zero s) = S754_zero s;
  atan2_zero_pos : forall m e,
      m_atan2 (S754_zero false) (S754_finite false m e) = S754_zero false;
  pow_one : forall y, m_pow one y = one;
  pow_zero_two : forall s, m_pow (S754_zero s) two = S754_zero false
}.

(** The least defined library: the Annex F values and NaN elsewhere. *)
Definition special_cos (x : float) : float :=
  match x with S754_zero _ => one | _ => nan end.

Definition special_sin (x : float) : float :=
  match x with S754_zero _ => x | _ => nan end.

Definition special_atan2 (y x : float) : float :=
  match y, x with
  | S754_zero false, S754_finite false _ _ => y
  | _, _ => nan
  end.

Definition is_one (x : float) : bool :=
  match x with
  | S754_finite false 4503599627370496 (-52) => true
  | _ => false
  end.

Definition special_pow (x y : float) : float :=
  if is_one x then one
  else match x, y with
       | S754_zero _, S754_finite false 4503599627370496 (-51) => zero
       | _, _ => nan
       end.

(** [math.pow(x, 2)]: Python returns the special cases itself and turns a
    non-finite result of the C function on a finite argument into an
    exception. *)
Definition math_pow_2 `{Libm} (x : float) : result float :=
  match x with
  | S754_nan => Ok nan
  | S754_infinity _ => Ok pinf
  | _ =>
      let r := m_pow x two in
      match r with
      | S754_nan => Raise ValueError
      | S754_infinity _ => if is_zero x then Raise ValueError else Raise OverflowError
      | _ => Ok r
      end
  end.

(* ================================================================== *)
(** * The program *)
(* ================================================================== *)

(** [MAX_PENALTY = 10000] *)
Definition MAX_PENALTY : Z := 10000.

(** [np.pi] and the [1e-2], [0.5] literals. *)
Definition np_pi : float := S754_finite false 7074237752028440 (-51).
Definition lit_1e_2 : float := S754_finite false 5764607523034235 (-59).
Definition lit_0_5 : float := S754_finite false 4503599627370496 (-53).

(** [2*np.pi] *)
Definition two_pi : float := mul (of_Z 2) np_pi.

Record pose : Type := Pose { px : float; py : float; ptheta : float }.
Record control : Type := Control { cv : float; cdelta : float; cdt : float }.

Definition origin : pose := Pose zero zero zero.

(** [sensor_msgs/LaserScan], the fields the program reads. *)
Record LaserScan : Type := {
  ranges : list float;
  angle_min : float;
  angle_increment : float
}.

(** [ackermann_msgs/AckermannDriveStamped], the fields the program sets. *)
Record AckermannDriveStamped : Type := {
  stamp : float;
  steering_angle : float;
  drive_speed : float
}.

(** The N x T x 3 array of rollouts: its second dimension and its rows. *)
Record rollout_table : Type := {
  shape1 : nat;
  rows : list (list pose)
}.

(** The fields of a [LaserWanderer] object. *)
Record LaserWanderer : Type := {
  rollouts : rollout_table;
  deltas : list float;
  speed : float;
  compute_time : float;
  laser_offset : float
}.

(** The node's environment: the readings [rospy.Time.now().to_sec()] will
    return, how many have been taken, and what was published on the
    command topic (latest first). *)
Record world : Type := {
  clock : nat -> float;
  tick : nat;
  cmd_pub : list AckermannDriveStamped
}.

Definition now (w : world) : float * world :=
  (clock w (tick w),
   {| clock := clock w; tick := S (tick w); cmd_pub := cmd_pub w |}).

Definition publish (ads : AckermannDriveStamped) (w : world) : world :=
  {| clock := clock w; tick := tick w; cmd_pub := ads :: cmd_pub w |}.

Section Program.

Context {M : Libm}.

(** ** LaserWanderer.compute_cost *)

(** [int(round((angle-laser_msg.angle_min)/laser_msg.angle_increment))] *)
Definition ray_index (angle : float) (laser_msg : LaserScan) : result Z :=
  q <- py_div (sub angle (angle_min laser_msg)) (angle_increment laser_msg) ;;
  int_round q.

(** One of the three [if pose_distance > (laser_distance - np.abs(offset))]
    statements. *)
Definition penalize (offset pose_distance laser_distance cost : float) : float :=
  if ltb (sub laser_distance (abs offset)) pose_distance
  then add cost (of_Z MAX_PENALTY)
  else cost.

Definition compute_cost (offset : float) (delta : float) (rollout_pose : pose)
    (laser_msg : LaserScan) : result float :=
  let cost := abs delta in
  let angle := m_atan2 (py rollout_pose) (px rollout_pose) in
  i0 <- ray_index angle laser_msg ;;
  laser_distance0 <- py_getitem (ranges laser_msg) i0 ;;
  i1 <- ray_index angle laser_msg ;;
  laser_distance1 <- py_getitem (ranges laser_msg) (i1 + 1) ;;
  i2 <- ray_index angle laser_msg ;;
  laser_distance2 <- py_getitem (ranges laser_msg) (i2 - 1) ;;
  x2 <- math_pow_2 (px rollout_pose) ;;
  y2 <- math_pow_2 (py rollout_pose) ;;
  let pose_distance := add x2 y2 in
  let cost := penalize offset pose_distance laser_distance0 cost in
  let cost := penalize offset pose_distance laser_distance1 cost in
  let cost := penalize offset pose_distance laser_distance2 cost in
  Ok (div cost (of_Z 3)).

(** ** kinematic_model_step *)

(** The [if np.abs(delta) < 1e-2: ... else: ...] statement: (dx, dy, dtheta). *)
Definition kinematic_deltas (theta v delta dt car_length : float)
  : float * float * float :=
  if ltb (abs delta) lit_1e_2 then
    (mul (mul v (m_cos theta)) dt, mul (mul v (m_sin theta)) dt, zero)
  else
    let beta := m_atan (mul lit_0_5 (m_tan delta)) in
    let sin2beta := m_sin (mul (of_Z 2) beta) in
    let dtheta := mul (mul (div v car_length) sin2beta) dt in
    let dx := mul (div car_length sin2beta)
                  (sub (m_sin (add theta dtheta)) (m_sin theta)) in
    let dy := mul (div car_length sin2beta)
                  (add (mul (of_Z (-1)) (m_cos (add theta dtheta))) (m_cos theta)) in
    (dx, dy, dtheta).

(** [while theta + dtheta > 2*np.pi: dtheta -= 2*np.pi] *)
Fixpoint wrap_down (fuel : nat) (theta dtheta : float) : result float :=
  match fuel with
  | O => OutOfFuel
  | S f =>
      if ltb two_pi (add theta dtheta)
      then wrap_down f theta (sub dtheta two_pi)
      else Ok dtheta
  end.

(** [while theta + dtheta < 2*np.pi: dtheta += 2*np.pi] *)
Fixpoint wrap_up (fuel : nat) (theta dtheta : float) : result float :=
  match fuel with
  | O => OutOfFuel
  | S f =>
      if ltb (add theta dtheta) two_pi
      then wrap_up f theta (add dtheta two_pi)
      else Ok dtheta
  end.

Definition kinematic_model_step (fuel : nat) (p : pose) (c : control)
    (car_length : float) : result pose :=
  let '(dx, dy, dtheta) :=
    kinematic_deltas (ptheta p) (cv c) (cdelta c) (cdt c) car_length in
  dtheta <- wrap_down fuel (ptheta p) dtheta ;;
  dtheta <- wrap_up fuel (ptheta p) dtheta ;;
  Ok (Pose (add (px p) dx) (add (py p) dy) (add (ptheta p) dtheta)).

(** ** generate_rollout *)

(** The [for i in xrange(controls.shape[0])] loop from index [i] on. *)
Fixpoint rollout_loop (fuel : nat) (car_length : float) (controls : list control)
    (i : nat) (trajectory_array : list pose) (current_pose : pose)
  : result (list pose) :=
  match controls with
  | [] => Ok trajectory_array
  | c :: rest =>
      p <- kinematic_model_step fuel current_pose c car_length ;;
      trajectory_array <- np_setitem trajectory_array i p ;;
      rollout_loop fuel car_length rest (S i) trajectory_array p
  end.

(** [init_pose] is a parameter of the source function that its body never
    reads: the trajectory starts at [np.array([0.0,0.0,0.0])]. *)
Definition generate_rollout (fuel : nat) (init_pose : pose)
    (controls : list control) (car_length : float) (T : nat)
  : result (list pose) :=
  let trajectory_array := repeat origin T in
  let current_pose := origin in
  rollout_loop fuel car_length controls 0 trajectory_array current_pose.

(** ** generate_mpc_rollouts *)

(** The [for i in xrange(N)] loop from index [i] on. *)
Fixpoint mpc_loop (fuel : nat) (spd dt car_length : float) (T : nat)
    (dlts : list float) (idx : list nat) (table : list (list pose))
  : result (list (list pose)) :=
  match idx with
  | [] => Ok table
  | i :: rest =>
      d <- np_getitem dlts i ;;
      let controls := repeat (Control spd d dt) T in
      row <- generate_rollout fuel origin controls car_length T ;;
      table <- np_setitem table i row ;;
      mpc_loop fuel spd dt car_length T dlts rest table
  end.

Definition generate_mpc_rollouts (fuel : nat)
    (spd min_delta max_delta delta_incr dt : float) (T : nat) (car_length : float)
  : result (rollout_table * list float) :=
  dlts <- np_arange min_delta max_delta delta_incr ;;
  let N := length dlts in
  let table := repeat (repeat origin T) N in
  table <- mpc_loop fuel spd dt car_length T dlts (seq 0 N) table ;;
  Ok ({| shape1 := T; rows := table |}, dlts).

(** ** LaserWanderer.wander_cb *)

(** [self.rollouts[n,traj_depth,:]] *)
Definition rollout_at (r : rollout_table) (n t : nat) : result pose :=
  row <- np_getitem (rows r) n ;;
  np_getitem row t.

(** The [for traj_depth in xrange(self.rollouts.shape[1])] loop. *)
Fixpoint depth_loop (lw : LaserWanderer) (msg : LaserScan) (n : nat)
    (depths : list nat) (delta_costs : list float) : result (list float) :=
  match depths with
  | [] => Ok delta_costs
  | traj_depth :: rest =>
      acc <- np_getitem delta_costs n ;;
      d <- np_getitem (deltas lw) n ;;
      p <- rollout_at (rollouts lw) n traj_depth ;;
      c <- compute_cost (laser_offset lw) d p msg ;;
      delta_costs <- np_setitem delta_costs n (add acc c) ;;
      depth_loop lw msg n rest delta_costs
  end.

(** The [for n in xrange(self.deltas.shape[0])] loop: one full sweep. *)
Fixpoint sweep_loop (lw : LaserWanderer) (msg : LaserScan) (ns : list nat)
    (delta_costs : list float) : result (list float) :=
  match ns with
  | [] => Ok delta_costs
  | n :: rest =>
      delta_costs <-
        depth_loop lw msg n (seq 0 (shape1 (rollouts lw))) delta_costs ;;
      sweep_loop lw msg rest delta_costs
  end.

Definition sweep (lw : LaserWanderer) (msg : LaserScan)
    (delta_costs : list float) : result (list float) :=
  sweep_loop lw msg (seq 0 (length (deltas lw))) delta_costs.

(** [while (rospy.Time.now().to_sec() < (start + self.compute_time)): ...];
    the fuel bounds the number of times the condition is evaluated. *)
Fixpoint search_loop (fuel : nat) (lw : LaserWanderer) (msg : LaserScan)
    (start : float) (delta_costs : list float) (w : world)
  : result (list float) * world :=
  match fuel with
  | O => (OutOfFuel, w)
  | S f =>
      let (t, w) := now w in
      if ltb t (add start (compute_time lw)) then
        match sweep lw msg delta_costs with
        | Ok delta_costs => search_loop f lw msg start delta_costs w
        | Raise e => (Raise e, w)
        | OutOfFuel => (OutOfFuel, w)
        end
      else (Ok delta_costs, w)
  end.

Definition wander_cb (fuel : nat) (lw : LaserWanderer) (msg : LaserScan)
    (w : world) : result unit * world :=
  let (start, w) := now w in
  let delta_costs := repeat zero (length (deltas lw)) in
  match search_loop fuel lw msg start delta_costs w with
  | (Ok delta_costs, w) =>
      match np_argmin delta_costs with
      | Ok chosen_delta =>
          let (t, w) := now w in
          match np_getitem (deltas lw) chosen_delta with
          | Ok d =>
              (Ok tt,
               publish {| stamp := t; steering_angle := d;
                          drive_speed := speed lw |} w)
          | Raise e => (Raise e, w)
          | OutOfFuel => (OutOfFuel, w)
          end
      | Raise e => (Raise e, w)
      | OutOfFuel => (OutOfFuel, w)
      end
  | (Raise e, w) => (Raise e, w)
  | (OutOfFuel, w) => (OutOfFuel, w)
  end.

End Program.

(* ================================================================== *)
(** * Vocabulary of the statements *)
(* ================================================================== *)

Section Vocabulary.

Context {M : Libm}.

(** The pose after [n] applications of the kinematic model. *)
Fixpoint step_n (fuel : nat) (n : nat) (p : pose) (c : control)
    (car_length : float) : result pose :=
  match n with
  | O => Ok p
  | S k =>
      q <- kinematic_model_step fuel p c car_length ;;
      step_n fuel k q c car_length
  end.

(** The poses of one rollout: [n] steps from [p], each recorded. *)
Fixpoint trajectory (fuel : nat) (n : nat) (p : pose) (c : control)
    (car_length : float) : result (list pose) :=
  match n with
  | O => Ok []
  | S k =>
      q <- kinematic_model_step fuel p c car_length ;;
      rest <- trajectory fuel k q c car_length ;;
      Ok (q :: rest)
  end.

(** One rollout of length [T] from the origin per steering angle. *)
Fixpoint rollouts_of (fuel : nat) (spd dt car_length : float) (T : nat)
    (ds : list float) : result (list (list pose)) :=
  match ds with
  | [] => Ok []
  | d :: rest =>
      row <- trajectory fuel T origin (Control spd d dt) car_length ;;
      more <- rollouts_of fuel spd dt car_length T rest ;;
      Ok (row :: more)
  end.

(** [k] full sweeps of the search loop, one after the other. *)
Fixpoint sweeps (k : nat) (lw : LaserWanderer) (msg : LaserScan)
    (delta_costs : list float) : result (list float) :=
  match k with
  | O => Ok delta_costs
  | S j =>
      delta_costs <- sweep lw msg delta_costs ;;
      sweeps j lw msg delta_costs
  end.

(** The costs of candidate [n] at the depths [ts], in the order visited. *)
Fixpoint cost_row (lw : LaserWanderer) (msg : LaserScan) (n : nat)
    (ts : list nat) : result (list float) :=
  match ts with
  | [] => Ok []
  | t :: rest =>
      d <- np_getitem (deltas lw) n ;;
      p <- rollout_at (rollouts lw) n t ;;
      c <- compute_cost (laser_offset lw) d p msg ;;
      cs <- cost_row lw msg n rest ;;
      Ok (c :: cs)
  end.

(** The costs of the candidates [ns], one row per candidate. *)
Fixpoint cost_table (lw : LaserWanderer) (msg : LaserScan) (ns : list nat)
  : result (list (list float)) :=
  match ns with
  | [] => Ok []
  | n :: rest =>
      cs <- cost_row lw msg n (seq 0 (shape1 (rollouts lw))) ;;
      more <- cost_table lw msg rest ;;
      Ok (cs :: more)
  end.

End Vocabulary.

(** ** The cost evaluator *)

(** A range sample that reports no return: NaN or [+inf]. *)
Definition no_return (d : float) : Prop := d = nan \/ d = pinf.

(** The test of one ray: the pose lies beyond the shortened measurement. *)
Definition hit (offset pose_distance d : float) : bool :=
  ltb (sub d (abs offset)) pose_distance.

(** ** The search loop *)

(** The deadline of a decision cycle that starts in world [w]. *)
Definition deadline (lw : LaserWanderer) (w : world) : float :=
  add (clock w (tick w)) (compute_time lw).

(** The clock lets the loop condition hold exactly [k] times: the reading
    after the start and the [k - 1] after it are before the deadline, the
    next one is not. *)
Definition sweeps_allowed (k : nat) (lw : LaserWanderer) (w : world) : Prop :=
  (forall j, (j < k)%nat ->
             ltb (clock w (S (tick w) + j)) (deadline lw w) = true) /\
  ltb (clock w (S (tick w) + k)) (deadline lw w) = false.

(** The world after a cycle of [k] sweeps that published [ads]: the clock
    was read at the start, [k + 1] times by the loop and once for the
    stamp. *)
Definition world_after (k : nat) (ads : AckermannDriveStamped) (w : world) : world :=
  {| clock := clock w; tick := tick w + k + 3; cmd_pub := ads :: cmd_pub w |}.

(** Each accumulator takes the costs of its row, added one by one. *)
Definition accumulate (A : list float) (C : list (list float)) : list float :=
  map (fun ac => fold_left add (snd ac) (fst ac)) (combine A C).

(** The running sum of [k] repetitions of a row of costs, from 0. *)
Definition repeated_sum (k : nat) (cs : list float) : float :=
  fold_left add (concat (repeat cs k)) zero.

(** [a] is a number. *)
Definition non_nan (a : float) : Prop := is_nan a = false.

(** Index [i] holds a least element of [A], and every earlier element is
    strictly greater: [i] is the first index of the minimum. *)
Definition least_at (A : list float) (i : nat) : Prop :=
  exists a_i, nth_error A i = Some a_i /\
    forall j a_j, nth_error A j = Some a_j ->
      leb a_i a_j = true /\ ((j < i)%nat -> ltb a_i a_j = true).

(** ** The kinematic model *)

(** [-1e30], a finite heading far below [2*np.pi]. *)
Definition far_heading : float := S754_finite true 7105427357601002 47.

(** [2.0**60]: adding [2*np.pi] to it returns it unchanged. *)
Definition absorbing : float := S754_finite false 4503599627370496 8.

(** What the increment of the second loop satisfies from its first
    iteration on: it lies between [2*np.pi] and [absorbing]. *)
Definition lifted (d : float) : Prop :=
  valid d = true /\ leb two_pi d = true /\ leb d absorbing = true.

(** [x] is a zero, a finite number or an infinity of sign [s]. *)
Definition sign_is (s : bool) (x : float) : Prop :=
  match x with
  | S754_zero s' | S754_infinity s' | S754_finite s' _ _ => s' = s
  | S754_nan => False
  end.

(* ================================================================== *)
(** * Concrete inputs *)
(* ================================================================== *)

(** [-0.34], [0.341], [0.113], [0.33] and [0.09]: the defaults of
    [min_delta], [max_delta], [delta_inc], [car_length] and
    [compute_time]. *)
Definition default_min_delta : float := S754_finite true 6124895493223875 (-54).
Definition default_max_delta : float := S754_finite false 6142909891733357 (-54).
Definition default_delta_incr : float := S754_finite false 8142508126285857 (-56).
Definition default_car_length : float := S754_finite false 5944751508129055 (-54).
Definition default_compute_time : float := S754_finite false 6485183463413514 (-56).

(** [0.1/32 = 0.003125] and [0.2/32 = 0.00625], as Python reads them. *)
Definition delta_3125 : float := S754_finite false 7205759403792794 (-61).
Definition delta_6250 : float := S754_finite false 7205759403792794 (-60).

(** The pose one unit ahead of the sensor. *)
Definition unit_pose : pose := Pose one zero zero.

(** The control of a rollout that drives straight: [v = 1], [delta = 0],
    [dt = 0.01]. *)
Definition straight_control : control := Control one zero lit_1e_2.

(** A scan of three rays at bearings -1, 0 and 1 rad. *)
Definition scan3 (a b c : float) : LaserScan :=
  {| ranges := [a; b; c]; angle_min := SFopp one; angle_increment := one |}.

(** A scan without a single return. *)
Definition silent_scan : LaserScan := scan3 nan nan nan.

(** A scan of two rays at bearings -1 and 0 rad, the pose's bearing being
    the last. *)
Definition short_scan : LaserScan :=
  {| ranges := [one; one]; angle_min := SFopp one; angle_increment := one |}.

(** A scan of three rays at bearings 0, 1 and 2 rad, the pose's bearing
    being the first; only the last ray has a return, at 1 m. *)
Definition edge_scan : LaserScan :=
  {| ranges := [nan; nan; one]; angle_min := zero; angle_increment := one |}.

(** A wall clock that reads 0, 1, 2, ... seconds, and one read every
    [0.05 s]. *)
Definition seconds_clock (n : nat) : float := of_Z (Z.of_nat n).

Definition brisk_clock (n : nat) : float :=
  mul (of_Z (Z.of_nat n)) (S754_finite false 7205759403792794 (-57)).

(** The world before the first scan arrives, for either clock. *)
Definition initial_world : world :=
  {| clock := seconds_clock; tick := 0; cmd_pub := [] |}.

Definition brisk_world : world :=
  {| clock := brisk_clock; tick := 0; cmd_pub := [] |}.

(** A controller without candidates. *)
Definition empty_wanderer : LaserWanderer :=
  {| rollouts := {| shape1 := 300; rows := [] |};
     deltas := [];
     speed := one;
     compute_time := default_compute_time;
     laser_offset := one |}.

(** Two candidates, [-0.37000000000000005] and [0.37], each with a rollout
    of one pose. *)
Definition tied_wanderer : LaserWanderer :=
  {| rollouts := {| shape1 := 1; rows := [[unit_pose]; [unit_pose]] |};
     deltas := [S754_finite true 6665327448508335 (-54);
                S754_finite false 6665327448508334 (-54)];
     speed := one;
     compute_time := default_compute_time;
     laser_offset := one |}.

(** The same controller with a budget of [-0.09 s]. *)
Definition hurried_wanderer : LaserWanderer :=
  {| rollouts := rollouts tied_wanderer;
     deltas := deltas tied_wanderer;
     speed := one;
     compute_time := SFopp default_compute_time;
     laser_offset := one |}.

(** The costs of the two candidates of [tied_wanderer] under a silent
    scan: [0.12333333333333335] and [0.12333333333333334]. *)
Definition tied_costs : list (list float) :=
  [[S754_finite false 8887103264677780 (-56)];
   [S754_finite false 8887103264677779 (-56)]].

(** The least defined library is a library. *)
#[export] Instance special_libm : Libm.
Proof.
  refine {| m_cos := special_cos; m_sin := special_sin; m_tan := special_sin;
            m_atan := special_sin; m_atan2 := special_atan2;
            m_pow := special_pow |}.
  - intros s; reflexivity.
  - intros s; reflexivity.
  - intros m e; reflexivity.
  - intros y; reflexivity.
  - intros s; reflexivity.
Defined.

(* ================================================================== *)
(** * The rest of the node *)
(* ================================================================== *)

(** ** LaserWanderer.__init__ *)

(** [LaserWanderer.__init__], the fields it stores. *)
Definition LaserWanderer_init (rollouts : rollout_table) (deltas : list float)
    (speed compute_time laser_offset : float) : LaserWanderer :=
  {| rollouts := rollouts; deltas := deltas; speed := speed;
     compute_time := compute_time; laser_offset := laser_offset |}.

(** ** LaserWanderer.viz_sub_cb *)

(** [geometry_msgs/Pose], the fields the program sets; [Q] is the type of
    orientations. *)
Record GeoPose (Q : Type) : Type := {
  position_x : float;
  position_y : float;
  orientation : Q
}.

Arguments position_x {Q} _.
Arguments position_y {Q} _.
Arguments orientation {Q} _.

(** [geometry_msgs/PoseArray]: the time stamp and the poses. *)
Record PoseArray (Q : Type) : Type := {
  pa_stamp : float;
  poses : list (GeoPose Q)
}.

Arguments pa_stamp {Q} _.
Arguments poses {Q} _.

(** The environment of the visualisation callback: the clock and the
    command topic, and what was published on the visualisation topic
    (latest first). *)
Record viz_world (Q : Type) : Type := {
  vw_world : world;
  viz_pub : list (PoseArray Q)
}.

Arguments vw_world {Q} _.
Arguments viz_pub {Q} _.

Section Visualisation.

(** [utils.angle_to_quaternion] belongs to a module outside this file; the
    callback is modelled for any function from angles to orientations. *)
Context {Q : Type} (angle_to_quaternion : float -> Q).

(** The [for node in self.rollouts] loop; [node[-1,j]] is component [j] of
    the last pose of the rollout. *)
Fixpoint viz_loop (nodes : list (list pose)) (pa_poses : list (GeoPose Q))
  : result (list (GeoPose Q)) :=
  match nodes with
  | [] => Ok pa_poses
  | node :: rest =>
      x <- (last_pose <- py_getitem node (-1) ;; Ok (px last_pose)) ;;
      y <- (last_pose <- py_getitem node (-1) ;; Ok (py last_pose)) ;;
      m <- (last_pose <- py_getitem node (-1) ;; Ok (ptheta last_pose)) ;;
      let pose := {| position_x := x; position_y := y;
                     orientation := angle_to_quaternion m |} in
      viz_loop rest (pa_poses ++ [pose])
  end.

(** [msg], the pose of the car, is a parameter that the body never reads. *)
Definition viz_sub_cb (lw : LaserWanderer) (msg : pose) (w : viz_world Q)
  : result unit * viz_world Q :=
  let (t, w0) := now (vw_world w) in
  match viz_loop (rows (rollouts lw)) [] with
  | Ok pa_poses =>
      (Ok tt, {| vw_world := w0;
                 viz_pub := {| pa_stamp := t; poses := pa_poses |} :: viz_pub w |})
  | Raise e => (Raise e, {| vw_world := w0; viz_pub := viz_pub w |})
  | OutOfFuel => (OutOfFuel, {| vw_world := w0; viz_pub := viz_pub w |})
  end.

(** The pose published for a rollout: the position and the orientation of
    its last pose. *)
Definition last_pose_of (node : list pose) : GeoPose Q :=
  let p := last node origin in
  {| position_x := px p; position_y := py p;
     orientation := angle_to_quaternion (ptheta p) |}.

End Visualisation.

(** ** main *)

(** The parameters of the node on the parameter server; [None] where a
    parameter is not set. *)
Record params : Type := {
  p_speed : option float;
  p_min_delta : option float;
  p_max_delta : option float;
  p_delta_inc : option float;
  p_dt : option float;
  p_T : option nat;
  p_compute_time : option float;
  p_laser_offset : option float;
  p_car_length : option float
}.

(** [rospy.get_param(name, default)] *)
Definition get_param {A : Type} (v : option A) (default : A) : A :=
  match v with Some a => a | None => default end.

Section Main.

Context {M : Libm}.

(** [main] up to the construction of the controller, after which the node
    only waits for messages.  [T] is the length of an array: a natural
    number. *)
Definition main (fuel : nat) (ps : params) : result LaserWanderer :=
  let speed := get_param (p_speed ps) one in
  let min_delta := get_param (p_min_delta ps) default_min_delta in
  let max_delta := get_param (p_max_delta ps) default_max_delta in
  let delta_incr := get_param (p_delta_inc ps) default_delta_incr in
  let dt := get_param (p_dt ps) lit_1e_2 in
  let T := get_param (p_T ps) 300%nat in
  let compute_time := get_param (p_compute_time ps) default_compute_time in
  let laser_offset := get_param (p_laser_offset ps) one in
  let car_length := get_param (p_car_length ps) default_car_length in
  rd <- generate_mpc_rollouts fuel speed min_delta max_delta delta_incr dt T
          car_length ;;
  let '(rollouts, deltas) := rd in
  Ok (LaserWanderer_init rollouts deltas speed compute_time laser_offset).

End Main.

(* ================================================================== *)
(** * Further vocabulary and inputs *)
(* ================================================================== *)

Section MoreVocabulary.

Context {M : Libm}.

(** The poses reached by applying the controls [cs] one after the other. *)
Fixpoint run_controls (fuel : nat) (p : pose) (cs : list control)
    (car_length : float) : result (list pose) :=
  match cs with
  | [] => Ok []
  | c :: rest =>
      q <- kinematic_model_step fuel p c car_length ;;
      qs <- run_controls fuel q rest car_length ;;
      Ok (q :: qs)
  end.

End MoreVocabulary.

(** Every row has [T] poses and no heading below [2*np.pi]. *)
Definition well_formed_rows (T : nat) (R : list (list pose)) : Prop :=
  Forall (fun row => length row = T /\
                     Forall (fun q => ltb (ptheta q) two_pi = false) row) R.

(** The position in a sequence of [n] items that Python's index [j]
    denotes, for [-n <= j < n]. *)
Definition py_position (n j : Z) : nat := Z.to_nat (j mod n).

(** [a] is a number that is not negative. *)
Definition non_negative (a : float) : Prop := is_nan a = false /\ leb zero a = true.

(** [-inf] *)
Definition ninf : float := S754_infinity true.

(** [-(2.0**60)]: subtracting [2*np.pi] from it returns it unchanged. *)
Definition absorbing_below : float := S754_finite true 4503599627370496 8.

(** What the increment of the first loop satisfies from its first
    iteration on. *)
Definition lowered (d : float) : Prop :=
  valid d = true /\ leb absorbing_below d = true /\ leb d zero = true.

(** [2.0**61] *)
Definition two_61 : float := S754_finite false 4503599627370496 9.

(** A parameter server that sets the range of steering angles to
    [-0.003125, 0.00625), the increment to [0.003125] and [T] to 2. *)
Definition small_params : params :=
  {| p_speed := None;
     p_min_delta := Some (SFopp delta_3125);
     p_max_delta := Some delta_6250;
     p_delta_inc := Some delta_3125;
     p_dt := None;
     p_T := Some 2%nat;
     p_compute_time := None;
     p_laser_offset := None;
     p_car_length := None |}.

(** A clock that has stopped at 0. *)
Definition frozen_world : world :=
  {| clock := fun _ => zero; tick := 0; cmd_pub := [] |}.

(* ================================================================== *)
(** * Vocabulary and inputs of the statements on generation and the clock *)
(* ================================================================== *)







(** A clock that reads 10, 5, 10, 10, ... seconds: it steps back once. *)
Definition backward_clock (n : nat) : float :=
  match n with
  | 1%nat => of_Z 5
  | _ => of_Z 10
  end.

Definition backward_world : world :=
  {| clock := backward_clock; tick := 0; cmd_pub := [] |}.

(* ================================================================== *)
(** * Binary64: rounding and order *)
(* ================================================================== *)

Lemma digits2_pos_size (m : positive) : digits2_pos m = Pos.size m.
Proof. induction m; simpl; congruence. Qed.

Lemma digits2_pos_log2 (m : positive) : Z.pos (digits2_pos m) = Z.log2 (Z.pos m) + 1.
Proof.
  rewrite digits2_pos_size.
  destruct m; simpl; rewrite ?Pos2Z.inj_succ; lia.
Qed.

Lemma Zdigits2_log2 (V : Z) : 0 < V -> Zdigits2 V = Z.log2 V + 1.
Proof.
  destruct V as [| p | p]; try lia. intros _. simpl. apply digits2_pos_log2.
Qed.

Lemma log2_bounds (V : Z) : 0 < V -> 2 ^ Z.log2 V <= V < 2 ^ (Z.log2 V + 1).
Proof. intros H. apply Z.log2_spec. exact H. Qed.

Lemma iter_pos_nat {A} (f : A -> A) (p : positive) (x : A) :
  iter_pos f p x = Nat.iter (Pos.to_nat p) f x.
Proof.
  revert x. induction p as [p IH | p IH |]; intros x.
  - rewrite Pos2Nat.inj_xI. cbn [iter_pos]. rewrite !IH.
    rewrite <- Nat.iter_succ_r, <- Nat.iter_add. f_equal. lia.
  - rewrite Pos2Nat.inj_xO. cbn [iter_pos]. rewrite !IH.
    rewrite <- Nat.iter_add. f_equal. lia.
  - reflexivity.
Qed.

Lemma mod_pow2_succ (V k : Z) :
  0 <= k -> V mod 2 ^ (k + 1) = V mod 2 ^ k + 2 ^ k * Z.b2z (Z.testbit V k).
Proof.
  intros Hk. rewrite Z.pow_add_r by lia. change (2 ^ 1) with 2.
  assert (H2k : 0 < 2 ^ k) by (apply Z.pow_pos_nonneg; lia).
  rewrite Z.rem_mul_r by lia.
  rewrite Z.testbit_spec' by lia. reflexivity.
Qed.

Lemma shr_1_nonneg (m : Z) (r s : bool) :
  0 <= m ->
  shr_1 {| shr_m := m; shr_r := r; shr_s := s |}
  = {| shr_m := m / 2; shr_r := Z.odd m; shr_s := r || s |}.
Proof.
  intros Hm. destruct m as [| p | p]; try lia.
  - reflexivity.
  - destruct p as [p | p |]; simpl shr_1.
    + f_equal. rewrite Pos2Z.inj_xI. 
      apply Z.div_unique with (r := 1); lia.
    + f_equal. rewrite Pos2Z.inj_xO. apply Z.div_unique with (r := 0); lia.
    + reflexivity.
Qed.

Lemma shr_iter_spec (V : Z) (k : nat) :
  0 <= V ->
  Nat.iter (S k) shr_1 {| shr_m := V; shr_r := false; shr_s := false |}
  = shr_spec V (Z.of_nat (S k)).
Proof.
  intros HV. induction k as [| k IH].
  - unfold Nat.iter; cbn [nat_rect]. rewrite shr_1_nonneg by exact HV. unfold shr_spec.
    change (Z.of_nat 1) with 1. simpl (1 - 1). rewrite Z.pow_0_r, Z.mod_1_r.
    rewrite Z.bit0_odd. reflexivity.
  - rewrite Nat.iter_succ. rewrite IH. unfold shr_spec.
    set (n := Z.of_nat (S k)).
    assert (Hn : 1 <= n) by lia.
    replace (Z.of_nat (S (S k))) with (n + 1) by lia.
    rewrite shr_1_nonneg by (apply Z.div_pos; [exact HV | apply Z.pow_pos_nonneg; lia]).
    f_equal.
    + rewrite Z.pow_add_r by lia. rewrite Z.div_div by (try apply Z.pow_pos_nonneg; lia).
      reflexivity.
    + replace (n + 1 - 1) with n by lia.
      rewrite <- Z.bit0_odd. rewrite Z.div_pow2_bits by lia. f_equal; lia.
    + replace (n + 1 - 1) with n by lia.
      replace (V mod 2 ^ n) with (V mod 2 ^ (n - 1 + 1)) by (f_equal; f_equal; lia).
      rewrite (mod_pow2_succ V (n - 1)) by lia.
      assert (H2k : 0 < 2 ^ (n - 1)) by (apply Z.pow_pos_nonneg; lia).
      assert (Hm := Z.mod_pos_bound V (2 ^ (n - 1)) H2k).
      destruct (Z.testbit V (n - 1)); simpl Z.b2z;
      destruct (Z.eqb_spec (V mod 2 ^ (n - 1)) 0) as [E0 | E0];
      match goal with |- context [?a =? 0] => destruct (Z.eqb_spec a 0) end;
      simpl; try reflexivity; lia.
Qed.

Lemma round_shr_spec (V n : Z) :
  0 <= V -> 1 <= n ->
  round_nearest_even (shr_m (shr_spec V n)) (loc_of_shr_record (shr_spec V n))
  = rne V n.
Proof.
  intros HV Hn. unfold shr_spec, rne. cbn [shr_m loc_of_shr_record].
  replace (V mod 2 ^ n) with (V mod 2 ^ (n - 1 + 1)) by (f_equal; f_equal; lia).
  rewrite (mod_pow2_succ V (n - 1)) by lia.
  replace (2 ^ n) with (2 * 2 ^ (n - 1))
    by (rewrite <- Z.pow_succ_r by lia; f_equal; lia).
  assert (H2k : 0 < 2 ^ (n - 1)) by (apply Z.pow_pos_nonneg; lia).
  assert (Hm := Z.mod_pos_bound V (2 ^ (n - 1)) H2k).
  set (q := V / (2 * 2 ^ (n - 1))).
  set (low := V mod 2 ^ (n - 1)) in *.
  set (h := 2 ^ (n - 1)) in *.
  destruct (Z.testbit V (n - 1)); simpl Z.b2z;
    destruct (Z.eqb_spec low 0) as [E0 | E0]; simpl negb;
    cbn [round_nearest_even];
    destruct (Z.ltb_spec (2 * h) (2 * (low + h * 1))); 
    destruct (Z.eqb_spec (2 * (low + h * 1)) (2 * h));
    try destruct (Z.ltb_spec (2 * h) (2 * (low + h * 0))); 
    try destruct (Z.eqb_spec (2 * (low + h * 0)) (2 * h));
    simpl; try lia; try reflexivity.
  rewrite <- Z.negb_odd. destruct (Z.odd q); reflexivity.
Qed.

Lemma rne_shift (V n k : Z) :
  0 <= n -> 0 <= k -> rne (V * 2 ^ k) (n + k) = rne V n.
Proof.
  intros Hn Hk. unfold rne.
  assert (H2n : 0 < 2 ^ n) by (apply Z.pow_pos_nonneg; lia).
  assert (H2k : 0 < 2 ^ k) by (apply Z.pow_pos_nonneg; lia).
  rewrite Z.pow_add_r by lia.
  rewrite Z.div_mul_cancel_r by lia.
  rewrite Z.mul_mod_distr_r by lia.
  set (r := V mod 2 ^ n). set (q := V / 2 ^ n).
  replace (2 ^ n * 2 ^ k <? 2 * (r * 2 ^ k)) with (2 ^ n <? 2 * r).
  2:{ destruct (Z.ltb_spec (2 ^ n) (2 * r)), (Z.ltb_spec (2 ^ n * 2 ^ k) (2 * (r * 2 ^ k))); try reflexivity; nia. }
  replace (2 * (r * 2 ^ k) =? 2 ^ n * 2 ^ k) with (2 * r =? 2 ^ n).
  2:{ destruct (Z.eqb_spec (2 * r) (2 ^ n)), (Z.eqb_spec (2 * (r * 2 ^ k)) (2 ^ n * 2 ^ k)); try reflexivity; nia. }
  reflexivity.
Qed.

Lemma rne_exact (V n : Z) :
  0 <= n -> rne (V * 2 ^ n) n = V.
Proof.
  intros Hn. unfold rne.
  assert (H2n : 0 < 2 ^ n) by (apply Z.pow_pos_nonneg; lia).
  rewrite Z.div_mul by lia. rewrite Z.mod_mul by lia.
  destruct (Z.ltb_spec (2 ^ n) (2 * 0)); [lia |].
  destruct (Z.eqb_spec (2 * 0) (2 ^ n)); [lia |]. reflexivity.
Qed.

Lemma rne_bounds (V n : Z) :
  0 <= n -> V / 2 ^ n <= rne V n <= V / 2 ^ n + 1.
Proof.
  intros Hn. unfold rne.
  destruct ((2 ^ n <? 2 * (V mod 2 ^ n)) || _); lia.
Qed.

Lemma rne_mono (V V' n : Z) :
  0 <= n -> V <= V' -> rne V n <= rne V' n.
Proof.
  intros Hn HV.
  assert (H2n : 0 < 2 ^ n) by (apply Z.pow_pos_nonneg; lia).
  assert (Hq : V / 2 ^ n <= V' / 2 ^ n) by (apply Z.div_le_mono; lia).
  destruct (Z.eq_dec (V / 2 ^ n) (V' / 2 ^ n)) as [Heq | Hne].
  - unfold rne. rewrite <- Heq.
    assert (Hr : V mod 2 ^ n <= V' mod 2 ^ n).
    { rewrite !Z.mod_eq by lia. rewrite <- Heq. lia. }
    set (q := V / 2 ^ n).
    destruct (Z.ltb_spec (2 ^ n) (2 * (V mod 2 ^ n)));
    destruct (Z.ltb_spec (2 ^ n) (2 * (V' mod 2 ^ n)));
    destruct (Z.eqb_spec (2 * (V mod 2 ^ n)) (2 ^ n));
    destruct (Z.eqb_spec (2 * (V' mod 2 ^ n)) (2 ^ n));
    destruct (Z.odd q); simpl; lia.
  - pose proof (rne_bounds V n Hn). pose proof (rne_bounds V' n Hn). lia.
Qed.

Lemma fexp_eq (k : Z) : fexp prec emax k = Z.max (k - 53) (-1074).
Proof. reflexivity. Qed.

Lemma iter_xO (m d : positive) : Z.pos (Pos.iter xO m d) = Z.pos m * 2 ^ Z.pos d.
Proof.
  induction d as [| d IH] using Pos.peano_ind.
  - simpl. lia.
  - rewrite Pos.iter_succ. rewrite Pos2Z.inj_xO, IH.
    rewrite Pos2Z.inj_succ, Z.pow_succ_r by lia. lia.
Qed.

Lemma shl_align_lt (m : positive) (e e' : Z) :
  e' < e ->
  exists mz, shl_align m e e' = (mz, e') /\ Z.pos mz = Z.pos m * 2 ^ (e - e').
Proof.
  intros H. unfold shl_align.
  destruct (e' - e) as [| d | d] eqn:E; try lia.
  eexists; split; [reflexivity |].
  rewrite iter_xO. f_equal. f_equal. lia.
Qed.

Lemma shl_align_ge (m : positive) (e e' : Z) :
  e <= e' -> shl_align m e e' = (m, e).
Proof.
  intros H. unfold shl_align. destruct (e' - e) as [| d | d] eqn:E; try lia; reflexivity.
Qed.

Lemma shr_pos (V e n : Z) :
  0 <= V -> 0 < n ->
  shr {| shr_m := V; shr_r := false; shr_s := false |} e n = (shr_spec V n, e + n).
Proof.
  intros HV Hn. destruct n as [| p | p]; try lia. unfold shr.
  rewrite iter_pos_nat.
  destruct (Pos2Nat.is_succ p) as [k Hk]. rewrite Hk.
  rewrite shr_iter_spec by exact HV. rewrite <- Hk, positive_nat_Z. reflexivity.
Qed.

Lemma shr_nonpos (mrs : shr_record) (e n : Z) : n <= 0 -> shr mrs e n = (mrs, e).
Proof. intros Hn. destruct n as [| p | p]; try lia; reflexivity. Qed.

Lemma to_pos_eq (V : Z) (p : positive) : V = Z.pos p -> Z.to_pos V = p.
Proof. intros ->. reflexivity. Qed.

(** No shift is needed: the result is the input itself. *)
Lemma bra_exact (s : bool) (V e : Z) :
  0 < V -> fexp prec emax (Zdigits2 V + e) <= e ->
  binary_round_aux prec emax s V e loc_Exact = overflow_to_inf s V e.
Proof.
  intros HV Hf. unfold binary_round_aux, shr_fexp. cbn [shr_record_of_loc].
  rewrite shr_nonpos by lia. cbn [shr_m loc_of_shr_record round_nearest_even].
  rewrite shr_nonpos by lia. cbn [shr_m].
  unfold overflow_to_inf.
  destruct V as [| p | p]; try lia. reflexivity.
Qed.

Lemma log2_lt_pow2' (V d : Z) : 0 < V -> 0 <= d -> (Z.log2 V + 1 <= d <-> V < 2 ^ d).
Proof.
  intros HV Hd. split; intros H.
  - apply Z.log2_lt_pow2; lia.
  - apply Z.log2_lt_pow2 in H; lia.
Qed.

(** A shift by [d - prec > 0] digits, then the rounding and its carry. *)
Lemma bra_round (s : bool) (V e : Z) :
  0 < V -> prec < Z.log2 V + 1 -> emin <= e ->
  binary_round_aux prec emax s V e loc_Exact
  = let n := Z.log2 V + 1 - prec in
    let q := rne V n in
    if q <? 2 ^ prec then overflow_to_inf s q (e + n)
    else overflow_to_inf s (2 ^ (prec - 1)) (e + n + 1).
Proof.
  intros HV Hd He. cbv zeta.
  set (n := Z.log2 V + 1 - prec).
  assert (Hn : 0 < n) by (unfold n; lia).
  assert (Hb := log2_bounds V HV).
  assert (H2n : 0 < 2 ^ n) by (apply Z.pow_pos_nonneg; lia).
  assert (Hq : 2 ^ (prec - 1) <= V / 2 ^ n < 2 ^ prec).
  { split.
    - apply Z.div_le_lower_bound; [lia |].
      rewrite <- Z.pow_add_r by (unfold prec; lia).
      replace (n + (prec - 1)) with (Z.log2 V) by (unfold n; lia). lia.
    - apply Z.div_lt_upper_bound; [lia |].
      rewrite <- Z.pow_add_r by (unfold prec; lia).
      replace (n + prec) with (Z.log2 V + 1) by (unfold n; lia). lia. }
  unfold binary_round_aux, shr_fexp. cbn [shr_record_of_loc].
  rewrite Zdigits2_log2 by exact HV. rewrite fexp_eq.
  unfold emin, prec in *.
  replace (Z.max (Z.log2 V + 1 + e - 53) (-1074) - e) with n by (unfold n; lia).
  rewrite shr_pos by lia.
  rewrite round_shr_spec by lia.
  pose proof (rne_bounds V n (Z.lt_le_incl _ _ Hn)) as Hr.
  set (q := rne V n) in *.
  assert (Hq0 : 0 < q) by lia.
  destruct (Z.ltb_spec q (2 ^ 53)) as [Hlt | Hge].
  - assert (Hdq : Zdigits2 q = 53).
    { rewrite Zdigits2_log2 by lia.
      assert (Z.log2 q = 52); [| lia].
      apply Z.log2_unique; lia. }
    rewrite Hdq, fexp_eq.
    rewrite shr_nonpos by lia. cbn [shr_m].
    unfold overflow_to_inf, emax, prec.
    destruct q as [| p | p]; try lia. reflexivity.
  - assert (Eq : q = 2 ^ 53) by lia.
    rewrite Eq. change (Zdigits2 (2 ^ 53)) with 54. rewrite fexp_eq.
    replace (Z.max (54 + (e + n) - 53) (-1074) - (e + n)) with 1 by lia.
    rewrite shr_pos by lia. unfold overflow_to_inf, emax, prec.
    replace (e + n + 1 <=? 1024 - 53) with (e + n + 1 <=? 971) by reflexivity.
    reflexivity.
Qed.

Lemma binary_round_spec (s : bool) (M : positive) (e : Z) :
  emin <= e ->
  binary_round prec emax s M e = rnd_pos s (Z.pos M * 2 ^ (e - emin)).
Proof.
  intros He. unfold binary_round, rnd_pos.
  set (k := e - emin). assert (Hk : 0 <= k) by (unfold k; lia).
  assert (H2k : 0 < 2 ^ k) by (apply Z.pow_pos_nonneg; lia).
  set (V := Z.pos M * 2 ^ k). assert (HV : 0 < V) by (unfold V; lia).
  assert (HdV : Z.log2 V = Z.log2 (Z.pos M) + k).
  { unfold V. rewrite Z.log2_mul_pow2 by lia. lia. }
  rewrite digits2_pos_log2, fexp_eq.
  set (d := Z.log2 (Z.pos M) + 1) in *.
  set (E := Z.max (d + e - 53) (-1074)).
  unfold emin, prec in *.
  destruct (Z.leb_spec (Z.log2 V + 1) 53) as [Hsmall | Hbig].
  - (* the sum is exactly representable at the least exponent *)
    assert (HE : E = -1074) by (unfold E; lia).
    destruct (Z.eq_dec k 0) as [K0 | K0].
    + rewrite shl_align_ge by lia.
      rewrite bra_exact; [| lia | rewrite Zdigits2_log2, fexp_eq by lia; fold d; lia].
      unfold overflow_to_inf, emax, prec.
      destruct (Z.leb_spec e (1024 - 53)); [| lia].
      f_equal; [| lia]. unfold V. rewrite K0. f_equal. lia.
    + destruct (shl_align_lt M e E) as (mz & -> & Hmz); [lia |].
      rewrite bra_exact; [| lia |].
      2:{ rewrite Zdigits2_log2, fexp_eq by lia. rewrite Hmz.
          rewrite Z.log2_mul_pow2 by lia. fold d. lia. }
      unfold overflow_to_inf, emax, prec.
      destruct (Z.leb_spec E (1024 - 53)); [| lia].
      f_equal; [| lia]. rewrite Pos2Z.id. apply Pos2Z.inj.
      rewrite Hmz. rewrite Z2Pos.id by lia. unfold V. f_equal. f_equal. unfold k. lia.
  - set (n := Z.log2 V + 1 - 53).
    assert (HE : E = -1074 + n) by (unfold E, n; lia).
    destruct (Z_lt_le_dec E e) as [Hlt | Hge].
    + (* alignment to the left: exact *)
      destruct (shl_align_lt M e E) as (mz & -> & Hmz); [lia |].
      rewrite bra_exact; [| lia |].
      2:{ rewrite Zdigits2_log2, fexp_eq by lia. rewrite Hmz.
          rewrite Z.log2_mul_pow2 by lia. fold d. lia. }
      assert (Hkn : k = (e - E) + n) by (unfold k; lia).
      assert (Hq : rne V n = Z.pos mz).
      { unfold V. rewrite Hkn, Z.pow_add_r, Z.mul_assoc by lia.
        rewrite rne_exact by lia. lia. }
      rewrite Hq.
      assert (Hmzb : Z.pos mz < 2 ^ 53).
      { apply log2_lt_pow2'; [lia | lia |]. rewrite Hmz.
        rewrite Z.log2_mul_pow2 by lia. lia. }
      destruct (Z.ltb_spec (Z.pos mz) (2 ^ 53)); [| lia].
      rewrite HE. reflexivity.
    + destruct (Z.eq_dec E e) as [Heq | Hne].
      * rewrite shl_align_ge by lia.
        rewrite bra_exact; [| lia | rewrite Zdigits2_log2, fexp_eq by lia; fold d; fold E; lia].
        assert (Hkn : k = n) by (unfold k; lia).
        assert (Hq : rne V n = Z.pos M).
        { unfold V. rewrite Hkn. apply rne_exact. lia. }
        rewrite Hq.
        assert (Hmb : Z.pos M < 2 ^ 53).
        { apply log2_lt_pow2'; lia. }
        destruct (Z.ltb_spec (Z.pos M) (2 ^ 53)); [| lia].
        replace (-1074 + n) with e by lia. reflexivity.
      * rewrite shl_align_ge by lia.
        rewrite bra_round; [| lia | unfold prec; fold d; lia | unfold emin; lia].
        cbv zeta. unfold prec.
        assert (Hn0 : n = (Z.log2 (Z.pos M) + 1 - 53) + k) by (unfold n; lia).
        assert (Hq : rne V n = rne (Z.pos M) (Z.log2 (Z.pos M) + 1 - 53)).
        { unfold V. rewrite Hn0. apply rne_shift; lia. }
        rewrite Hq.
        replace (e + (Z.log2 (Z.pos M) + 1 - 53)) with (-1074 + n) by (unfold k in *; lia).
        reflexivity.
Qed.

Lemma SFcompare_key (x y : float) :
  is_nan x = false -> is_nan y = false ->
  SFcompare x y = Some (lex3 (key x) (key y)).
Proof.
  destruct x as [sx | sx | | sx mx ex], y as [sy | sy | | sy my ey];
    try discriminate; intros _ _;
    try destruct sx; try destruct sy; try reflexivity.
  simpl. rewrite Z.compare_opp, (Z.compare_antisym ex ey).
  destruct (ex ?= ey); reflexivity.
Qed.

Lemma lex3_lt (a b : Z * Z * Z) : lex3 a b = Lt <-> lex_lt a b.
Proof.
  destruct a as [[a1 a2] a3], b as [[b1 b2] b3]. unfold lex3, lex_lt.
  destruct (Z.compare_spec a1 b1); destruct (Z.compare_spec a2 b2);
    destruct (Z.compare_spec a3 b3); split; intros G; try discriminate;
    try reflexivity; try lia.
Qed.

Lemma lex3_eq (a b : Z * Z * Z) : lex3 a b = Eq <-> a = b.
Proof.
  destruct a as [[a1 a2] a3], b as [[b1 b2] b3]. unfold lex3.
  destruct (Z.compare_spec a1 b1); destruct (Z.compare_spec a2 b2);
    destruct (Z.compare_spec a3 b3); split; intros G; try discriminate;
    try reflexivity; try (injection G; lia); f_equal; try f_equal; lia.
Qed.

Lemma ltb_iff (x y : float) :
  ltb x y = true <-> is_nan x = false /\ is_nan y = false /\ lex_lt (key x) (key y).
Proof.
  unfold ltb, SFltb.
  destruct (is_nan x) eqn:Nx.
  { destruct x; try discriminate. simpl. split; [discriminate | intros (H & _); discriminate]. }
  destruct (is_nan y) eqn:Ny.
  { destruct y; try discriminate. destruct x; simpl; split; try discriminate;
      intros (_ & H & _); discriminate. }
  rewrite SFcompare_key by assumption. rewrite <- lex3_lt.
  destruct (lex3 (key x) (key y)); split; try discriminate; try tauto;
    intros (_ & _ & H); discriminate.
Qed.

Lemma leb_iff (x y : float) :
  leb x y = true <-> is_nan x = false /\ is_nan y = false /\ lex_le (key x) (key y).
Proof.
  unfold leb, SFleb.
  destruct (is_nan x) eqn:Nx.
  { destruct x; try discriminate. simpl. split; [discriminate | intros (H & _); discriminate]. }
  destruct (is_nan y) eqn:Ny.
  { destruct y; try discriminate. destruct x; simpl; split; try discriminate;
      intros (_ & H & _); discriminate. }
  rewrite SFcompare_key by assumption. unfold lex_le.
  rewrite <- lex3_lt, <- lex3_eq.
  destruct (lex3 (key x) (key y)); split; try discriminate; try tauto.
  intros (_ & _ & [H | H]); discriminate.
Qed.

Lemma lex_le_trans (a b c : Z * Z * Z) : lex_le a b -> lex_le b c -> lex_le a c.
Proof.
  destruct a as [[a1 a2] a3], b as [[b1 b2] b3], c as [[c1 c2] c3].
  unfold lex_le, lex_lt.
  intros [H1 | H1] [H2 | H2]; try (injection H1 as -> -> ->);
    try (injection H2 as -> -> ->); auto.
  left. lia.
Qed.

Lemma lex_le_lt_trans (a b c : Z * Z * Z) : lex_le a b -> lex_lt b c -> lex_lt a c.
Proof.
  destruct a as [[a1 a2] a3], b as [[b1 b2] b3], c as [[c1 c2] c3].
  unfold lex_le, lex_lt.
  intros [H1 | H1] H2; try (injection H1 as -> -> ->); auto. lia.
Qed.

Lemma lex_lt_not_le (a b : Z * Z * Z) : lex_lt a b -> lex_le b a -> False.
Proof.
  destruct a as [[a1 a2] a3], b as [[b1 b2] b3].
  unfold lex_le, lex_lt.
  intros H1 [H2 | H2]; try (injection H2 as -> -> ->); lia.
Qed.

Lemma leb_trans (x y z : float) : leb x y = true -> leb y z = true -> leb x z = true.
Proof.
  rewrite !leb_iff. intros (Nx & Ny & H1) (_ & Nz & H2).
  repeat split; try assumption. eapply lex_le_trans; eassumption.
Qed.

Lemma leb_ltb_trans (x y z : float) : leb x y = true -> ltb y z = true -> ltb x z = true.
Proof.
  rewrite leb_iff, !ltb_iff. intros (Nx & Ny & H1) (_ & Nz & H2).
  repeat split; try assumption. eapply lex_le_lt_trans; eassumption.
Qed.

Lemma leb_not_ltb (x y : float) : leb x y = true -> ltb y x = false.
Proof.
  intros H. destruct (ltb y x) eqn:E; [| reflexivity]. exfalso.
  apply leb_iff in H as (_ & _ & H). apply ltb_iff in E as (_ & _ & E).
  eapply lex_lt_not_le; eassumption.
Qed.

Lemma valid_finite_inv (s : bool) (m : positive) (e : Z) :
  valid (S754_finite s m e) = true ->
  emin <= e <= emax - prec /\ Z.pos m < 2 ^ prec /\
  (emin < e -> 2 ^ (prec - 1) <= Z.pos m).
Proof.
  unfold valid, valid_binary, bounded, canonical_mantissa.
  rewrite andb_true_iff, Z.eqb_eq, Z.leb_le, fexp_eq, digits2_pos_log2.
  unfold emin, emax, prec. intros (Hc & Hb).
  assert (Hl := log2_bounds (Z.pos m) (Pos2Z.is_pos m)).
  assert (Z.log2 (Z.pos m) <= 52) by lia.
  repeat split; try lia.
  - apply Z.lt_le_trans with (1 := proj2 Hl). apply Z.pow_le_mono_r; lia.
  - intros He. replace (53 - 1) with (Z.log2 (Z.pos m)) by lia. lia.
Qed.

Lemma mag_lt (m m' : positive) (e e' : Z) (s s' : bool) :
  valid (S754_finite s m e) = true -> valid (S754_finite s' m' e') = true ->
  e < e' -> Z.pos m * 2 ^ (e - emin) < Z.pos m' * 2 ^ (e' - emin).
Proof.
  intros Hv Hv' He.
  apply valid_finite_inv in Hv as ((He1 & _) & Hm & _).
  apply valid_finite_inv in Hv' as ((_ & _) & _ & Hm').
  specialize (Hm' ltac:(lia)). unfold prec in *.
  assert (H2k : 0 < 2 ^ (e - emin)) by (apply Z.pow_pos_nonneg; lia).
  apply Z.lt_le_trans with (2 ^ 53 * 2 ^ (e - emin)); [nia |].
  replace (2 ^ 53) with (2 ^ (53 - 1) * 2) by reflexivity.
  rewrite <- Z.mul_assoc, <- Z.pow_succ_r by lia.
  apply Z.le_trans with (2 ^ (53 - 1) * 2 ^ (e' - emin)).
  - apply Z.mul_le_mono_nonneg_l; [lia |]. apply Z.pow_le_mono_r; lia.
  - apply Z.mul_le_mono_nonneg_r; [| lia]. apply Z.pow_nonneg; lia.
Qed.

Lemma key_le_Zval (x y : float) :
  valid x = true -> valid y = true -> is_finite x = true -> is_finite y = true ->
  lex_le (key x) (key y) -> Zval x <= Zval y.
Proof.
  intros Vx Vy Fx Fy.
  destruct x as [sx | sx | | sx mx ex], y as [sy | sy | | sy my ey];
    try discriminate; unfold lex_le, lex_lt, Zval, key, signed_mantissa.
  - assert (Hp : 0 < 2 ^ (ey - emin)).
    { apply Z.pow_pos_nonneg; [lia |]. apply valid_finite_inv in Vy. lia. }
    destruct sy; cbn -[Z.mul Z.pow Z.sub Z.lt Z.opp]; intros [H | H]; try discriminate H; try lia; nia.
  - assert (Hp : 0 < 2 ^ (ex - emin)).
    { apply Z.pow_pos_nonneg; [lia |]. apply valid_finite_inv in Vx. lia. }
    destruct sx; cbn -[Z.mul Z.pow Z.sub Z.lt Z.opp]; intros [H | H]; try discriminate H; try lia; nia.
  - assert (Hx : 0 < 2 ^ (ex - emin)).
    { apply Z.pow_pos_nonneg; [lia |]. apply valid_finite_inv in Vx. lia. }
    assert (Hy : 0 < 2 ^ (ey - emin)).
    { apply Z.pow_pos_nonneg; [lia |]. apply valid_finite_inv in Vy. lia. }
    destruct sx, sy; cbn -[Z.mul Z.pow Z.sub Z.lt Z.opp]; intros [H | H].
    + destruct H as [H | (_ & [H | (H & H')])]; try lia.
      * pose proof (mag_lt _ _ _ _ _ _ Vy Vx ltac:(lia)). lia.
      * assert (ex = ey) by lia. subst ey. nia.
    + inversion H. assert (ex = ey) by lia. subst. lia.
    + nia.
    + discriminate H.
    + destruct H as [H | (H & _)]; lia.
    + discriminate H.
    + destruct H as [H | (_ & [H | (H & H')])]; try lia.
      * pose proof (mag_lt _ _ _ _ _ _ Vx Vy ltac:(lia)). lia.
      * subst ey. nia.
    + inversion H. subst. lia.
Qed.

Lemma lex_le_kneg (a b : Z * Z * Z) : lex_le a b -> lex_le (kneg b) (kneg a).
Proof.
  destruct a as [[a1 a2] a3], b as [[b1 b2] b3]. unfold lex_le, lex_lt, kneg.
  intros [H | H]; [left; lia | right; congruence].
Qed.

Lemma rne_normal (V : Z) :
  0 < V -> prec < Z.log2 V + 1 ->
  2 ^ (prec - 1) <= rne V (Z.log2 V + 1 - prec) <= 2 ^ prec.
Proof.
  intros HV Hd.
  set (n := Z.log2 V + 1 - prec).
  assert (Hn : 0 < n) by (unfold n; lia).
  assert (Hb := log2_bounds V HV).
  assert (H2n : 0 < 2 ^ n) by (apply Z.pow_pos_nonneg; lia).
  assert (Hq : 2 ^ (prec - 1) <= V / 2 ^ n < 2 ^ prec).
  { split.
    - apply Z.div_le_lower_bound; [lia |].
      rewrite <- Z.pow_add_r by (unfold prec; lia).
      replace (n + (prec - 1)) with (Z.log2 V) by (unfold n; lia). lia.
    - apply Z.div_lt_upper_bound; [lia |].
      rewrite <- Z.pow_add_r by (unfold prec; lia).
      replace (n + prec) with (Z.log2 V + 1) by (unfold n; lia). lia. }
  pose proof (rne_bounds V n (Z.lt_le_incl _ _ Hn)). lia.
Qed.

Lemma rnd_pos_key (s : bool) (V : Z) :
  0 < V -> key (rnd_pos s V) = if s then kneg (pk V) else pk V.
Proof.
  intros HV. unfold rnd_pos, pk.
  destruct (Z.leb_spec (Z.log2 V + 1) prec) as [Hd | Hd].
  - destruct V as [| p | p]; try lia. destruct s; reflexivity.
  - cbv zeta. pose proof (rne_normal V HV Hd) as Hr.
    assert (0 < 2 ^ (prec - 1)) by reflexivity.
    destruct (Z.ltb_spec (rne V (Z.log2 V + 1 - prec)) (2 ^ prec));
      unfold overflow_to_inf, ovfk.
    + destruct (_ <=? _); [| destruct s; reflexivity].
      destruct (rne V (Z.log2 V + 1 - prec)) as [| p | p]; try lia.
      destruct s; reflexivity.
    + destruct (_ <=? _); destruct s; reflexivity.
Qed.

Lemma pk_mono (V V' : Z) : 0 < V -> V <= V' -> lex_le (pk V) (pk V').
Proof.
  intros HV Hle. assert (HV' : 0 < V') by lia.
  assert (Hlog : Z.log2 V <= Z.log2 V') by (apply Z.log2_le_mono; exact Hle).
  unfold pk, lex_le, lex_lt.
  destruct (Z.leb_spec (Z.log2 V + 1) prec) as [Hd | Hd];
    destruct (Z.leb_spec (Z.log2 V' + 1) prec) as [Hd' | Hd']; cbv zeta; try lia.
  - destruct (Z.eq_dec V V'); [right; congruence | left; lia].
  - pose proof (rne_normal V' HV' Hd') as Hr'.
    change (2 ^ (prec - 1)) with 4503599627370496 in *.
    change (2 ^ prec) with 9007199254740992 in *.
    unfold ovfk, emin, emax, prec in *.
    repeat match goal with |- context [Z.ltb ?a ?b] => destruct (Z.ltb_spec a b) end;
    repeat match goal with |- context [Z.leb ?a ?b] => destruct (Z.leb_spec a b) end;
    left; lia.
  - pose proof (rne_normal V HV Hd) as Hr.
    pose proof (rne_normal V' HV' Hd') as Hr'.
    assert (Hm : Z.log2 V = Z.log2 V' -> rne V (Z.log2 V + 1 - prec) <= rne V' (Z.log2 V' + 1 - prec)).
    { intros E. rewrite <- E. apply rne_mono; lia. }
    change (2 ^ (prec - 1)) with 4503599627370496 in *.
    change (2 ^ prec) with 9007199254740992 in *.
    set (q := rne V (Z.log2 V + 1 - prec)) in *.
    set (q' := rne V' (Z.log2 V' + 1 - prec)) in *.
    unfold ovfk, emin, emax, prec in *.
    repeat match goal with |- context [Z.ltb ?a ?b] => destruct (Z.ltb_spec a b) end;
    repeat match goal with |- context [Z.leb ?a ?b] => destruct (Z.leb_spec a b) end;
    try (right; reflexivity); try lia;
    destruct (Z.eq_dec (Z.log2 V) (Z.log2 V')) as [E | E];
    try (specialize (Hm E));
    try (destruct (Z.eq_dec q q') as [Eq | Eq];
         [right; rewrite ?E, ?Eq; reflexivity | left; lia]);
    try (right; f_equal; f_equal; lia);
    try (left; lia).
    destruct (Z.eq_dec q' 4503599627370496) as [Eq' | Eq']; [| left; lia].
    destruct (Z.eq_dec (Z.log2 V + 1) (Z.log2 V')) as [El | El]; [| left; lia].
    right. rewrite Eq'. f_equal. f_equal. lia.
Qed.

Lemma pk_positive (V : Z) : 0 < V -> lex_lt (0, 0, 0) (pk V).
Proof.
  intros HV. unfold pk, ovfk, lex_lt.
  repeat match goal with |- context [if ?b then _ else _] => destruct b end; lia.
Qed.

Lemma radd_key_mono (S S' : Z) : S <= S' -> lex_le (key (radd S)) (key (radd S')).
Proof.
  intros H.
  destruct S as [| p | p], S' as [| p' | p']; try lia; unfold radd;
    rewrite ?rnd_pos_key by lia.
  - right; reflexivity.
  - left. apply (pk_positive (Z.pos p')). lia.
  - apply pk_mono; lia.
  - change (key zero) with (kneg (0, 0, 0)). apply lex_le_kneg. left.
    apply pk_positive. lia.
  - pose proof (pk_positive (Z.pos p) ltac:(lia)) as H1.
    pose proof (pk_positive (Z.pos p') ltac:(lia)) as H2.
    destruct (pk (Z.pos p)) as [[a1 a2] a3], (pk (Z.pos p')) as [[b1 b2] b3].
    unfold lex_le, lex_lt, kneg in *. left. lia.
  - apply lex_le_kneg. apply pk_mono; lia.
Qed.

Lemma radd_not_nan (S : Z) : is_nan (radd S) = false.
Proof.
  destruct S as [| p | p]; try reflexivity; unfold radd, rnd_pos, overflow_to_inf;
    repeat match goal with |- context [if ?b then _ else _] => destruct b end;
    reflexivity.
Qed.

Lemma rnd_pos_valid (s : bool) (V : Z) : 0 < V -> valid (rnd_pos s V) = true.
Proof.
  intros HV. unfold rnd_pos.
  destruct (Z.leb_spec (Z.log2 V + 1) prec) as [Hd | Hd].
  - unfold valid, valid_binary, bounded, canonical_mantissa.
    rewrite digits2_pos_log2, Z2Pos.id, fexp_eq by lia.
    unfold emin, emax, prec in *.
    apply andb_true_iff. split; [apply Z.eqb_eq; lia | reflexivity].
  - cbv zeta. pose proof (rne_normal V HV Hd) as Hr.
    change (2 ^ (prec - 1)) with 4503599627370496 in *.
    change (2 ^ prec) with 9007199254740992 in *.
    set (q := rne V (Z.log2 V + 1 - prec)) in *.
    unfold overflow_to_inf.
    destruct (Z.ltb_spec q 9007199254740992) as [Hq | Hq];
      match goal with |- context [Z.leb ?a ?b] => destruct (Z.leb_spec a b) as [Ho | Ho] end;
      try reflexivity;
      unfold valid, valid_binary, bounded, canonical_mantissa;
      rewrite digits2_pos_log2, fexp_eq.
    + rewrite Z2Pos.id by lia.
      assert (E : Z.log2 q = 52) by (apply Z.log2_unique; lia).
      rewrite E. unfold emin, emax, prec in *.
      apply andb_true_iff. split; [apply Z.eqb_eq; lia | apply Z.leb_le; lia].
    + change (Z.log2 (Z.pos (Z.to_pos 4503599627370496))) with 52.
      unfold emin, emax, prec in *.
      apply andb_true_iff. split; [apply Z.eqb_eq; lia | apply Z.leb_le; lia].
Qed.

Lemma radd_valid (S : Z) : valid (radd S) = true.
Proof.
  destruct S as [| p | p]; [reflexivity | |]; apply rnd_pos_valid; lia.
Qed.

(** A canonical float is the rounding of its own value. *)
Lemma rnd_pos_fixed (s : bool) (m : positive) (e : Z) :
  valid (S754_finite s m e) = true ->
  rnd_pos s (Z.pos m * 2 ^ (e - emin)) = S754_finite s m e.
Proof.
  intros Hv. pose proof (valid_finite_inv _ _ _ Hv) as ((He1 & He2) & Hm & Hn).
  unfold valid, valid_binary, bounded, canonical_mantissa in Hv.
  rewrite andb_true_iff, Z.eqb_eq, Z.leb_le, fexp_eq, digits2_pos_log2 in Hv.
  destruct Hv as (Hc & _).
  set (k := e - emin). assert (Hk : 0 <= k) by (unfold k; lia).
  assert (H2k : 0 < 2 ^ k) by (apply Z.pow_pos_nonneg; lia).
  unfold rnd_pos. rewrite Z.log2_mul_pow2 by lia.
  unfold emin, emax, prec in *.
  destruct (Z.leb_spec (k + Z.log2 (Z.pos m) + 1) 53) as [Hd | Hd].
  - assert (K0 : k = 0) by (unfold k in *; lia). rewrite K0.
    f_equal; [| unfold k in K0; lia].
    rewrite Z.pow_0_r, Z.mul_1_r. reflexivity.
  - cbv zeta.
    assert (E : k + Z.log2 (Z.pos m) + 1 - 53 = k) by (unfold k in *; lia).
    rewrite E, rne_exact by lia.
    destruct (Z.ltb_spec (Z.pos m) (2 ^ 53)); [| lia].
    unfold overflow_to_inf, emax, prec.
    destruct (Z.leb_spec (-1074 + k) (1024 - 53)); [| unfold k in *; lia].
    f_equal. unfold k; lia.
Qed.

Lemma radd_Zval (x : float) :
  valid x = true -> x = S754_zero false \/ (exists s m e, x = S754_finite s m e) ->
  radd (Zval x) = x.
Proof.
  intros Hv [-> | (s & m & e & ->)]; [reflexivity |].
  pose proof (valid_finite_inv _ _ _ Hv) as ((He1 & _) & _).
  assert (H2k : 0 < 2 ^ (e - emin)) by (apply Z.pow_pos_nonneg; lia).
  pose proof (rnd_pos_fixed _ _ _ Hv) as Hf.
  unfold Zval, signed_mantissa.
  destruct s.
  - destruct (Z.neg m * 2 ^ (e - emin)) as [| p | p] eqn:E; try lia.
    unfold radd. rewrite <- Hf. f_equal. lia.
  - destruct (Z.pos m * 2 ^ (e - emin)) as [| p | p] eqn:E; try lia.
    unfold radd. rewrite <- Hf. reflexivity.
Qed.

Lemma shl_align_fst (m : positive) (e e' : Z) :
  e' <= e -> Z.pos (fst (shl_align m e e')) = Z.pos m * 2 ^ (e - e').
Proof.
  intros H. destruct (Z.eq_dec e' e) as [-> | Hne].
  - rewrite shl_align_ge by lia. rewrite Z.sub_diag. simpl. lia.
  - destruct (shl_align_lt m e e') as (mz & -> & Hmz); [lia |]. exact Hmz.
Qed.

Lemma binary_normalize_radd (Mz e : Z) :
  emin <= e ->
  binary_normalize prec emax Mz e false = radd (Mz * 2 ^ (e - emin)).
Proof.
  intros He.
  assert (H2k : 0 < 2 ^ (e - emin)) by (apply Z.pow_pos_nonneg; lia).
  destruct Mz as [| p | p]; unfold binary_normalize.
  - reflexivity.
  - rewrite binary_round_spec by exact He.
    destruct (Z.pos p * 2 ^ (e - emin)) as [| q | q] eqn:E; try lia. reflexivity.
  - rewrite binary_round_spec by exact He.
    destruct (Z.neg p * 2 ^ (e - emin)) as [| q | q] eqn:E; try lia.
    unfold radd. f_equal. lia.
Qed.

Lemma add_finite_radd (sx : bool) (mx : positive) (ex : Z)
    (sy : bool) (my : positive) (ey : Z) :
  emin <= ex -> emin <= ey ->
  add (S754_finite sx mx ex) (S754_finite sy my ey)
  = radd (Zval (S754_finite sx mx ex) + Zval (S754_finite sy my ey)).
Proof.
  intros Hx Hy. unfold add, SFadd.
  set (ez := Z.min ex ey).
  assert (Hz : emin <= ez) by (unfold ez; lia).
  rewrite binary_normalize_radd by exact Hz.
  f_equal. rewrite Z.mul_add_distr_r.
  pose proof (shl_align_fst mx ex ez ltac:(unfold ez; lia)) as Ex.
  pose proof (shl_align_fst my ey ez ltac:(unfold ez; lia)) as Ey.
  unfold Zval, signed_mantissa.
  replace (2 ^ (ex - emin)) with (2 ^ (ex - ez) * 2 ^ (ez - emin))
    by (rewrite <- Z.pow_add_r by lia; f_equal; lia).
  replace (2 ^ (ey - emin)) with (2 ^ (ey - ez) * 2 ^ (ez - emin))
    by (rewrite <- Z.pow_add_r by lia; f_equal; lia).
  f_equal.
  - destruct sx; unfold cond_Zopp; rewrite Ex; [rewrite <- Pos2Z.opp_pos |]; ring.
  - destruct sy; unfold cond_Zopp; rewrite Ey; [rewrite <- Pos2Z.opp_pos |]; ring.
Qed.

(** The sum of two finite canonical floats is the rounding of the exact
    sum of their values. *)
Lemma add_key (x y : float) :
  valid x = true -> valid y = true -> is_finite x = true -> is_finite y = true ->
  is_nan (add x y) = false /\
  valid (add x y) = true /\
  key (add x y) = key (radd (Zval x + Zval y)).
Proof.
  intros Vx Vy Fx Fy.
  destruct x as [sx | sx | | sx mx ex], y as [sy | sy | | sy my ey]; try discriminate.
  - destruct sx, sy; repeat split; reflexivity.
  - change (add (S754_zero sx) (S754_finite sy my ey)) with (S754_finite sy my ey).
    simpl (Zval (S754_zero sx)). rewrite Z.add_0_l.
    rewrite radd_Zval by (eauto). auto.
  - change (add (S754_finite sx mx ex) (S754_zero sy)) with (S754_finite sx mx ex).
    simpl (Zval (S754_zero sy)). rewrite Z.add_0_r.
    rewrite radd_Zval by (eauto). auto.
  - pose proof (valid_finite_inv _ _ _ Vx) as ((Hx & _) & _).
    pose proof (valid_finite_inv _ _ _ Vy) as ((Hy & _) & _).
    rewrite add_finite_radd by assumption.
    repeat split; [apply radd_not_nan | apply radd_valid].
Qed.

Lemma leb_finite_Zval (x y : float) :
  valid x = true -> valid y = true -> is_finite x = true -> is_finite y = true ->
  leb x y = true -> Zval x <= Zval y.
Proof.
  intros Vx Vy Fx Fy H. apply leb_iff in H as (_ & _ & H).
  apply key_le_Zval; assumption.
Qed.

(** Addition is monotone on finite canonical floats. *)
Lemma add_le_mono (x x' y y' : float) :
  valid x = true -> valid x' = true -> valid y = true -> valid y' = true ->
  is_finite x = true -> is_finite x' = true ->
  is_finite y = true -> is_finite y' = true ->
  leb x x' = true -> leb y y' = true ->
  leb (add x y) (add x' y') = true.
Proof.
  intros Vx Vx' Vy Vy' Fx Fx' Fy Fy' Hx Hy.
  destruct (add_key x y Vx Vy Fx Fy) as (N1 & _ & K1).
  destruct (add_key x' y' Vx' Vy' Fx' Fy') as (N2 & _ & K2).
  apply leb_iff. repeat split; try assumption.
  rewrite K1, K2. apply radd_key_mono.
  pose proof (leb_finite_Zval x x' Vx Vx' Fx Fx' Hx).
  pose proof (leb_finite_Zval y y' Vy Vy' Fy Fy' Hy). lia.
Qed.

Lemma leb_refl (x : float) : is_nan x = false -> leb x x = true.
Proof. intros H. apply leb_iff. repeat split; try assumption. right; reflexivity. Qed.

Lemma valid_zero (s : bool) : valid (S754_zero s) = true.
Proof. reflexivity. Qed.

(** Adding a non-positive number does not increase a float. *)
Lemma add_nonpos_le (x y : float) :
  valid x = true -> valid y = true -> leb y zero = true ->
  is_nan (add x y) = true \/ leb (add x y) x = true.
Proof.
  intros Vx Vy Hy.
  destruct (is_finite x) eqn:Fx; [destruct (is_finite y) eqn:Fy |].
  - right.
    pose proof (add_le_mono x x y zero Vx Vx Vy (valid_zero false) Fx Fx Fy
                  eq_refl) as H.
    assert (Nx : is_nan x = false) by (destruct x; try discriminate; reflexivity).
    specialize (H (leb_refl x Nx) Hy).
    apply leb_iff in H as (N1 & N2 & H). apply leb_iff. repeat split; try assumption.
    replace (key x) with (key (add x zero)); [exact H |].
    destruct x as [[|] | | | s m e]; try discriminate; reflexivity.
  - destruct y as [sy | [|] | | sy my ey]; try discriminate.
    right. destruct x as [sx | sx | | sx mx ex]; try discriminate; reflexivity.
  - destruct x as [sx | sx | | sx mx ex]; try discriminate.
    + destruct y as [sy | [|] | | [|] my ey]; try discriminate; destruct sx; auto.
    + left; reflexivity.
Qed.

(* ================================================================== *)
(** * Basic facts *)
(* ================================================================== *)


Lemma bind_ok_inv {A B : Type} (r : result A) (k : A -> result B) (b : B) :
  bind r k = Ok b -> exists a, r = Ok a /\ k a = Ok b.
Proof.
  destruct r as [a | e |]; simpl; intros H; try discriminate.
  exists a; split; [reflexivity | exact H].
Qed.

Lemma ltb_nan_l (x : float) : ltb nan x = false.
Proof. reflexivity. Qed.

Lemma ltb_pinf_l (x : float) : ltb pinf x = false.
Proof. destruct x as [s | [|] | | s m e]; reflexivity. Qed.

Lemma sub_nan_l (x : float) : sub nan x = nan.
Proof. reflexivity. Qed.

Lemma sub_pinf_l (x : float) : sub pinf x = pinf \/ sub pinf x = nan.
Proof. destruct x as [s | [|] | | s m e]; simpl; auto. Qed.

Lemma hit_no_return (offset dist d : float) : no_return d -> hit offset dist d = false.
Proof.
  intros [-> | ->]; unfold hit.
  - rewrite sub_nan_l. apply ltb_nan_l.
  - destruct (sub_pinf_l (abs offset)) as [-> | ->];
      [apply ltb_pinf_l | apply ltb_nan_l].
Qed.

Lemma py_getitem_nonneg {A : Type} (l : list A) (i : Z) (a : A) :
  0 <= i -> nth_error l (Z.to_nat i) = Some a -> py_getitem l i = Ok a.
Proof.
  intros Hi Hn. unfold py_getitem.
  assert (Hlt : (Z.to_nat i < length l)%nat)
    by (apply nth_error_Some; rewrite Hn; discriminate).
  destruct (Z.ltb_spec i 0) as [Hneg | _]; [lia |].
  destruct (Z.leb_spec 0 i) as [_ | Hneg]; [| lia].
  destruct (Z.ltb_spec i (Z.of_nat (length l))) as [_ | Hge]; [| lia].
  simpl. rewrite Hn. reflexivity.
Qed.

(** ** The heading-normalisation loops *)

Section Loops.

Context {M : Libm}.

Lemma wrap_up_exit (fuel : nat) (theta dtheta r : float) :
  wrap_up fuel theta dtheta = Ok r -> ltb (add theta r) two_pi = false.
Proof.
  revert dtheta. induction fuel as [| f IH]; intros dtheta; simpl.
  - discriminate.
  - destruct (ltb (add theta dtheta) two_pi) eqn:E.
    + apply IH.
    + intros H; injection H as <-. exact E.
Qed.

Lemma wrap_down_exit (fuel : nat) (theta dtheta r : float) :
  wrap_down fuel theta dtheta = Ok r -> ltb two_pi (add theta r) = false.
Proof.
  revert dtheta. induction fuel as [| f IH]; intros dtheta; simpl.
  - discriminate.
  - destruct (ltb two_pi (add theta dtheta)) eqn:E.
    + apply IH.
    + intros H; injection H as <-. exact E.
Qed.

(** The returned pose in terms of the three increments. *)
Lemma kinematic_model_step_inv (fuel : nat) (p : pose) (c : control)
    (car_length : float) (q : pose) :
  kinematic_model_step fuel p c car_length = Ok q ->
  exists dx dy dtheta d1 d2,
    kinematic_deltas (ptheta p) (cv c) (cdelta c) (cdt c) car_length
      = (dx, dy, dtheta) /\
    wrap_down fuel (ptheta p) dtheta = Ok d1 /\
    wrap_up fuel (ptheta p) d1 = Ok d2 /\
    q = Pose (add (px p) dx) (add (py p) dy) (add (ptheta p) d2).
Proof.
  unfold kinematic_model_step.
  destruct (kinematic_deltas _ _ _ _ _) as [[dx dy] dtheta].
  intros H.
  apply bind_ok_inv in H as (d1 & H1 & H).
  apply bind_ok_inv in H as (d2 & H2 & H).
  injection H as <-.
  exists dx, dy, dtheta, d1, d2. auto.
Qed.

(** Whatever the step returns has a heading that is not below [2*np.pi]:
    the second loop only exits there. *)
Lemma step_heading_not_below_two_pi (fuel : nat) (p : pose) (c : control)
    (car_length : float) (q : pose) :
  kinematic_model_step fuel p c car_length = Ok q ->
  ltb (ptheta q) two_pi = false.
Proof.
  intros H.
  apply kinematic_model_step_inv in H
    as (dx & dy & dtheta & d1 & d2 & _ & _ & H2 & ->).
  simpl. eapply wrap_up_exit; eassumption.
Qed.

(** The straight-line branch. *)
Lemma kinematic_deltas_straight (theta v delta dt car_length : float) :
  ltb (abs delta) lit_1e_2 = true ->
  kinematic_deltas theta v delta dt car_length
  = (mul (mul v (m_cos theta)) dt, mul (mul v (m_sin theta)) dt, zero).
Proof. intros H. unfold kinematic_deltas. rewrite H. reflexivity. Qed.

(** From the origin, driving straight: one test of the first loop and two
    of the second, and the heading comes back as [2*np.pi]. *)
Lemma step_origin_straight (f : nat) (v dt car_length : float) :
  kinematic_model_step (S (S f)) origin (Control v zero dt) car_length
  = Ok (Pose (add zero (mul (mul v (m_cos zero)) dt))
             (add zero (mul (mul v (m_sin zero)) dt))
             two_pi).
Proof.
  unfold kinematic_model_step.
  rewrite kinematic_deltas_straight by reflexivity.
  reflexivity.
Qed.

End Loops.

(** ** A heading the second loop cannot lift *)

Lemma ltb_nan_r (x y : float) : is_nan y = true -> ltb x y = false.
Proof.
  intros H. destruct y; try discriminate. destruct x as [s | s | | s m e]; reflexivity.
Qed.

Lemma leb_is_finite (lo x hi : float) :
  is_finite lo = true -> is_finite hi = true ->
  leb lo x = true -> leb x hi = true -> is_finite x = true.
Proof.
  intros Flo Fhi H1 H2.
  destruct x as [s | [|] | | s m e]; try reflexivity.
  - destruct lo as [sl | sl | | [|] ml el]; discriminate.
  - destruct hi as [sh | sh | | [|] mh eh]; discriminate.
  - destruct lo as [sl | sl | | sl ml el]; discriminate.
Qed.

Lemma lifted_finite (d : float) : lifted d -> is_finite d = true.
Proof.
  intros (_ & H1 & H2). apply (leb_is_finite two_pi d absorbing); auto.
Qed.

Lemma lifted_step (d : float) : lifted d -> lifted (add d two_pi).
Proof.
  intros H. pose proof (lifted_finite d H) as Fd. destruct H as (Vd & H1 & H2).
  assert (Hz : leb zero d = true) by (apply leb_trans with two_pi; auto).
  repeat split.
  - apply (add_key d two_pi); auto.
  - change two_pi with (add zero two_pi) at 1.
    apply add_le_mono; auto.
  - change absorbing with (add absorbing two_pi).
    apply add_le_mono; auto.
Qed.

Lemma lifted_test (d : float) : lifted d -> ltb (add far_heading d) two_pi = true.
Proof.
  intros H. pose proof (lifted_finite d H) as Fd. destruct H as (Vd & H1 & H2).
  apply leb_ltb_trans with (add far_heading absorbing); [| reflexivity].
  apply add_le_mono; auto.
Qed.

Lemma wrap_up_lifted (fuel : nat) (d : float) :
  lifted d -> wrap_up fuel far_heading d = OutOfFuel.
Proof.
  revert d. induction fuel as [| f IH]; intros d H; cbn [wrap_up].
  - reflexivity.
  - rewrite (lifted_test d H). apply IH. apply lifted_step. exact H.
Qed.

Lemma lifted_two_pi : lifted two_pi.
Proof. repeat split; reflexivity. Qed.

Lemma wrap_up_far_heading (fuel : nat) : wrap_up fuel far_heading zero = OutOfFuel.
Proof.
  destruct fuel as [| f]; [reflexivity |].
  change (wrap_up (S f) far_heading zero) with (wrap_up f far_heading two_pi).
  apply wrap_up_lifted. exact lifted_two_pi.
Qed.

Lemma iter_lifted (n : nat) : lifted (Nat.iter (S n) (fun d => add d two_pi) zero).
Proof.
  induction n as [| n IH].
  - exact lifted_two_pi.
  - rewrite Nat.iter_succ. apply lifted_step. exact IH.
Qed.

(** ** A deadline that is not in the future *)

Lemma deadline_passed (start ct t : float) :
  valid start = true -> valid ct = true ->
  leb ct zero = true -> leb start t = true ->
  ltb t (add start ct) = false.
Proof.
  intros Vs Vc Hc Ht.
  destruct (add_nonpos_le start ct Vs Vc Hc) as [N | L].
  - apply ltb_nan_r. exact N.
  - apply leb_not_ltb. apply leb_trans with start; assumption.
Qed.

(** ** Headings between 0 and [2*np.pi] *)

Lemma add_zero_r_key (x : float) :
  is_finite x = true -> is_nan (add x zero) = false /\ key (add x zero) = key x.
Proof.
  destruct x as [[|] | | | s m e]; try discriminate; intros _; split; reflexivity.
Qed.

Lemma ltb_key (x x' y y' : float) :
  is_nan x = is_nan x' -> key x = key x' ->
  is_nan y = is_nan y' -> key y = key y' -> ltb x y = ltb x' y'.
Proof.
  intros Nx Kx Ny Ky.
  apply eq_true_iff_eq. rewrite !ltb_iff, Nx, Kx, Ny, Ky. tauto.
Qed.

Lemma wrap_straight_total (theta : float) :
  valid theta = true -> leb zero theta = true -> leb theta two_pi = true ->
  forall f,
    wrap_down (S f) theta zero = Ok zero /\
    wrap_up (S (S f)) theta zero
    = Ok (if ltb theta two_pi then two_pi else zero).
Proof.
  intros Vt H0 H1 f.
  assert (Ft : is_finite theta = true)
    by (apply (leb_is_finite zero theta two_pi); auto).
  destruct (add_zero_r_key theta Ft) as (Nz & Kz).
  assert (Nt : is_nan theta = false) by (destruct theta; try discriminate; reflexivity).
  assert (E1 : ltb two_pi (add theta zero) = false).
  { rewrite (ltb_key two_pi two_pi (add theta zero) theta); try congruence.
    apply leb_not_ltb. exact H1. }
  assert (E2 : ltb (add theta zero) two_pi = ltb theta two_pi).
  { apply ltb_key; congruence. }
  split.
  - cbn [wrap_down]. rewrite E1. reflexivity.
  - cbn [wrap_up]. rewrite E2.
    destruct (ltb theta two_pi) eqn:E; [| reflexivity].
    change (add zero two_pi) with two_pi.
    assert (E3 : ltb (add theta two_pi) two_pi = false).
    { apply leb_not_ltb. change two_pi with (add zero two_pi) at 1.
      apply add_le_mono; auto. }
    rewrite E3. reflexivity.
Qed.

(** ** The cost evaluator *)
Section Cost.

Context {M : Libm}.

Lemma math_pow_2_one : math_pow_2 one = Ok one.
Proof. unfold math_pow_2. cbn [one]. rewrite pow_one. reflexivity. Qed.

Lemma math_pow_2_zero (s : bool) : math_pow_2 (S754_zero s) = Ok zero.
Proof. unfold math_pow_2. rewrite pow_zero_two. reflexivity. Qed.

Lemma penalize_hit (offset dist d cost : float) :
  penalize offset dist d cost
  = if hit offset dist d then add cost (of_Z MAX_PENALTY) else cost.
Proof. reflexivity. Qed.

(** With its three rays inside the scan, the evaluator returns a third of
    the steering magnitude plus the penalties. *)
Lemma compute_cost_in_range (offset delta : float) (p : pose) (scan : LaserScan)
    (i : Z) (d0 d1 d2 x2 y2 : float) :
  ray_index (m_atan2 (py p) (px p)) scan = Ok i ->
  0 <= i - 1 ->
  nth_error (ranges scan) (Z.to_nat i) = Some d0 ->
  nth_error (ranges scan) (Z.to_nat (i + 1)) = Some d1 ->
  nth_error (ranges scan) (Z.to_nat (i - 1)) = Some d2 ->
  math_pow_2 (px p) = Ok x2 -> math_pow_2 (py p) = Ok y2 ->
  compute_cost offset delta p scan
  = Ok (div (penalize offset (add x2 y2) d2
               (penalize offset (add x2 y2) d1
                  (penalize offset (add x2 y2) d0 (abs delta))))
            (of_Z 3)).
Proof.
  intros Hi Hlo H0 H1 H2 Hx Hy. unfold compute_cost.
  rewrite Hi. cbn [bind].
  rewrite (py_getitem_nonneg _ _ d0) by (assumption || lia). cbn [bind].
  rewrite (py_getitem_nonneg _ _ d1) by (assumption || lia). cbn [bind].
  rewrite (py_getitem_nonneg _ _ d2) by (assumption || lia). cbn [bind].
  rewrite Hx, Hy. reflexivity.
Qed.

Lemma penalize_count (offset dist d0 d1 d2 cost : float) :
  penalize offset dist d2 (penalize offset dist d1 (penalize offset dist d0 cost))
  = Nat.iter (Nat.b2n (hit offset dist d0) + Nat.b2n (hit offset dist d1)
              + Nat.b2n (hit offset dist d2))
             (fun c => add c (of_Z MAX_PENALTY)) cost.
Proof.
  rewrite !penalize_hit.
  destruct (hit offset dist d0), (hit offset dist d1), (hit offset dist d2);
    reflexivity.
Qed.

Lemma unit_pose_angle : m_atan2 (py unit_pose) (px unit_pose) = zero.
Proof. apply atan2_zero_pos. Qed.

(** The evaluator at a pose on the sensor axis, one unit ahead. *)
Lemma compute_cost_unit_pose (offset delta : float) (scan : LaserScan)
    (i : Z) (d0 d1 d2 : float) :
  ray_index zero scan = Ok i ->
  0 <= i - 1 ->
  nth_error (ranges scan) (Z.to_nat i) = Some d0 ->
  nth_error (ranges scan) (Z.to_nat (i + 1)) = Some d1 ->
  nth_error (ranges scan) (Z.to_nat (i - 1)) = Some d2 ->
  compute_cost offset delta unit_pose scan
  = Ok (div (penalize offset one d2
               (penalize offset one d1 (penalize offset one d0 (abs delta))))
            (of_Z 3)).
Proof.
  intros Hi Hlo H0 H1 H2.
  rewrite (compute_cost_in_range offset delta unit_pose scan i d0 d1 d2 one zero);
    try assumption.
  - reflexivity.
  - rewrite unit_pose_angle. exact Hi.
  - apply math_pow_2_one.
  - apply (math_pow_2_zero false).
Qed.

End Cost.

(** C1 (counterexample).  One unit ahead of the sensor, under a scan
    whose three samples are NaN, the steering angle 3.0 costs 1.0: a third
    of its magnitude, not the magnitude. *)
Lemma cost_of_silent_scan :
  (Forall no_return (ranges silent_scan)) /\
  (forall M : Libm,
      @compute_cost M one (of_Z 3) unit_pose silent_scan = Ok one) /\
  abs (of_Z 3) = S754_finite false 6755399441055744 (-51) /\
  eqb one (abs (of_Z 3)) = false.
Proof.
  split; [| split; [| split; reflexivity]].
  - repeat constructor; left; reflexivity.
  - intros M.
    rewrite (compute_cost_unit_pose one (of_Z 3) silent_scan 1 nan nan nan);
      try reflexivity; lia.
Qed.

(** C1 (amended).  When the ray index [i] of the pose's bearing and its two
    neighbours [i + 1] and [i - 1] lie inside the scan, and the two squares
    do not overflow, [compute_cost] returns a third of the whole sum,
    [(|delta| + k * MAX_PENALTY) / 3]: [k] counts the sampled rays whose
    shortened measurement the squared distance exceeds, and the penalties
    are added one at a time.  For three samples without return that is
    [|delta| / 3]; with all three rays penalized it is
    [(((|delta| + P) + P) + P) / 3]. *)
Theorem compute_cost_three_rays (M : Libm) (offset delta : float) (p : pose)
    (scan : LaserScan) (i : Z) (d0 d1 d2 x2 y2 : float) :
  ray_index (m_atan2 (py p) (px p)) scan = Ok i ->
  0 <= i - 1 ->
  nth_error (ranges scan) (Z.to_nat i) = Some d0 ->
  nth_error (ranges scan) (Z.to_nat (i + 1)) = Some d1 ->
  nth_error (ranges scan) (Z.to_nat (i - 1)) = Some d2 ->
  math_pow_2 (px p) = Ok x2 -> math_pow_2 (py p) = Ok y2 ->
  let P := of_Z MAX_PENALTY in
  let dist := add x2 y2 in
  let k := (Nat.b2n (hit offset dist d0) + Nat.b2n (hit offset dist d1)
            + Nat.b2n (hit offset dist d2))%nat in
  compute_cost offset delta p scan
  = Ok (div (Nat.iter k (fun c => add c P) (abs delta)) (of_Z 3))
  /\ (no_return d0 -> no_return d1 -> no_return d2 ->
      compute_cost offset delta p scan = Ok (div (abs delta) (of_Z 3)))
  /\ (hit offset dist d0 = true -> hit offset dist d1 = true ->
      hit offset dist d2 = true ->
      compute_cost offset delta p scan
      = Ok (div (add (add (add (abs delta) P) P) P) (of_Z 3))).
Proof.
  intros Hi Hlo H0 H1 H2 Hx Hy P dist k.
  rewrite (compute_cost_in_range offset delta p scan i d0 d1 d2 x2 y2) by assumption.
  rewrite penalize_count. fold dist. fold k. fold P.
  split; [reflexivity | split].
  - intros N0 N1 N2. subst k.
    rewrite !hit_no_return by assumption. reflexivity.
  - intros E0 E1 E2. subst k. rewrite E0, E1, E2. reflexivity.
Qed.

(** The theorem at a scan whose samples report no return. *)
Lemma compute_cost_three_rays_witness :
  @compute_cost special_libm one (of_Z 3) unit_pose (scan3 nan pinf nan)
  = Ok (div (abs (of_Z 3)) (of_Z 3)).
Proof.
  refine (proj1 (proj2 (@compute_cost_three_rays special_libm one (of_Z 3) unit_pose
            (scan3 nan pinf nan) 1 pinf nan nan one zero
            eq_refl _ eq_refl eq_refl eq_refl eq_refl eq_refl)) _ _ _).
  - lia.
  - right; reflexivity.
  - left; reflexivity.
  - left; reflexivity.
Defined.

(** C3 (the code at two failing inputs).  With the bearing on the last
    ray of a scan of two rays, the lookup of ray [idx + 1] raises
    [IndexError] and the exception leaves [compute_cost].  With the bearing
    on the first ray of a scan of three rays, ray [idx - 1 = -1] is read
    from the other end of the scan and its measurement is penalized. *)
Theorem rays_outside_the_scan (M : Libm) :
  ray_index (m_atan2 (py unit_pose) (px unit_pose)) short_scan = Ok 1 /\
  length (ranges short_scan) = 2%nat /\
  compute_cost one (of_Z 3) unit_pose short_scan = Raise IndexError
  /\
  ray_index (m_atan2 (py unit_pose) (px unit_pose)) edge_scan = Ok 0 /\
  compute_cost one (of_Z 3) unit_pose edge_scan
  = Ok (div (add (abs (of_Z 3)) (of_Z MAX_PENALTY)) (of_Z 3)).
Proof.
  rewrite unit_pose_angle. repeat split.
  - unfold compute_cost. rewrite unit_pose_angle. reflexivity.
  - unfold compute_cost. rewrite unit_pose_angle.
    cbn [unit_pose px py]. rewrite math_pow_2_one, (math_pow_2_zero false).
    reflexivity.
Qed.

Section Kinematics.

Context {M : Libm}.

Lemma step_straight_returns (p : pose) (c : control) (car_length : float) :
  ltb (abs (cdelta c)) lit_1e_2 = true ->
  valid (ptheta p) = true ->
  leb zero (ptheta p) = true -> leb (ptheta p) two_pi = true ->
  forall f,
    kinematic_model_step (S (S f)) p c car_length
    = Ok (Pose (add (px p) (mul (mul (cv c) (m_cos (ptheta p))) (cdt c)))
               (add (py p) (mul (mul (cv c) (m_sin (ptheta p))) (cdt c)))
               (add (ptheta p) (if ltb (ptheta p) two_pi then two_pi else zero))).
Proof.
  intros Hd Vt H0 H1 f. unfold kinematic_model_step.
  rewrite kinematic_deltas_straight by exact Hd.
  destruct (wrap_straight_total (ptheta p) Vt H0 H1 (S f)) as (E1 & _).
  destruct (wrap_straight_total (ptheta p) Vt H0 H1 f) as (_ & E2).
  rewrite E1. cbn [bind]. rewrite E2. reflexivity.
Qed.

Lemma step_far_heading (fuel : nat) (c : control) (car_length : float) (x y : float) :
  ltb (abs (cdelta c)) lit_1e_2 = true ->
  kinematic_model_step fuel (Pose x y far_heading) c car_length = OutOfFuel.
Proof.
  intros Hd. unfold kinematic_model_step.
  rewrite kinematic_deltas_straight by exact Hd. cbn [ptheta].
  destruct fuel as [| f]; [reflexivity |].
  change (wrap_down (S f) far_heading zero) with (@Ok float zero).
  cbn [bind]. rewrite wrap_up_far_heading. reflexivity.
Qed.

End Kinematics.

(** C2 (the code at a failing input).  From the origin, driving straight
    at 1 m/s for 0.01 s, the step returns the pose (0.01, 0, [2*np.pi]):
    the heading is not below [2*np.pi], so it is outside [0, 2 pi), and it
    is not at most [np.pi], so it is outside (-pi, pi]. *)
Theorem step_heading_at_origin (M : Libm) (f : nat) :
  kinematic_model_step (S (S f)) origin straight_control default_car_length
  = Ok (Pose lit_1e_2 zero two_pi) /\
  ltb two_pi two_pi = false /\
  leb two_pi np_pi = false.
Proof.
  split; [| split; reflexivity].
  unfold straight_control. rewrite step_origin_straight.
  rewrite (cos_zero false), (sin_zero false). reflexivity.
Qed.

(** C4 (the code at a failing input).  A steering angle of 0 is below the
    threshold, and the step from the origin returns a heading of [2*np.pi], which is
    not the heading 0 it was given. *)
Lemma straight_step_moves_heading :
  ltb (abs (cdelta straight_control)) lit_1e_2 = true /\
  (forall (M : Libm) (f : nat),
      exists q,
        kinematic_model_step (S (S f)) origin straight_control default_car_length
        = Ok q /\
        ptheta q = two_pi /\
        eqb (ptheta q) (ptheta origin) = false).
Proof.
  split; [reflexivity |]. intros M f.
  eexists. split; [apply step_origin_straight |]. split; reflexivity.
Qed.

(** C9.  There are a finite pose, whose heading [-1e30] is below [2*np.pi],
    and a finite control for which the condition of the second loop holds
    before every iteration: the first loop exits at once, the second
    exhausts any fuel, and so does the step. *)
Theorem step_not_total :
  exists (p : pose) (c : control) (car_length : float),
    is_finite (px p) = true /\ is_finite (py p) = true /\
    is_finite (ptheta p) = true /\ valid (ptheta p) = true /\
    is_finite (cv c) = true /\ is_finite (cdelta c) = true /\
    is_finite (cdt c) = true /\ is_finite car_length = true /\
    ltb (ptheta p) two_pi = true /\
    (forall n,
        ltb (add (ptheta p) (Nat.iter n (fun d => add d two_pi) zero)) two_pi
        = true) /\
    (forall (M : Libm) (fuel : nat),
        wrap_down (S fuel) (ptheta p) zero = Ok zero /\
        wrap_up fuel (ptheta p) zero = OutOfFuel /\
        kinematic_model_step fuel p c car_length = OutOfFuel).
Proof.
  exists (Pose zero zero far_heading), straight_control, default_car_length.
  repeat split; try reflexivity.
  - intros [| n]; [reflexivity |]. apply lifted_test. apply iter_lifted.
  - apply wrap_up_far_heading.
  - apply step_far_heading. reflexivity.
Qed.

(** ** Differences and quotients: signs *)
Lemma valid_negate (s s' : bool) (m : positive) (e : Z) :
  valid (S754_finite s m e) = true -> valid (S754_finite s' m e) = true.
Proof. intros H; exact H. Qed.

Lemma sub_finite_radd (sx : bool) (mx : positive) (ex : Z)
    (sy : bool) (my : positive) (ey : Z) :
  emin <= ex -> emin <= ey ->
  sub (S754_finite sx mx ex) (S754_finite sy my ey)
  = radd (Zval (S754_finite sx mx ex) - Zval (S754_finite sy my ey)).
Proof.
  intros Hx Hy. unfold sub, SFsub.
  set (ez := Z.min ex ey).
  assert (Hz : emin <= ez) by (unfold ez; lia).
  rewrite binary_normalize_radd by exact Hz.
  f_equal. rewrite Z.mul_sub_distr_r.
  pose proof (shl_align_fst mx ex ez ltac:(unfold ez; lia)) as Ex.
  pose proof (shl_align_fst my ey ez ltac:(unfold ez; lia)) as Ey.
  unfold Zval, signed_mantissa.
  replace (2 ^ (ex - emin)) with (2 ^ (ex - ez) * 2 ^ (ez - emin))
    by (rewrite <- Z.pow_add_r by lia; f_equal; lia).
  replace (2 ^ (ey - emin)) with (2 ^ (ey - ez) * 2 ^ (ez - emin))
    by (rewrite <- Z.pow_add_r by lia; f_equal; lia).
  f_equal.
  - destruct sx; unfold cond_Zopp; rewrite Ex; [rewrite <- Pos2Z.opp_pos |]; ring.
  - destruct sy; unfold cond_Zopp; rewrite Ey; [rewrite <- Pos2Z.opp_pos |]; ring.
Qed.

Lemma sub_key (x y : float) :
  valid x = true -> valid y = true -> is_finite x = true -> is_finite y = true ->
  is_nan (sub x y) = false /\ key (sub x y) = key (radd (Zval x - Zval y)).
Proof.
  intros Vx Vy Fx Fy.
  destruct x as [sx | sx | | sx mx ex], y as [sy | sy | | sy my ey]; try discriminate.
  - destruct sx, sy; split; reflexivity.
  - change (sub (S754_zero sx) (S754_finite sy my ey))
      with (S754_finite (negb sy) my ey).
    replace (Zval (S754_zero sx) - Zval (S754_finite sy my ey))
      with (Zval (S754_finite (negb sy) my ey)).
    2:{ unfold Zval, signed_mantissa. destruct sy; simpl negb; cbv iota; lia. }
    rewrite radd_Zval by (eauto using valid_negate). auto.
  - change (sub (S754_finite sx mx ex) (S754_zero sy)) with (S754_finite sx mx ex).
    simpl (Zval (S754_zero sy)). rewrite Z.sub_0_r.
    rewrite radd_Zval by eauto. auto.
  - pose proof (valid_finite_inv _ _ _ Vx) as ((Hx & _) & _).
    pose proof (valid_finite_inv _ _ _ Vy) as ((Hy & _) & _).
    rewrite sub_finite_radd by assumption.
    split; [apply radd_not_nan | reflexivity].
Qed.


Lemma shr_1_m_nonneg (mrs : shr_record) : 0 <= shr_m mrs -> 0 <= shr_m (shr_1 mrs).
Proof.
  destruct mrs as [m r s]. cbn [shr_m]. intros H.
  rewrite shr_1_nonneg by exact H. cbn [shr_m]. apply Z.div_pos; lia.
Qed.

Lemma shr_m_nonneg (mrs : shr_record) (e n : Z) :
  0 <= shr_m mrs -> 0 <= shr_m (fst (shr mrs e n)).
Proof.
  intros H. destruct n as [| p | p]; cbn [shr fst]; try exact H.
  rewrite iter_pos_nat. induction (Pos.to_nat p) as [| k IH]; [exact H |].
  rewrite Nat.iter_succ. apply shr_1_m_nonneg. exact IH.
Qed.

Lemma shr_record_of_loc_m (m : Z) (l : location) : shr_m (shr_record_of_loc m l) = m.
Proof. destruct l as [| [| |]]; reflexivity. Qed.

Lemma round_nearest_even_nonneg (m : Z) (l : location) :
  0 <= m -> 0 <= round_nearest_even m l.
Proof.
  intros H. destruct l as [| [| |]]; cbn [round_nearest_even]; try lia.
  destruct (Z.even m); lia.
Qed.

(** Rounding keeps the sign it is given. *)
Lemma binary_round_aux_sign (s : bool) (m e : Z) (l : location) :
  0 <= m -> sign_is s (binary_round_aux prec emax s m e l).
Proof.
  intros Hm. unfold binary_round_aux, shr_fexp.
  pose proof (shr_m_nonneg (shr_record_of_loc m l) e
                (fexp prec emax (Zdigits2 m + e) - e)) as H1.
  rewrite shr_record_of_loc_m in H1. specialize (H1 Hm).
  destruct (shr (shr_record_of_loc m l) e _) as [mrs' e'].
  cbn [fst] in H1.
  set (m1 := round_nearest_even (shr_m mrs') (loc_of_shr_record mrs')).
  assert (Hm1 : 0 <= m1) by (apply round_nearest_even_nonneg; exact H1).
  pose proof (shr_m_nonneg (shr_record_of_loc m1 loc_Exact) e'
                (fexp prec emax (Zdigits2 m1 + e') - e')) as H2.
  rewrite shr_record_of_loc_m in H2. specialize (H2 Hm1).
  destruct (shr (shr_record_of_loc m1 loc_Exact) e' _) as [mrs'' e''].
  cbn [fst] in H2.
  destruct (shr_m mrs'') as [| q | q]; try lia; [reflexivity |].
  destruct (e'' <=? emax - prec); reflexivity.
Qed.

Lemma div_sign (sx : bool) (mx : positive) (ex : Z) (my : positive) (ey : Z) :
  sign_is sx (div (S754_finite sx mx ex) (S754_finite false my ey)).
Proof.
  unfold div, SFdiv, SFdiv_core_binary.
  set (m' := match _ - _ - _ with Z.pos _ => _ | Z0 => _ | Z.neg _ => _ end).
  assert (Hm' : 0 <= m').
  { unfold m'. destruct (_ - _ - _); try lia. apply Z.shiftl_nonneg. lia. }
  pose proof (Z.div_pos m' (Z.pos my) Hm' ltac:(lia)) as Hq.
  unfold Z.div in Hq. destruct (Z.div_eucl m' (Z.pos my)) as [q r]. cbn [fst] in Hq.
  rewrite xorb_false_r. apply binary_round_aux_sign. exact Hq.
Qed.




(** ** Arrays *)
Lemma bind_ret {A : Type} (r : result A) : bind r (fun a => Ok a) = r.
Proof. destruct r; reflexivity. Qed.

Lemma bind_assoc {A B C : Type} (r : result A) (f : A -> result B) (g : B -> result C) :
  bind (bind r f) g = bind r (fun a => bind (f a) g).
Proof. destruct r; reflexivity. Qed.

Lemma np_setitem_spec {A : Type} (l : list A) (i : nat) (v : A) :
  (i < length l)%nat -> np_setitem l i v = Ok (firstn i l ++ v :: skipn (S i) l).
Proof.
  revert i. induction l as [| h t IH]; intros i Hi; simpl in Hi; [lia |].
  destruct i as [| j]; [reflexivity |].
  cbn [np_setitem]. rewrite IH by lia. reflexivity.
Qed.

Lemma np_getitem_skipn {A : Type} (l : list A) (i : nat) :
  (i < length l)%nat ->
  exists a, np_getitem l i = Ok a /\ skipn i l = a :: skipn (S i) l.
Proof.
  revert i. induction l as [| h t IH]; intros i Hi; simpl in Hi; [lia |].
  destruct i as [| j].
  - exists h. split; reflexivity.
  - destruct (IH j ltac:(lia)) as (a & E1 & E2). exists a. split; [exact E1 | exact E2].
Qed.

(** Writing slot [i] and then reading the array around it. *)
Lemma firstn_S_set {A : Type} (l : list A) (i : nat) (v : A) :
  (i < length l)%nat ->
  firstn (S i) (firstn i l ++ v :: skipn (S i) l) = firstn i l ++ [v].
Proof.
  intros Hi.
  assert (Hl : length (firstn i l) = i) by (rewrite length_firstn; lia).
  rewrite firstn_app, Hl.
  replace (S i - i)%nat with 1%nat by lia.
  rewrite firstn_all2 by lia. reflexivity.
Qed.

Lemma skipn_set {A : Type} (l : list A) (i k : nat) (v : A) :
  (i < length l)%nat ->
  skipn (S i + k) (firstn i l ++ v :: skipn (S i) l) = skipn (i + S k) l.
Proof.
  intros Hi.
  assert (Hl : length (firstn i l) = i) by (rewrite length_firstn; lia).
  rewrite skipn_app, Hl.
  rewrite (skipn_all2 (firstn i l)) by lia.
  replace (S i + k - i)%nat with (S k) by lia.
  change (skipn (S k) (v :: skipn (S i) l)) with (skipn k (skipn (S i) l)).
  cbn [app]. rewrite skipn_skipn. f_equal. lia.
Qed.

Lemma length_set {A : Type} (l : list A) (i : nat) (v : A) :
  (i < length l)%nat -> length (firstn i l ++ v :: skipn (S i) l) = length l.
Proof.
  intros Hi. rewrite length_app, length_firstn. cbn [length].
  rewrite length_skipn. lia.
Qed.

Section Generation.

Context {M : Libm}.

Lemma rollout_loop_spec (fuel : nat) (car_length : float) (c : control) (n : nat) :
  forall (i : nat) (traj : list pose) (cur : pose),
    (i + n <= length traj)%nat ->
    rollout_loop fuel car_length (repeat c n) i traj cur
    = (qs <- trajectory fuel n cur c car_length ;;
       Ok (firstn i traj ++ qs ++ skipn (i + n) traj)).
Proof.
  induction n as [| k IH]; intros i traj cur Hlen.
  - cbn [repeat rollout_loop trajectory bind app].
    rewrite Nat.add_0_r, firstn_skipn. reflexivity.
  - cbn [repeat rollout_loop trajectory].
    destruct (kinematic_model_step fuel cur c car_length) as [q | e |];
      cbn [bind]; try reflexivity.
    rewrite np_setitem_spec by lia. cbn [bind].
    rewrite IH by (rewrite length_set; lia).
    rewrite firstn_S_set, skipn_set by lia.
    destruct (trajectory fuel k q c car_length) as [rest | e |];
      cbn [bind]; try reflexivity.
    rewrite <- app_assoc. reflexivity.
Qed.

Lemma generate_rollout_spec (fuel : nat) (init_pose : pose) (c : control)
    (car_length : float) (T : nat) :
  generate_rollout fuel init_pose (repeat c T) car_length T
  = trajectory fuel T origin c car_length.
Proof.
  unfold generate_rollout.
  rewrite rollout_loop_spec by (rewrite repeat_length; lia).
  destruct (trajectory fuel T origin c car_length) as [qs | e |];
    cbn [bind]; try reflexivity.
  cbn [firstn app]. rewrite skipn_all2 by (rewrite repeat_length; lia).
  rewrite app_nil_r. reflexivity.
Qed.

Lemma mpc_loop_spec (fuel : nat) (spd dt car_length : float) (T : nat)
    (dlts : list float) (n : nat) :
  forall (lo : nat) (table : list (list pose)),
    (lo + n <= length dlts)%nat -> (lo + n <= length table)%nat ->
    mpc_loop fuel spd dt car_length T dlts (seq lo n) table
    = (rs <- rollouts_of fuel spd dt car_length T (firstn n (skipn lo dlts)) ;;
       Ok (firstn lo table ++ rs ++ skipn (lo + n) table)).
Proof.
  induction n as [| k IH]; intros lo table Hd Ht.
  - cbn [seq mpc_loop firstn rollouts_of bind app].
    rewrite Nat.add_0_r, firstn_skipn. reflexivity.
  - cbn [seq mpc_loop].
    destruct (np_getitem_skipn dlts lo ltac:(lia)) as (d & -> & Es).
    rewrite Es. cbn [bind firstn rollouts_of].
    rewrite generate_rollout_spec.
    destruct (trajectory fuel T origin (Control spd d dt) car_length)
      as [row | e |]; cbn [bind]; try reflexivity.
    rewrite np_setitem_spec by lia. cbn [bind].
    rewrite IH by (rewrite ?length_set; lia).
    rewrite firstn_S_set, skipn_set by lia.
    destruct (rollouts_of fuel spd dt car_length T (firstn k (skipn (S lo) dlts)))
      as [more | e |]; cbn [bind]; try reflexivity.
    rewrite <- app_assoc. reflexivity.
Qed.

(** Generation is [np.arange] followed by one trajectory per candidate. *)
Lemma generate_mpc_rollouts_spec (fuel : nat)
    (spd min_delta max_delta delta_incr dt : float) (T : nat) (car_length : float) :
  generate_mpc_rollouts fuel spd min_delta max_delta delta_incr dt T car_length
  = (dlts <- np_arange min_delta max_delta delta_incr ;;
     table <- rollouts_of fuel spd dt car_length T dlts ;;
     Ok ({| shape1 := T; rows := table |}, dlts)).
Proof.
  unfold generate_mpc_rollouts.
  destruct (np_arange min_delta max_delta delta_incr) as [dlts | e |];
    cbn [bind]; try reflexivity.
  rewrite mpc_loop_spec by (rewrite ?repeat_length; lia).
  cbn [skipn]. rewrite firstn_all.
  destruct (rollouts_of fuel spd dt car_length T dlts) as [rs | e |];
    cbn [bind]; try reflexivity.
  cbn [firstn app]. rewrite skipn_all2 by (rewrite repeat_length; lia).
  rewrite app_nil_r. reflexivity.
Qed.

Lemma trajectory_length (fuel n : nat) (c : control) (car_length : float) :
  forall (p : pose) (qs : list pose),
    trajectory fuel n p c car_length = Ok qs -> length qs = n.
Proof.
  induction n as [| k IH]; intros p qs H; cbn [trajectory] in H.
  - injection H as <-. reflexivity.
  - apply bind_ok_inv in H as (q & _ & H).
    apply bind_ok_inv in H as (rest & Hr & H).
    injection H as <-. cbn [length]. f_equal. eapply IH; eassumption.
Qed.


Lemma trajectory_total (fuel n : nat) (c : control) (car_length : float) :
  forall p : pose,
    (forall t, (t < n)%nat -> exists q, step_n fuel (S t) p c car_length = Ok q) ->
    exists qs, trajectory fuel n p c car_length = Ok qs.
Proof.
  induction n as [| k IH]; intros p H.
  - exists []. reflexivity.
  - destruct (H 0%nat ltac:(lia)) as (q0 & H0). cbn [step_n] in H0.
    destruct (kinematic_model_step fuel p c car_length) as [q | e |] eqn:Eq;
      try discriminate.
    destruct (IH q) as (rest & Hr).
    { intros t Ht. destruct (H (S t) ltac:(lia)) as (q' & H').
      cbn [step_n] in H'. rewrite Eq in H'. cbn [bind] in H'.
      exists q'. exact H'. }
    exists (q :: rest). cbn [trajectory]. rewrite Eq. cbn [bind].
    rewrite Hr. reflexivity.
Qed.



End Generation.


Section StraightRollouts.

Context {M : Libm}.



End StraightRollouts.





(** ** The search loop *)
Section Search.

Context {M : Libm}.

Lemma search_loop_spec (lw : LaserWanderer) (msg : LaserScan) (start : float)
    (k : nat) :
  forall (fuel : nat) (costs : list float) (w : world),
    (forall j, (j < k)%nat ->
       ltb (clock w (tick w + j)) (add start (compute_time lw)) = true) ->
    ltb (clock w (tick w + k)) (add start (compute_time lw)) = false ->
    (k < fuel)%nat ->
    exists w',
      search_loop fuel lw msg start costs w = (sweeps k lw msg costs, w') /\
      clock w' = clock w /\ cmd_pub w' = cmd_pub w /\
      (forall c, sweeps k lw msg costs = Ok c -> tick w' = (tick w + S k)%nat).
Proof.
  induction k as [| k IH]; intros fuel costs w Hin Hout Hfuel;
    (destruct fuel as [| f]; [lia |]); cbn [search_loop now].
  - rewrite Nat.add_0_r in Hout. rewrite Hout.
    eexists. split; [reflexivity |]. cbn [clock cmd_pub tick].
    repeat split. intros _ _. lia.
  - pose proof (Hin 0%nat ltac:(lia)) as H0. rewrite Nat.add_0_r in H0. rewrite H0.
    cbn [sweeps].
    destruct (sweep lw msg costs) as [costs' | e |]; cbn [bind].
    + set (w1 := {| clock := clock w; tick := S (tick w); cmd_pub := cmd_pub w |}).
      destruct (IH f costs' w1) as (w' & E & Hc & Hp & Ht).
      * intros j Hj. cbn [clock tick w1].
        replace (S (tick w) + j)%nat with (tick w + S j)%nat by lia.
        apply Hin. lia.
      * cbn [clock tick w1].
        replace (S (tick w) + k)%nat with (tick w + S k)%nat by lia. exact Hout.
      * lia.
      * exists w'. split; [exact E |]. repeat split; try assumption.
        intros c Hc'. rewrite (Ht c Hc'). cbn [tick w1]. lia.
    + eexists. split; [reflexivity |]. cbn [clock cmd_pub].
      repeat split. intros c Hc; discriminate.
    + eexists. split; [reflexivity |]. cbn [clock cmd_pub].
      repeat split. intros c Hc; discriminate.
Qed.

Lemma search_loop_allowed (lw : LaserWanderer) (msg : LaserScan) (k fuel : nat)
    (costs : list float) (w : world) :
  sweeps_allowed k lw w -> (k < fuel)%nat ->
  exists w',
    search_loop fuel lw msg (fst (now w)) costs (snd (now w))
    = (sweeps k lw msg costs, w') /\
    clock w' = clock w /\ cmd_pub w' = cmd_pub w /\
    (forall c, sweeps k lw msg costs = Ok c -> tick w' = (tick w + k + 2)%nat).
Proof.
  intros (Hin & Hout) Hfuel. unfold deadline in *.
  destruct (search_loop_spec lw msg (fst (now w)) k fuel costs (snd (now w)))
    as (w' & E & Hc & Hp & Ht); cbn [now fst snd clock tick] in *; try assumption.
  exists w'. split; [exact E |]. repeat split; try assumption.
  intros c Hc'. rewrite (Ht c Hc'). lia.
Qed.

(** A cycle whose sweeps and selection succeed publishes the selected
    steering angle. *)
Lemma wander_cb_ok (lw : LaserWanderer) (msg : LaserScan) (k fuel : nat) (w : world)
    (costs : list float) (i : nat) (d : float) :
  sweeps_allowed k lw w -> (k < fuel)%nat ->
  sweeps k lw msg (repeat zero (length (deltas lw))) = Ok costs ->
  np_argmin costs = Ok i ->
  nth_error (deltas lw) i = Some d ->
  wander_cb fuel lw msg w
  = (Ok tt,
     world_after k {| stamp := clock w (tick w + k + 2);
                      steering_angle := d; drive_speed := speed lw |} w).
Proof.
  intros Ha Hfuel Hs Hmin Hd. unfold wander_cb.
  destruct (search_loop_allowed lw msg k fuel (repeat zero (length (deltas lw))) w
              Ha Hfuel) as (w' & E & Hc & Hp & Ht).
  change (now w) with (fst (now w), snd (now w)). cbv iota.
  rewrite E, Hs, Hmin. unfold np_getitem. rewrite Hd.
  unfold now, publish, world_after. cbn [clock tick cmd_pub].
  rewrite Hc, Hp, (Ht costs Hs). f_equal. f_equal. lia.
Qed.

(** A cycle whose selection raises publishes nothing. *)
Lemma wander_cb_argmin_raises (lw : LaserWanderer) (msg : LaserScan) (k fuel : nat)
    (w : world) (costs : list float) (e : pyerr) :
  sweeps_allowed k lw w -> (k < fuel)%nat ->
  sweeps k lw msg (repeat zero (length (deltas lw))) = Ok costs ->
  np_argmin costs = Raise e ->
  exists w', wander_cb fuel lw msg w = (Raise e, w') /\
             clock w' = clock w /\ cmd_pub w' = cmd_pub w.
Proof.
  intros Ha Hfuel Hs Hmin. unfold wander_cb.
  destruct (search_loop_allowed lw msg k fuel (repeat zero (length (deltas lw))) w
              Ha Hfuel) as (w' & E & Hc & Hp & Ht).
  change (now w) with (fst (now w), snd (now w)). cbv iota.
  rewrite E, Hs, Hmin. exists w'. auto.
Qed.

Lemma sweeps_no_candidates (lw : LaserWanderer) (msg : LaserScan) (k : nat) :
  deltas lw = [] -> sweeps k lw msg [] = Ok [].
Proof.
  intros Hd. induction k as [| k IH]; [reflexivity |].
  cbn [sweeps]. unfold sweep. rewrite Hd. cbn [length seq sweep_loop bind].
  exact IH.
Qed.

End Search.

Lemma argmin_scan_const (mp : float) (ind i n : nat) :
  leb mp mp = true -> argmin_scan mp ind i (repeat mp n) = ind.
Proof.
  intros H. revert i. induction n as [| n IH]; intros i; [reflexivity |].
  cbn [repeat argmin_scan]. rewrite H. apply IH.
Qed.

Lemma np_argmin_zeros (n : nat) : np_argmin (repeat zero (S n)) = Ok 0%nat.
Proof.
  cbn [repeat np_argmin is_nan zero]. rewrite argmin_scan_const; reflexivity.
Qed.

(** C10 (amended).  With at least one candidate, if the budget is not
    positive and the clock does not run backwards, or if the reading taken by
    the first test of the loop is not before the deadline, no sweep is made,
    every accumulator is still 0 when the loop exits, and the command that
    is published carries the first candidate, whatever the scan. *)
Theorem zero_sweeps (M : Libm) (lw : LaserWanderer) (msg : LaserScan) (w : world)
    (fuel : nat) (d0 : float) (rest : list float) :
  deltas lw = d0 :: rest ->
  (valid (clock w (tick w)) = true /\ valid (compute_time lw) = true /\
   leb (compute_time lw) zero = true /\
   leb (clock w (tick w)) (clock w (S (tick w))) = true)
  \/ ltb (clock w (S (tick w))) (deadline lw w) = false ->
  sweeps_allowed 0 lw w /\
  fst (search_loop (S fuel) lw msg (fst (now w))
         (repeat zero (length (deltas lw))) (snd (now w)))
  = Ok (repeat zero (length (deltas lw))) /\
  wander_cb (S fuel) lw msg w
  = (Ok tt,
     world_after 0 {| stamp := clock w (tick w + 2);
                      steering_angle := d0; drive_speed := speed lw |} w).
Proof.
  intros Hd Hpast.
  assert (Ha : sweeps_allowed 0 lw w).
  { split; [intros j Hj; lia |]. rewrite Nat.add_0_r.
    destruct Hpast as [(Vs & Vc & Hc & Hm) | H]; [| exact H].
    unfold deadline. apply deadline_passed; assumption. }
  split; [exact Ha | split].
  - destruct (search_loop_allowed lw msg 0 (S fuel)
                (repeat zero (length (deltas lw))) w Ha ltac:(lia))
      as (w' & E & _). rewrite E. reflexivity.
  - replace (tick w + 2)%nat with (tick w + 0 + 2)%nat by lia.
    apply wander_cb_ok with (costs := repeat zero (length (deltas lw))) (i := 0%nat).
    + exact Ha.
    + lia.
    + reflexivity.
    + rewrite Hd. apply np_argmin_zeros.
    + rewrite Hd. reflexivity.
Qed.

(** The theorem for a budget of [-0.09 s]. *)
Lemma zero_sweeps_witness :
  sweeps_allowed 0 hurried_wanderer initial_world /\
  fst (@search_loop special_libm 1 hurried_wanderer silent_scan
         (fst (now initial_world))
         (repeat zero (length (deltas hurried_wanderer))) (snd (now initial_world)))
  = Ok (repeat zero (length (deltas hurried_wanderer))) /\
  @wander_cb special_libm 1 hurried_wanderer silent_scan initial_world
  = (Ok tt,
     world_after 0 {| stamp := clock initial_world (tick initial_world + 2);
                      steering_angle := S754_finite true 6665327448508335 (-54);
                      drive_speed := speed hurried_wanderer |} initial_world).
Proof.
  apply (@zero_sweeps special_libm hurried_wanderer silent_scan initial_world 0
           (S754_finite true 6665327448508335 (-54))
           [S754_finite false 6665327448508334 (-54)]).
  - reflexivity.
  - left. repeat split; reflexivity.
Defined.

(** ** Order: totality *)
Lemma lex_total (a b : Z * Z * Z) : lex_le a b \/ lex_lt b a.
Proof.
  destruct a as [[a1 a2] a3], b as [[b1 b2] b3]. unfold lex_le, lex_lt.
  destruct (Z.eq_dec a1 b1), (Z.eq_dec a2 b2), (Z.eq_dec a3 b3);
    try (subst; right; reflexivity); try (left; right; congruence).
  all: destruct (Z_lt_le_dec a1 b1), (Z_lt_le_dec a2 b2), (Z_lt_le_dec a3 b3);
    try (left; left; lia); right; lia.
Qed.

Lemma leb_false_ltb (x y : float) :
  is_nan x = false -> is_nan y = false -> leb x y = false -> ltb y x = true.
Proof.
  intros Nx Ny H. apply ltb_iff. repeat split; try assumption.
  destruct (lex_total (key x) (key y)) as [L | L]; [| exact L].
  assert (leb x y = true) by (apply leb_iff; auto). congruence.
Qed.

Lemma ltb_leb (x y : float) : ltb x y = true -> leb x y = true.
Proof.
  rewrite ltb_iff, leb_iff. intros (Nx & Ny & H). repeat split; try assumption.
  left; exact H.
Qed.

Lemma ltb_leb_trans (x y z : float) : ltb x y = true -> leb y z = true -> ltb x z = true.
Proof.
  rewrite leb_iff, !ltb_iff. intros (Nx & Ny & H1) (_ & Nz & H2).
  repeat split; try assumption.
  destruct (key x) as [[a1 a2] a3], (key y) as [[b1 b2] b3], (key z) as [[c1 c2] c3].
  unfold lex_le, lex_lt in *. destruct H2 as [H2 | H2]; [lia |].
  injection H2 as <- <- <-. exact H1.
Qed.

Lemma argmin_scan_least (l : list float) :
  forall (pre : list float) (mp : float) (ind : nat),
    Forall non_nan (pre ++ l) ->
    nth_error pre ind = Some mp ->
    (forall j a, nth_error pre j = Some a ->
       leb mp a = true /\ ((j < ind)%nat -> ltb mp a = true)) ->
    least_at (pre ++ l) (argmin_scan mp ind (length pre) l).
Proof.
  induction l as [| x t IH]; intros pre mp ind Hnn Hmp Hinv.
  - cbn [argmin_scan]. rewrite app_nil_r. exists mp. split; [exact Hmp | exact Hinv].
  - assert (Hind : (ind < length pre)%nat)
      by (apply nth_error_Some; rewrite Hmp; discriminate).
    assert (Nx : non_nan x).
    { rewrite Forall_forall in Hnn. apply Hnn. apply in_or_app. right. left. reflexivity. }
    assert (Nmp : non_nan mp).
    { rewrite Forall_forall in Hnn. apply Hnn. apply in_or_app. left.
      eapply nth_error_In. exact Hmp. }
    replace (pre ++ x :: t) with ((pre ++ [x]) ++ t) in * by (rewrite <- app_assoc; reflexivity).
    cbn [argmin_scan].
    replace (S (length pre)) with (length (pre ++ [x]))
      by (rewrite length_app; cbn [length]; lia).
    destruct (leb mp x) eqn:E.
    + apply IH; [exact Hnn | |].
      * rewrite nth_error_app1 by exact Hind. exact Hmp.
      * intros j a Hj.
        destruct (Nat.lt_ge_cases j (length pre)) as [Hlt | Hge].
        -- rewrite nth_error_app1 in Hj by exact Hlt. apply Hinv. exact Hj.
        -- rewrite nth_error_app2 in Hj by exact Hge.
           destruct (j - length pre)%nat as [| j'] eqn:Ej;
             [| destruct j'; discriminate].
           injection Hj as <-. split; [exact E | lia].
    + unfold non_nan in Nx. rewrite Nx.
      pose proof (leb_false_ltb mp x Nmp Nx E) as Hlt.
      replace (length pre) with (length pre + 0)%nat at 1 by lia.
      rewrite Nat.add_0_r.
      apply IH; [exact Hnn | |].
      * rewrite nth_error_app2 by lia. rewrite Nat.sub_diag. reflexivity.
      * intros j a Hj.
        destruct (Nat.lt_ge_cases j (length pre)) as [Hj' | Hge].
        -- rewrite nth_error_app1 in Hj by exact Hj'.
           destruct (Hinv j a Hj) as (Hle & _).
           pose proof (ltb_leb_trans x mp a Hlt Hle) as Hx.
           split; [apply ltb_leb; exact Hx | intros _; exact Hx].
        -- rewrite nth_error_app2 in Hj by exact Hge.
           destruct (j - length pre)%nat as [| j'] eqn:Ej;
             [| destruct j'; discriminate].
           injection Hj as <-. split; [apply leb_refl; exact Nx | lia].
Qed.

Lemma np_argmin_least (A : list float) :
  A <> [] -> Forall non_nan A ->
  exists i, np_argmin A = Ok i /\ least_at A i.
Proof.
  intros Hne Hnn. destruct A as [| x t]; [contradiction |].
  assert (Nx : non_nan x) by (inversion Hnn; assumption).
  cbn [np_argmin]. unfold non_nan in Nx. rewrite Nx.
  eexists. split; [reflexivity |].
  apply (argmin_scan_least t [x] x 0); [exact Hnn | reflexivity |].
  intros [| j] a Hj; [| destruct j; discriminate].
  injection Hj as <-. split; [apply leb_refl; exact Nx | lia].
Qed.

Lemma split_at_nth {A : Type} (l : list A) (i : nat) (d : A) :
  (i < length l)%nat -> l = firstn i l ++ nth i l d :: skipn (S i) l.
Proof.
  revert i. induction l as [| h t IH]; intros i Hi; simpl in Hi; [lia |].
  destruct i as [| j]; [reflexivity |].
  cbn [firstn nth skipn app]. f_equal. apply IH. lia.
Qed.

Lemma np_getitem_nth {A : Type} (l : list A) (i : nat) (d : A) :
  (i < length l)%nat -> np_getitem l i = Ok (nth i l d).
Proof.
  intros Hi. unfold np_getitem. rewrite (nth_error_nth' l d Hi). reflexivity.
Qed.

Lemma firstn_set {A : Type} (l : list A) (i : nat) (v : A) :
  (i < length l)%nat -> firstn i (firstn i l ++ v :: skipn (S i) l) = firstn i l.
Proof.
  intros Hi.
  assert (Hl : length (firstn i l) = i) by (rewrite length_firstn; lia).
  rewrite firstn_app, Hl, Nat.sub_diag. cbn [firstn].
  rewrite app_nil_r. apply firstn_all2. lia.
Qed.

Lemma nth_set {A : Type} (l : list A) (i : nat) (v d : A) :
  (i < length l)%nat -> nth i (firstn i l ++ v :: skipn (S i) l) d = v.
Proof.
  intros Hi.
  assert (Hl : length (firstn i l) = i) by (rewrite length_firstn; lia).
  rewrite app_nth2 by lia. rewrite Hl, Nat.sub_diag. reflexivity.
Qed.

Lemma skipn_S_set {A : Type} (l : list A) (i : nat) (v : A) :
  (i < length l)%nat ->
  skipn (S i) (firstn i l ++ v :: skipn (S i) l) = skipn (S i) l.
Proof.
  intros Hi. pose proof (skipn_set l i 0 v Hi) as H.
  rewrite Nat.add_0_r in H. rewrite H. f_equal. lia.
Qed.

Section Sweeps.

Context {M : Libm}.

Lemma depth_loop_spec (lw : LaserWanderer) (msg : LaserScan) (n : nat)
    (ts : list nat) :
  forall A : list float,
    (n < length A)%nat ->
    depth_loop lw msg n ts A
    = (cs <- cost_row lw msg n ts ;;
       Ok (firstn n A ++ fold_left add cs (nth n A zero) :: skipn (S n) A)).
Proof.
  induction ts as [| t rest IH]; intros A Hn.
  - cbn [depth_loop cost_row bind fold_left].
    rewrite <- split_at_nth by exact Hn. reflexivity.
  - cbn [depth_loop cost_row].
    rewrite (np_getitem_nth A n zero Hn). cbn [bind].
    destruct (np_getitem (deltas lw) n) as [d | e |]; cbn [bind]; try reflexivity.
    destruct (rollout_at (rollouts lw) n t) as [p | e |]; cbn [bind]; try reflexivity.
    destruct (compute_cost (laser_offset lw) d p msg) as [c | e |];
      cbn [bind]; try reflexivity.
    rewrite np_setitem_spec by exact Hn. cbn [bind].
    rewrite IH by (rewrite length_set; lia).
    rewrite firstn_set, nth_set, skipn_S_set by exact Hn.
    destruct (cost_row lw msg n rest) as [cs | e |]; reflexivity.
Qed.

Lemma sweep_loop_spec (lw : LaserWanderer) (msg : LaserScan) (m : nat) :
  forall (lo : nat) (A : list float),
    (lo + m <= length A)%nat ->
    sweep_loop lw msg (seq lo m) A
    = (C <- cost_table lw msg (seq lo m) ;;
       Ok (firstn lo A ++ accumulate (firstn m (skipn lo A)) C
             ++ skipn (lo + m) A)).
Proof.
  induction m as [| k IH]; intros lo A Hlen.
  - cbn [seq sweep_loop cost_table bind firstn]. unfold accumulate.
    cbn [combine map app]. rewrite Nat.add_0_r, firstn_skipn. reflexivity.
  - cbn [seq sweep_loop cost_table].
    rewrite depth_loop_spec by lia.
    destruct (cost_row lw msg lo (seq 0 (shape1 (rollouts lw)))) as [cs | e |];
      cbn [bind]; try reflexivity.
    rewrite IH by (rewrite length_set; lia).
    rewrite firstn_S_set, skipn_S_set, skipn_set by lia.
    destruct (cost_table lw msg (seq (S lo) k)) as [C | e |];
      cbn [bind]; try reflexivity.
    f_equal. rewrite <- app_assoc. f_equal.
    destruct (np_getitem_skipn A lo ltac:(lia)) as (a & Ea & Es).
    rewrite Es. cbn [firstn]. unfold accumulate. cbn [combine map fst snd app].
    f_equal. f_equal.
    rewrite (np_getitem_nth A lo zero ltac:(lia)) in Ea. congruence.
Qed.

Lemma cost_table_length (lw : LaserWanderer) (msg : LaserScan) (ns : list nat) :
  forall C, cost_table lw msg ns = Ok C -> length C = length ns.
Proof.
  induction ns as [| n rest IH]; intros C H; cbn [cost_table] in H.
  - injection H as <-. reflexivity.
  - apply bind_ok_inv in H as (cs & _ & H).
    apply bind_ok_inv in H as (more & Hm & H).
    injection H as <-. cbn [length]. f_equal. apply IH. exact Hm.
Qed.

End Sweeps.

Lemma accumulate_length (A : list float) (C : list (list float)) :
  length A = length C -> length (accumulate A C) = length A.
Proof.
  intros H. unfold accumulate. rewrite length_map, length_combine. lia.
Qed.

Lemma fold_repeated (k : nat) (cs : list float) :
  forall a, Nat.iter k (fold_left add cs) a = fold_left add (concat (repeat cs k)) a.
Proof.
  induction k as [| k IH]; intros a; [reflexivity |].
  rewrite Nat.iter_succ_r. cbn [repeat concat]. rewrite fold_left_app. apply IH.
Qed.

Lemma accumulate_nil (A : list float) (C : list (list float)) :
  length A = length C -> accumulate A (map (fun _ => []) C) = A.
Proof.
  revert C. induction A as [| a A' IHA]; intros [| cs C'] H; try discriminate;
    [reflexivity |].
  unfold accumulate in *. cbn [map combine fst snd fold_left].
  f_equal. apply IHA. injection H as H. exact H.
Qed.

Lemma accumulate_twice (A : list float) (C D : list (list float)) (f : list float -> list float) :
  accumulate (accumulate A C) (map f C) = accumulate A (map (fun cs => cs ++ f cs) C).
Proof.
  revert C. induction A as [| a A' IHA]; intros [| cs C']; try reflexivity.
  unfold accumulate in *. cbn [map combine fst snd].
  f_equal; [| apply IHA]. rewrite fold_left_app. reflexivity.
Qed.

Lemma accumulate_iter (k : nat) :
  forall (A : list float) (C : list (list float)),
    length A = length C ->
    Nat.iter k (fun X => accumulate X C) A
    = accumulate A (map (fun cs => concat (repeat cs k)) C).
Proof.
  induction k as [| k IH]; intros A C Hlen.
  - cbn [Nat.iter nat_rect repeat concat]. symmetry. apply accumulate_nil. exact Hlen.
  - rewrite Nat.iter_succ_r, IH by (rewrite accumulate_length; lia).
    apply (accumulate_twice A C C).
Qed.

Lemma accumulate_zeros (C : list (list float)) :
  accumulate (repeat zero (length C)) C = map (fun cs => fold_left add cs zero) C.
Proof.
  induction C as [| cs C' IH]; [reflexivity |].
  unfold accumulate in *. cbn [length repeat combine map fst snd]. f_equal. exact IH.
Qed.

Section SweepsSpec.

Context {M : Libm}.

Lemma sweep_spec (lw : LaserWanderer) (msg : LaserScan) (A : list float) :
  length A = length (deltas lw) ->
  sweep lw msg A
  = (C <- cost_table lw msg (seq 0 (length (deltas lw))) ;; Ok (accumulate A C)).
Proof.
  intros Hlen. unfold sweep. rewrite sweep_loop_spec by lia.
  destruct (cost_table lw msg (seq 0 (length (deltas lw)))) as [C | e |];
    cbn [bind]; try reflexivity.
  rewrite <- Hlen. change (0 + length A)%nat with (length A).
  change (skipn 0 A) with A. cbn [firstn app].
  rewrite firstn_all, skipn_all, app_nil_r. reflexivity.
Qed.

Lemma sweeps_spec (lw : LaserWanderer) (msg : LaserScan) (C : list (list float))
    (k : nat) :
  cost_table lw msg (seq 0 (length (deltas lw))) = Ok C ->
  forall A, length A = length (deltas lw) ->
    sweeps k lw msg A = Ok (Nat.iter k (fun X => accumulate X C) A).
Proof.
  intros HC. pose proof (cost_table_length lw msg _ C HC) as HlC.
  rewrite length_seq in HlC.
  induction k as [| k IH]; intros A Hlen; [reflexivity |].
  cbn [sweeps]. rewrite sweep_spec, HC by exact Hlen. cbn [bind].
  rewrite IH by (rewrite accumulate_length; lia).
  rewrite Nat.iter_succ_r. reflexivity.
Qed.

(** After [k] sweeps every accumulator is the running sum of [k]
    repetitions of its row of costs. *)
Lemma sweeps_repeated_sums (lw : LaserWanderer) (msg : LaserScan)
    (C : list (list float)) (k : nat) :
  cost_table lw msg (seq 0 (length (deltas lw))) = Ok C ->
  sweeps k lw msg (repeat zero (length (deltas lw))) = Ok (map (repeated_sum k) C).
Proof.
  intros HC. pose proof (cost_table_length lw msg _ C HC) as HlC.
  rewrite length_seq in HlC.
  rewrite (sweeps_spec lw msg C k HC) by apply repeat_length.
  rewrite accumulate_iter by (rewrite repeat_length; lia). rewrite <- HlC.
  rewrite <- (length_map (fun cs => concat (repeat cs k)) C).
  rewrite accumulate_zeros, map_map. reflexivity.
Qed.

End SweepsSpec.

(** C8 (amended).  With at least one candidate, when every cost
    evaluation returns and no accumulator is NaN, a cycle of [k] sweeps
    leaves in each accumulator the running binary64 sum of [k] repetitions
    of the candidate's row of costs, selects the first index that holds the
    least accumulator, and publishes that candidate. *)
Theorem winner_after_sweeps (M : Libm) (lw : LaserWanderer) (msg : LaserScan)
    (C : list (list float)) (k fuel : nat) (w : world) :
  deltas lw <> [] ->
  cost_table lw msg (seq 0 (length (deltas lw))) = Ok C ->
  Forall non_nan (map (repeated_sum k) C) ->
  sweeps_allowed k lw w -> (k < fuel)%nat ->
  exists i d,
    sweeps k lw msg (repeat zero (length (deltas lw)))
    = Ok (map (repeated_sum k) C) /\
    np_argmin (map (repeated_sum k) C) = Ok i /\
    least_at (map (repeated_sum k) C) i /\
    nth_error (deltas lw) i = Some d /\
    wander_cb fuel lw msg w
    = (Ok tt,
       world_after k {| stamp := clock w (tick w + k + 2);
                        steering_angle := d; drive_speed := speed lw |} w).
Proof.
  intros Hne HC Hnn Ha Hfuel.
  pose proof (sweeps_repeated_sums lw msg C k HC) as Hs.
  pose proof (cost_table_length lw msg _ C HC) as HlC. rewrite length_seq in HlC.
  destruct (np_argmin_least (map (repeated_sum k) C)) as (i & Hi & Hl).
  { destruct C; [| discriminate]. destruct (deltas lw); [contradiction | discriminate]. }
  { exact Hnn. }
  assert (Hlt : (i < length (deltas lw))%nat).
  { destruct Hl as (a_i & Hai & _). rewrite <- HlC, <- (length_map (repeated_sum k)).
    apply nth_error_Some. rewrite Hai. discriminate. }
  destruct (nth_error (deltas lw) i) as [d |] eqn:Ed.
  2:{ apply nth_error_None in Ed. lia. }
  exists i, d. repeat split; try assumption.
  eapply wander_cb_ok; eassumption.
Qed.

Section Tied.

Context {M : Libm}.

Lemma compute_cost_silent (offset delta : float) :
  compute_cost offset delta unit_pose silent_scan = Ok (div (abs delta) (of_Z 3)).
Proof.
  rewrite (compute_cost_unit_pose offset delta silent_scan 1 nan nan nan);
    try reflexivity; lia.
Qed.

Lemma tied_cost_table :
  cost_table tied_wanderer silent_scan (seq 0 (length (deltas tied_wanderer)))
  = Ok tied_costs.
Proof.
  cbn [cost_table cost_row seq length shape1 rollouts deltas laser_offset
       tied_wanderer np_getitem nth_error bind rollout_at rows].
  rewrite !compute_cost_silent. reflexivity.
Qed.

End Tied.

(** C8 (counterexample).  For the candidates [-0.37000000000000005] and
    [0.37] under a silent scan, one sweep selects index 1, and five sweeps
    round both accumulators to the same number and select index 0. *)
Lemma winner_changes_with_sweeps :
  length (deltas tied_wanderer) = 2%nat /\
  (forall M : Libm,
      exists A1 A5,
        sweeps 1 tied_wanderer silent_scan [zero; zero] = Ok A1 /\
        np_argmin A1 = Ok 1%nat /\
        sweeps 5 tied_wanderer silent_scan [zero; zero] = Ok A5 /\
        np_argmin A5 = Ok 0%nat).
Proof.
  split; [reflexivity |]. intros M.
  pose proof (sweeps_repeated_sums tied_wanderer silent_scan tied_costs 1
                tied_cost_table) as H1.
  pose proof (sweeps_repeated_sums tied_wanderer silent_scan tied_costs 5
                tied_cost_table) as H5.
  do 2 eexists. split; [exact H1 | split; [reflexivity | split; [exact H5 |]]].
  reflexivity.
Qed.

(** The theorem for one sweep of the two candidates. *)
Lemma winner_after_sweeps_witness :
  exists i d,
    @sweeps special_libm 1 tied_wanderer silent_scan
      (repeat zero (length (deltas tied_wanderer)))
    = Ok (map (repeated_sum 1) tied_costs) /\
    np_argmin (map (repeated_sum 1) tied_costs) = Ok i /\
    least_at (map (repeated_sum 1) tied_costs) i /\
    nth_error (deltas tied_wanderer) i = Some d /\
    @wander_cb special_libm 2 tied_wanderer silent_scan brisk_world
    = (Ok tt,
       world_after 1 {| stamp := clock brisk_world (tick brisk_world + 1 + 2);
                        steering_angle := d;
                        drive_speed := speed tied_wanderer |} brisk_world).
Proof.
  apply (@winner_after_sweeps special_libm tied_wanderer silent_scan tied_costs
           1 2 brisk_world).
  - discriminate.
  - apply tied_cost_table.
  - repeat constructor.
  - split; [intros [| j] Hj; [reflexivity | lia] | reflexivity].
  - lia.
Defined.

(* ================================================================== *)
(** * Further properties *)
(* ================================================================== *)

(** ** The heading-normalisation loops on headings out of range *)

Lemma sub_valid (x y : float) :
  valid x = true -> valid y = true -> is_finite x = true -> is_finite y = true ->
  valid (sub x y) = true.
Proof.
  intros Vx Vy Fx Fy.
  destruct x as [sx | sx | | sx mx ex], y as [sy | sy | | sy my ey]; try discriminate.
  - destruct sx, sy; reflexivity.
  - exact Vy.
  - exact Vx.
  - pose proof (valid_finite_inv _ _ _ Vx) as ((Hx & _) & _).
    pose proof (valid_finite_inv _ _ _ Vy) as ((Hy & _) & _).
    rewrite sub_finite_radd by assumption. apply radd_valid.
Qed.

Lemma sub_le_mono (x x' y y' : float) :
  valid x = true -> valid x' = true -> valid y = true -> valid y' = true ->
  is_finite x = true -> is_finite x' = true ->
  is_finite y = true -> is_finite y' = true ->
  leb x x' = true -> leb y' y = true ->
  leb (sub x y) (sub x' y') = true.
Proof.
  intros Vx Vx' Vy Vy' Fx Fx' Fy Fy' Hx Hy.
  destruct (sub_key x y Vx Vy Fx Fy) as (N1 & K1).
  destruct (sub_key x' y' Vx' Vy' Fx' Fy') as (N2 & K2).
  apply leb_iff. repeat split; try assumption.
  rewrite K1, K2. apply radd_key_mono.
  pose proof (leb_finite_Zval x x' Vx Vx' Fx Fx' Hx).
  pose proof (leb_finite_Zval y' y Vy' Vy Fy' Fy Hy). lia.
Qed.

Lemma lowered_finite (d : float) : lowered d -> is_finite d = true.
Proof.
  intros (_ & H1 & H2). apply (leb_is_finite absorbing_below d zero); auto.
Qed.

Lemma lowered_step (d : float) : lowered d -> lowered (sub d two_pi).
Proof.
  intros H. pose proof (lowered_finite d H) as Fd. destruct H as (Vd & H1 & H2).
  repeat split.
  - apply sub_valid; auto.
  - change absorbing_below with (sub absorbing_below two_pi) at 1.
    apply sub_le_mono; auto.
  - apply leb_trans with (sub zero two_pi); [| reflexivity].
    apply sub_le_mono; auto.
Qed.

Lemma lowered_zero : lowered zero.
Proof. repeat split; reflexivity. Qed.

Lemma ltb_false_leb (x y : float) :
  is_nan x = false -> is_nan y = false -> ltb x y = false -> leb y x = true.
Proof.
  intros Nx Ny H. destruct (leb y x) eqn:E; [reflexivity |].
  rewrite (leb_false_ltb y x Ny Nx E) in H. discriminate.
Qed.

Lemma lowered_test_ge (theta d : float) :
  valid theta = true -> is_finite theta = true -> leb two_61 theta = true ->
  lowered d -> ltb two_pi (add theta d) = true.
Proof.
  intros Vt Ft Ht H. pose proof (lowered_finite d H) as Fd. destruct H as (Vd & H1 & H2).
  apply ltb_leb_trans with (add two_61 absorbing_below); [reflexivity |].
  apply add_le_mono; auto.
Qed.

Lemma lifted_test_le (theta d : float) :
  valid theta = true -> is_finite theta = true -> leb theta (SFopp two_61) = true ->
  d = zero \/ lifted d -> ltb (add theta d) two_pi = true.
Proof.
  intros Vt Ft Ht H.
  assert (Fd : is_finite d = true)
    by (destruct H as [-> | H]; [reflexivity | apply lifted_finite; exact H]).
  assert (Vd : valid d = true) by (destruct H as [-> | H]; [reflexivity | apply H]).
  assert (Hd : leb d absorbing = true) by (destruct H as [-> | H]; [reflexivity | apply H]).
  apply leb_ltb_trans with (add (SFopp two_61) absorbing); [| reflexivity].
  apply add_le_mono; auto.
Qed.

Section HugeHeadings.

Context {M : Libm}.

Lemma wrap_down_pinf (fuel : nat) (d : float) :
  lowered d -> wrap_down fuel pinf d = OutOfFuel.
Proof.
  revert d. induction fuel as [| f IH]; intros d H; cbn [wrap_down].
  - reflexivity.
  - pose proof (lowered_finite d H) as Fd.
    assert (E : add pinf d = pinf) by (destruct d as [s | s | | s m e]; try discriminate; reflexivity).
    rewrite E. change (ltb two_pi pinf) with true. cbv iota.
    apply IH. apply lowered_step. exact H.
Qed.

Lemma wrap_up_ninf (fuel : nat) (d : float) :
  d = zero \/ lifted d -> wrap_up fuel ninf d = OutOfFuel.
Proof.
  revert d. induction fuel as [| f IH]; intros d H; cbn [wrap_up].
  - reflexivity.
  - assert (Fd : is_finite d = true)
      by (destruct H as [-> | H]; [reflexivity | apply lifted_finite; exact H]).
    assert (E : add ninf d = ninf) by (destruct d as [s | s | | s m e]; try discriminate; reflexivity).
    rewrite E. change (ltb ninf two_pi) with true. cbv iota.
    apply IH. right. destruct H as [-> | H]; [exact lifted_two_pi | apply lifted_step; exact H].
Qed.

Lemma wrap_down_huge (theta : float) (fuel : nat) (d : float) :
  valid theta = true -> is_nan theta = false -> leb two_61 theta = true ->
  lowered d -> wrap_down fuel theta d = OutOfFuel.
Proof.
  intros Vt Nt Ht. destruct (is_finite theta) eqn:Ft.
  - revert d. induction fuel as [| f IH]; intros d H; cbn [wrap_down].
    + reflexivity.
    + rewrite (lowered_test_ge theta d Vt Ft Ht H). apply IH. apply lowered_step. exact H.
  - destruct theta as [s | [|] | | s m e]; try discriminate.
    apply wrap_down_pinf.
Qed.

Lemma wrap_down_small (theta : float) (fuel : nat) :
  leb theta (SFopp two_61) = true -> wrap_down (S fuel) theta zero = Ok zero.
Proof.
  intros Ht. cbn [wrap_down].
  assert (E : ltb two_pi (add theta zero) = false).
  { destruct theta as [s | s | | s m e].
    - destruct s; discriminate.
    - destruct s; [reflexivity | discriminate].
    - reflexivity.
    - change (add (S754_finite s m e) zero) with (S754_finite s m e).
      apply leb_not_ltb. apply leb_trans with (SFopp two_61); [exact Ht | reflexivity]. }
  rewrite E. reflexivity.
Qed.

Lemma wrap_up_huge (theta : float) (fuel : nat) (d : float) :
  valid theta = true -> is_nan theta = false -> leb theta (SFopp two_61) = true ->
  d = zero \/ lifted d -> wrap_up fuel theta d = OutOfFuel.
Proof.
  intros Vt Nt Ht. destruct (is_finite theta) eqn:Ft.
  - revert d. induction fuel as [| f IH]; intros d H; cbn [wrap_up].
    + reflexivity.
    + rewrite (lifted_test_le theta d Vt Ft Ht H). apply IH. right.
      destruct H as [-> | H]; [exact lifted_two_pi | apply lifted_step; exact H].
  - destruct theta as [s | [|] | | s m e]; try discriminate.
    apply wrap_up_ninf.
Qed.

End HugeHeadings.

(** Whatever the pose, the control and the wheelbase, a heading that
    [kinematic_model_step] returns is not below [2*np.pi]: a heading that is
    a number is at least [2*np.pi], because the second loop only exits
    there. *)
Theorem step_heading_at_least_two_pi (M : Libm) (fuel : nat) (p : pose) (c : control)
    (car_length : float) (q : pose) :
  kinematic_model_step fuel p c car_length = Ok q ->
  ltb (ptheta q) two_pi = false /\
  (is_nan (ptheta q) = false -> leb two_pi (ptheta q) = true).
Proof.
  intros H. pose proof (step_heading_not_below_two_pi fuel p c car_length q H) as E.
  split; [exact E |]. intros N. apply ltb_false_leb; auto.
Qed.

Lemma step_heading_at_least_two_pi_witness :
  exists q,
    @kinematic_model_step special_libm 2 origin straight_control default_car_length
    = Ok q /\
    ltb (ptheta q) two_pi = false /\
    (is_nan (ptheta q) = false -> leb two_pi (ptheta q) = true).
Proof.
  eexists. split; [reflexivity |].
  exact (@step_heading_at_least_two_pi special_libm 2 origin straight_control
           default_car_length _ eq_refl).
Defined.

(** A NaN heading passes through the step: whatever the control, both
    loop conditions fail at their first test and the heading returned is
    NaN. *)
Theorem step_nan_heading (M : Libm) (p : pose) (c : control) (car_length : float)
    (f : nat) :
  is_nan (ptheta p) = true ->
  exists q, kinematic_model_step (S f) p c car_length = Ok q /\
            is_nan (ptheta q) = true.
Proof.
  intros H. destruct p as [x y theta]. cbn [ptheta] in H.
  destruct theta; try discriminate.
  unfold kinematic_model_step. cbn [ptheta px py].
  destruct (kinematic_deltas _ _ _ _ _) as [[dx dy] dtheta].
  eexists. split; reflexivity.
Qed.

Lemma step_nan_heading_witness :
  exists q, @kinematic_model_step special_libm 1 (Pose zero zero nan) straight_control
              default_car_length = Ok q /\
            is_nan (ptheta q) = true.
Proof.
  apply (@step_nan_heading special_libm (Pose zero zero nan) straight_control
           default_car_length 0).
  reflexivity.
Defined.

(** On a heading of magnitude [2.0**61] or more, the infinities included,
    the step with a steering angle below the threshold does not return: the
    increment stops changing at magnitude [2.0**60] while the loop condition
    still holds.  For such a heading above zero it is the first loop that
    never exits, below zero the second. *)
Theorem step_huge_heading (M : Libm) (p : pose) (c : control) (car_length : float)
    (fuel : nat) :
  ltb (abs (cdelta c)) lit_1e_2 = true ->
  valid (ptheta p) = true ->
  leb two_61 (ptheta p) = true \/ leb (ptheta p) (SFopp two_61) = true ->
  kinematic_model_step fuel p c car_length = OutOfFuel.
Proof.
  intros Hd Vt H. unfold kinematic_model_step.
  rewrite kinematic_deltas_straight by exact Hd.
  destruct H as [H | H].
  - rewrite (wrap_down_huge (ptheta p) fuel zero); auto using lowered_zero.
    apply leb_iff in H. tauto.
  - destruct fuel as [| f]; [reflexivity |].
    rewrite wrap_down_small by exact H. cbn [bind].
    rewrite wrap_up_huge; auto. apply leb_iff in H. tauto.
Qed.

Lemma step_huge_heading_witness :
  @kinematic_model_step special_libm 1000 (Pose zero zero pinf) straight_control
    default_car_length = OutOfFuel /\
  @kinematic_model_step special_libm 1000 (Pose zero zero (SFopp two_61)) straight_control
    default_car_length = OutOfFuel.
Proof.
  split.
  - apply (@step_huge_heading special_libm (Pose zero zero pinf) straight_control
             default_car_length 1000); [reflexivity | reflexivity | left; reflexivity].
  - apply (@step_huge_heading special_libm (Pose zero zero (SFopp two_61))
             straight_control default_car_length 1000);
      [reflexivity | reflexivity | right; reflexivity].
Defined.

(** ** Rollouts *)

Lemma np_setitem_out {A : Type} (l : list A) (i : nat) (v : A) :
  (length l <= i)%nat -> np_setitem l i v = Raise IndexError.
Proof.
  revert i. induction l as [| h t IH]; intros i Hi; [destruct i; reflexivity |].
  destruct i as [| j]; cbn [length] in Hi; [lia |].
  cbn [np_setitem]. rewrite IH by lia. reflexivity.
Qed.

Lemma skipn_repeat {A : Type} (x : A) (n m : nat) :
  skipn n (repeat x m) = repeat x (m - n).
Proof.
  revert m. induction n as [| k IH]; intros m.
  - rewrite Nat.sub_0_r. reflexivity.
  - destruct m as [| j]; [reflexivity |]. cbn [repeat skipn]. apply IH.
Qed.

Section Rollouts.

Context {M : Libm}.

Lemma rollout_loop_fits (fuel : nat) (car_length : float) (cs : list control) :
  forall (i : nat) (traj : list pose) (cur : pose),
    (i + length cs <= length traj)%nat ->
    rollout_loop fuel car_length cs i traj cur
    = (qs <- run_controls fuel cur cs car_length ;;
       Ok (firstn i traj ++ qs ++ skipn (i + length cs) traj)).
Proof.
  induction cs as [| c rest IH]; intros i traj cur Hlen; cbn [length] in Hlen.
  - cbn [rollout_loop run_controls bind app length].
    rewrite Nat.add_0_r, firstn_skipn. reflexivity.
  - cbn [rollout_loop run_controls length].
    destruct (kinematic_model_step fuel cur c car_length) as [q | e |];
      cbn [bind]; try reflexivity.
    rewrite np_setitem_spec by lia. cbn [bind].
    rewrite IH by (rewrite length_set; lia).
    replace (S i + length rest)%nat with (S i + length rest)%nat by lia.
    rewrite firstn_S_set, skipn_set by lia.
    destruct (run_controls fuel q rest car_length) as [qs | e |];
      cbn [bind]; try reflexivity.
    rewrite <- app_assoc. reflexivity.
Qed.

Lemma rollout_loop_overflows (fuel : nat) (car_length : float) (cs : list control) :
  forall (i : nat) (traj : list pose) (cur : pose),
    (i <= length traj)%nat -> (length traj < i + length cs)%nat ->
    rollout_loop fuel car_length cs i traj cur
    = (_ <- run_controls fuel cur (firstn (S (length traj - i)) cs) car_length ;;
       Raise IndexError).
Proof.
  induction cs as [| c rest IH]; intros i traj cur Hi Hlen; cbn [length] in Hlen.
  - lia.
  - cbn [rollout_loop firstn run_controls].
    destruct (kinematic_model_step fuel cur c car_length) as [q | e |];
      cbn [bind]; try reflexivity.
    destruct (Nat.eq_dec i (length traj)) as [E | E].
    + rewrite np_setitem_out by lia. subst i.
      rewrite Nat.sub_diag. cbn [firstn run_controls bind]. reflexivity.
    + rewrite np_setitem_spec by lia. cbn [bind].
      rewrite IH by (rewrite length_set; lia).
      rewrite length_set by lia.
      replace (length traj - i)%nat with (S (length traj - S i)) by lia.
      destruct (run_controls fuel q (firstn (S (length traj - S i)) rest) car_length)
        as [qs | e |]; reflexivity.
Qed.

Lemma run_controls_repeat (fuel n : nat) (c : control) (car_length : float) :
  forall p, run_controls fuel p (repeat c n) car_length = trajectory fuel n p c car_length.
Proof.
  induction n as [| k IH]; intros p; [reflexivity |].
  cbn [repeat run_controls trajectory].
  destruct (kinematic_model_step fuel p c car_length) as [q | e |]; cbn [bind];
    try reflexivity.
  rewrite IH. reflexivity.
Qed.

Lemma run_controls_length (fuel : nat) (car_length : float) (cs : list control) :
  forall p qs, run_controls fuel p cs car_length = Ok qs -> length qs = length cs.
Proof.
  induction cs as [| c rest IH]; intros p qs H; cbn [run_controls] in H.
  - injection H as <-. reflexivity.
  - apply bind_ok_inv in H as (q & _ & H).
    apply bind_ok_inv in H as (more & Hr & H).
    injection H as <-. cbn [length]. f_equal. eapply IH; eassumption.
Qed.

Lemma trajectory_headings (fuel n : nat) (c : control) (car_length : float) :
  forall (p : pose) (qs : list pose),
    trajectory fuel n p c car_length = Ok qs ->
    Forall (fun q => ltb (ptheta q) two_pi = false) qs.
Proof.
  induction n as [| k IH]; intros p qs H; cbn [trajectory] in H.
  - injection H as <-. constructor.
  - apply bind_ok_inv in H as (q & Hq & H).
    apply bind_ok_inv in H as (rest & Hr & H).
    injection H as <-. constructor.
    + eapply step_heading_not_below_two_pi; eassumption.
    + eapply IH; eassumption.
Qed.

Lemma rollouts_of_well_formed (fuel : nat) (spd dt car_length : float) (T : nat) :
  forall (ds : list float) (R : list (list pose)),
    rollouts_of fuel spd dt car_length T ds = Ok R ->
    length R = length ds /\ well_formed_rows T R.
Proof.
  induction ds as [| d0 rest IH]; intros R H; cbn [rollouts_of] in H.
  - injection H as <-. split; [reflexivity | constructor].
  - apply bind_ok_inv in H as (row & Hrow & H).
    apply bind_ok_inv in H as (more & Hmore & H).
    injection H as <-. destruct (IH more Hmore) as (Hl & Hw).
    split; [cbn [length]; lia |]. constructor; [| exact Hw].
    split; [eapply trajectory_length | eapply trajectory_headings]; eassumption.
Qed.

Lemma generate_well_formed (fuel : nat)
    (spd min_delta max_delta delta_incr dt : float) (T : nat) (car_length : float)
    (tbl : rollout_table) (D : list float) :
  generate_mpc_rollouts fuel spd min_delta max_delta delta_incr dt T car_length
  = Ok (tbl, D) ->
  np_arange min_delta max_delta delta_incr = Ok D /\
  shape1 tbl = T /\ length (rows tbl) = length D /\
  well_formed_rows T (rows tbl).
Proof.
  rewrite generate_mpc_rollouts_spec. intros H.
  apply bind_ok_inv in H as (D' & HD & H).
  apply bind_ok_inv in H as (R & HR & H).
  injection H as <- <-.
  destruct (rollouts_of_well_formed fuel spd dt car_length T D' R HR) as (Hl & Hw).
  cbn [shape1 rows]. auto.
Qed.

Lemma trajectory_straight_headings (f : nat) (c : control) (car_length : float) (n : nat) :
  ltb (abs (cdelta c)) lit_1e_2 = true ->
  forall p : pose,
    ptheta p = zero \/ ptheta p = two_pi ->
    exists qs, trajectory (S (S f)) n p c car_length = Ok qs /\
               Forall (fun q => ptheta q = two_pi) qs.
Proof.
  intros Hd. induction n as [| k IH]; intros p Hp.
  - exists []. split; [reflexivity | constructor].
  - assert (Hs := step_straight_returns p c car_length Hd).
    assert (Ht : valid (ptheta p) = true /\ leb zero (ptheta p) = true /\
                 leb (ptheta p) two_pi = true)
      by (destruct Hp as [-> | ->]; repeat split; reflexivity).
    destruct Ht as (V & H0 & H1). specialize (Hs V H0 H1 f).
    cbn [trajectory]. rewrite Hs. cbn [bind].
    assert (E : add (ptheta p) (if ltb (ptheta p) two_pi then two_pi else zero) = two_pi)
      by (destruct Hp as [-> | ->]; reflexivity).
    match goal with |- context [trajectory _ k ?q _ _] => destruct (IH q) as (rest & Hr & Hh) end.
    { right. exact E. }
    rewrite Hr. eexists. split; [reflexivity |].
    constructor; [exact E | exact Hh].
Qed.

End Rollouts.

(** With at most [T] controls, [generate_rollout] applies them in turn
    from the origin, whatever [init_pose] is, and the rows of the [T x 3]
    array beyond the controls keep their zeros. *)
Theorem generate_rollout_short_controls (M : Libm) (fuel : nat) (init_pose : pose)
    (controls : list control) (car_length : float) (T : nat) :
  (length controls <= T)%nat ->
  generate_rollout fuel init_pose controls car_length T
  = (qs <- run_controls fuel origin controls car_length ;;
     Ok (qs ++ repeat origin (T - length controls))).
Proof.
  intros H. unfold generate_rollout.
  rewrite rollout_loop_fits by (rewrite repeat_length; lia).
  destruct (run_controls fuel origin controls car_length) as [qs | e |];
    cbn [bind]; try reflexivity.
  cbn [firstn app Nat.add]. rewrite skipn_repeat. reflexivity.
Qed.

Lemma generate_rollout_short_controls_witness :
  @generate_rollout special_libm 2 unit_pose [straight_control] default_car_length 3
  = Ok [Pose lit_1e_2 zero two_pi; origin; origin].
Proof.
  exact (@generate_rollout_short_controls special_libm 2 unit_pose [straight_control]
           default_car_length 3 ltac:(cbn [length]; lia)).
Defined.

(** With more than [T] controls, [generate_rollout] returns no array:
    once the step for control number [T] has been computed, storing its
    pose raises [IndexError], unless one of the first [T + 1] steps fails
    before. *)
Theorem generate_rollout_long_controls (M : Libm) (fuel : nat) (init_pose : pose)
    (controls : list control) (car_length : float) (T : nat) :
  (T < length controls)%nat ->
  generate_rollout fuel init_pose controls car_length T
  = (_ <- run_controls fuel origin (firstn (S T) controls) car_length ;;
     Raise IndexError).
Proof.
  intros H. unfold generate_rollout.
  rewrite rollout_loop_overflows by (rewrite ?repeat_length; lia).
  rewrite repeat_length, Nat.sub_0_r. reflexivity.
Qed.

Lemma generate_rollout_long_controls_witness :
  @generate_rollout special_libm 2 origin [straight_control; straight_control]
    default_car_length 1
  = Raise IndexError.
Proof.
  exact (@generate_rollout_long_controls special_libm 2 origin
           [straight_control; straight_control] default_car_length 1
           ltac:(cbn [length]; lia)).
Defined.

(** For a steering angle below the threshold, [generate_rollout] returns
    its [T] poses, two tests of each loop being enough at every step, and
    every pose of the rollout has the heading [2*np.pi]; [init_pose] plays
    no part. *)
Theorem straight_rollout_headings (M : Libm) (f : nat) (init_pose : pose)
    (spd delta dt car_length : float) (T : nat) :
  ltb (abs delta) lit_1e_2 = true ->
  exists qs,
    generate_rollout (S (S f)) init_pose (repeat (Control spd delta dt) T) car_length T
    = Ok qs /\
    length qs = T /\
    Forall (fun q => ptheta q = two_pi) qs.
Proof.
  intros Hd. rewrite generate_rollout_spec.
  destruct (trajectory_straight_headings f (Control spd delta dt) car_length T Hd origin)
    as (qs & Hq & Hh); [left; reflexivity |].
  exists qs. split; [exact Hq | split; [| exact Hh]].
  eapply trajectory_length; eassumption.
Qed.

Lemma straight_rollout_headings_witness :
  exists qs,
    @generate_rollout special_libm 2 origin (repeat straight_control 300)
      default_car_length 300 = Ok qs /\
    length qs = 300%nat /\
    Forall (fun q => ptheta q = two_pi) qs.
Proof.
  apply (@straight_rollout_headings special_libm 0 origin one zero lit_1e_2
           default_car_length 300).
  reflexivity.
Defined.

(** Whenever [generate_mpc_rollouts] returns, the candidates are those of
    [np.arange], the table has one row of [T] poses for each of them, every
    lookup [rollouts[n,t,:]] within these bounds succeeds, and no pose of
    the table has a heading below [2*np.pi]. *)
Theorem generate_mpc_rollouts_returns (M : Libm) (fuel : nat)
    (spd min_delta max_delta delta_incr dt : float) (T : nat) (car_length : float)
    (tbl : rollout_table) (D : list float) :
  generate_mpc_rollouts fuel spd min_delta max_delta delta_incr dt T car_length
  = Ok (tbl, D) ->
  np_arange min_delta max_delta delta_incr = Ok D /\
  shape1 tbl = T /\ length (rows tbl) = length D /\
  well_formed_rows T (rows tbl) /\
  forall n t, (n < length D)%nat -> (t < T)%nat ->
    exists q, rollout_at tbl n t = Ok q /\ ltb (ptheta q) two_pi = false.
Proof.
  intros H. destruct (generate_well_formed _ _ _ _ _ _ _ _ _ _ H) as (HD & Hs & Hl & Hw).
  repeat split; try assumption.
  intros n t Hn Ht. unfold rollout_at, np_getitem.
  destruct (nth_error (rows tbl) n) as [row |] eqn:Er.
  2:{ apply nth_error_None in Er. lia. }
  cbn [bind].
  pose proof (proj1 (Forall_forall _ _) Hw row (nth_error_In _ _ Er)) as (Hlen & Hh).
  destruct (nth_error row t) as [q |] eqn:Eq.
  2:{ apply nth_error_None in Eq. lia. }
  exists q. split; [reflexivity |].
  exact (proj1 (Forall_forall _ _) Hh q (nth_error_In _ _ Eq)).
Qed.

Lemma generate_mpc_rollouts_returns_witness :
  exists tbl D,
    @generate_mpc_rollouts special_libm 2 one (SFopp delta_3125) delta_6250
      delta_3125 lit_1e_2 2 default_car_length = Ok (tbl, D) /\
    shape1 tbl = 2%nat /\ length (rows tbl) = length D /\
    well_formed_rows 2 (rows tbl).
Proof.
  do 2 eexists. split; [reflexivity |].
  destruct (@generate_mpc_rollouts_returns special_libm 2 one (SFopp delta_3125)
              delta_6250 delta_3125 lit_1e_2 2 default_car_length _ _ eq_refl)
    as (_ & H1 & H2 & H3 & _).
  auto.
Defined.

(** ** The cost evaluator: errors, wrap-around and sign *)

Lemma py_getitem_in {A : Type} (l : list A) (j : Z) :
  - Z.of_nat (length l) <= j < Z.of_nat (length l) ->
  exists a, nth_error l (py_position (Z.of_nat (length l)) j) = Some a /\
            py_getitem l j = Ok a.
Proof.
  intros Hj. unfold py_getitem, py_position.
  set (n := Z.of_nat (length l)) in *.
  assert (E : (if j <? 0 then j + n else j) = j mod n).
  { destruct (Z.ltb_spec j 0).
    - apply Z.mod_unique with (q := -1); lia.
    - symmetry. apply Z.mod_small. lia. }
  rewrite E.
  assert (Hm : 0 <= j mod n < n) by (apply Z.mod_pos_bound; lia).
  destruct (Z.leb_spec 0 (j mod n)); [| lia].
  destruct (Z.ltb_spec (j mod n) n); [| lia]. cbn [andb].
  destruct (nth_error l (Z.to_nat (j mod n))) as [a |] eqn:Ea.
  - exists a. split; reflexivity.
  - apply nth_error_None in Ea. unfold n in *. lia.
Qed.

Lemma py_getitem_out {A : Type} (l : list A) (j : Z) :
  j < - Z.of_nat (length l) \/ Z.of_nat (length l) <= j ->
  py_getitem l j = Raise IndexError.
Proof.
  intros Hj. unfold py_getitem.
  set (n := Z.of_nat (length l)) in *.
  destruct (Z.ltb_spec j 0).
  - destruct (Z.leb_spec 0 (j + n)); [| reflexivity].
    destruct (Z.ltb_spec (j + n) n); lia.
  - destruct (Z.leb_spec 0 j); [| reflexivity].
    destruct (Z.ltb_spec j n); [lia | reflexivity].
Qed.

Lemma py_getitem_cases {A : Type} (l : list A) (j : Z) :
  (- Z.of_nat (length l) <= j < Z.of_nat (length l) /\
   exists a, py_getitem l j = Ok a) \/
  ((j < - Z.of_nat (length l) \/ Z.of_nat (length l) <= j) /\
   py_getitem l j = Raise IndexError).
Proof.
  destruct (Z_lt_le_dec j (- Z.of_nat (length l))) as [H | H].
  - right. split; [lia | apply py_getitem_out; lia].
  - destruct (Z_lt_le_dec j (Z.of_nat (length l))) as [H' | H'].
    + left. split; [lia |].
      destruct (py_getitem_in l j ltac:(lia)) as (a & _ & E). exists a. exact E.
    + right. split; [lia | apply py_getitem_out; lia].
Qed.

Lemma sign_false_leb (x : float) : sign_is false x -> leb zero x = true.
Proof. destruct x as [s | s | | s m e]; cbn [sign_is]; intros H; try contradiction; subst; reflexivity. Qed.

Lemma abs_sign (x : float) : is_nan x = false -> sign_is false (abs x).
Proof. destruct x; try discriminate; reflexivity. Qed.

Lemma add_sign_false (x y : float) :
  sign_is false x -> sign_is false y -> sign_is false (add x y).
Proof.
  destruct x as [sx | sx | | sx mx ex], y as [sy | sy | | sy my ey];
    cbn [sign_is]; intros Hx Hy; try contradiction; subst; try reflexivity.
  unfold add, SFadd. cbn [cond_Zopp].
  set (a := fst (shl_align mx ex (Z.min ex ey))).
  set (b := fst (shl_align my ey (Z.min ex ey))).
  change (Z.pos a + Z.pos b) with (Z.pos (a + b)).
  cbn [binary_normalize]. unfold binary_round.
  destruct (shl_align (a + b) (Z.min ex ey) _) as [mz ez].
  apply binary_round_aux_sign. lia.
Qed.

Lemma div_three_sign (x : float) : sign_is false x -> sign_is false (div x (of_Z 3)).
Proof.
  destruct x as [s | s | | s m e]; cbn [sign_is]; intros H; try contradiction; subst;
    try reflexivity.
  apply (div_sign false m e).
Qed.

Lemma penalty_sign : sign_is false (of_Z MAX_PENALTY).
Proof. reflexivity. Qed.

Lemma penalize_sign (offset dist d cost : float) :
  sign_is false cost -> sign_is false (penalize offset dist d cost).
Proof.
  intros H. unfold penalize. destruct (ltb _ _); [| exact H].
  apply add_sign_false; [exact H | exact penalty_sign].
Qed.

Lemma math_pow_2_not_index `{Libm} (x : float) : math_pow_2 x <> Raise IndexError.
Proof.
  unfold math_pow_2. destruct x; try discriminate;
    destruct (m_pow _ two); try discriminate; destruct (is_zero _); discriminate.
Qed.

Section CostMore.

Context {M : Libm}.

Lemma compute_cost_lookups (offset delta : float) (p : pose) (scan : LaserScan)
    (i : Z) (d0 d1 d2 : float) :
  ray_index (m_atan2 (py p) (px p)) scan = Ok i ->
  py_getitem (ranges scan) i = Ok d0 ->
  py_getitem (ranges scan) (i + 1) = Ok d1 ->
  py_getitem (ranges scan) (i - 1) = Ok d2 ->
  compute_cost offset delta p scan
  = (x2 <- math_pow_2 (px p) ;;
     y2 <- math_pow_2 (py p) ;;
     Ok (div (penalize offset (add x2 y2) d2
                (penalize offset (add x2 y2) d1
                   (penalize offset (add x2 y2) d0 (abs delta))))
             (of_Z 3))).
Proof.
  intros Hi H0 H1 H2. unfold compute_cost.
  rewrite Hi. cbn [bind]. rewrite H0. cbn [bind]. rewrite H1. cbn [bind].
  rewrite H2. reflexivity.
Qed.

Lemma compute_cost_sign (offset delta : float) (p : pose) (scan : LaserScan) (c : float) :
  is_nan delta = false ->
  compute_cost offset delta p scan = Ok c -> sign_is false c.
Proof.
  intros Hn H. unfold compute_cost in H.
  repeat (apply bind_ok_inv in H as (? & _ & H)).
  injection H as <-.
  apply div_three_sign. repeat apply penalize_sign. apply abs_sign. exact Hn.
Qed.

End CostMore.

(** The errors of the bearing-to-ray conversion, whatever the pose, the
    steering angle and the ranges: an [angle_increment] of zero is a
    [ZeroDivisionError]; otherwise a quotient
    [(angle - angle_min) / angle_increment] that is NaN is a [ValueError]
    and one that is infinite an [OverflowError]. *)
Theorem compute_cost_bearing_errors (M : Libm) (offset delta : float) (p : pose)
    (scan : LaserScan) :
  let q := div (sub (m_atan2 (py p) (px p)) (angle_min scan)) (angle_increment scan) in
  (is_zero (angle_increment scan) = true ->
   compute_cost offset delta p scan = Raise ZeroDivisionError) /\
  (is_zero (angle_increment scan) = false -> is_nan q = true ->
   compute_cost offset delta p scan = Raise ValueError) /\
  (is_zero (angle_increment scan) = false -> (exists s, q = S754_infinity s) ->
   compute_cost offset delta p scan = Raise OverflowError).
Proof.
  intros q. unfold compute_cost, ray_index, py_div. fold q.
  split; [| split].
  - intros ->. reflexivity.
  - intros -> Hq. cbn [bind]. unfold int_round.
    destruct q; try discriminate. reflexivity.
  - intros -> (s & ->). reflexivity.
Qed.

Lemma compute_cost_bearing_errors_witness :
  @compute_cost special_libm one one unit_pose
    {| ranges := [one; one; one]; angle_min := zero; angle_increment := zero |}
  = Raise ZeroDivisionError /\
  @compute_cost special_libm one one unit_pose
    {| ranges := [one; one; one]; angle_min := nan; angle_increment := one |}
  = Raise ValueError /\
  @compute_cost special_libm one one unit_pose
    {| ranges := [one; one; one]; angle_min := pinf; angle_increment := one |}
  = Raise OverflowError.
Proof.
  split; [| split].
  - exact (proj1 (@compute_cost_bearing_errors special_libm one one unit_pose
                    {| ranges := [one; one; one]; angle_min := zero;
                       angle_increment := zero |}) eq_refl).
  - exact (proj1 (proj2 (@compute_cost_bearing_errors special_libm one one unit_pose
                    {| ranges := [one; one; one]; angle_min := nan;
                       angle_increment := one |})) eq_refl eq_refl).
  - exact (proj2 (proj2 (@compute_cost_bearing_errors special_libm one one unit_pose
                    {| ranges := [one; one; one]; angle_min := pinf;
                       angle_increment := one |})) eq_refl
             (ex_intro _ true eq_refl)).
Defined.

(** [compute_cost] raises [IndexError] exactly when the ray index [i] of
    the pose's bearing lies outside [1 - n, n - 2], where [n] is the number
    of rays.  On a scan of fewer than two rays, the empty scan included,
    every call ends in an exception. *)
Theorem compute_cost_index_error (M : Libm) (offset delta : float) (p : pose)
    (scan : LaserScan) :
  let n := Z.of_nat (length (ranges scan)) in
  (forall i, ray_index (m_atan2 (py p) (px p)) scan = Ok i ->
     (compute_cost offset delta p scan = Raise IndexError
      <-> i < 1 - n \/ n - 2 < i)) /\
  (n < 2 -> exists e, compute_cost offset delta p scan = Raise e).
Proof.
  intros n. subst n.
  assert (Hiff : forall i, ray_index (m_atan2 (py p) (px p)) scan = Ok i ->
            (compute_cost offset delta p scan = Raise IndexError
             <-> i < 1 - Z.of_nat (length (ranges scan))
                 \/ Z.of_nat (length (ranges scan)) - 2 < i)).
  { intros i Hi.
    destruct (py_getitem_cases (ranges scan) i) as [(B0 & d0 & H0) | (B0 & H0)].
    2:{ split; [lia |]. intros _. unfold compute_cost. rewrite Hi. cbn [bind].
        rewrite H0. reflexivity. }
    destruct (py_getitem_cases (ranges scan) (i + 1)) as [(B1 & d1 & H1) | (B1 & H1)].
    2:{ split; [lia |]. intros _. unfold compute_cost. rewrite Hi. cbn [bind].
        rewrite H0. cbn [bind]. rewrite H1. reflexivity. }
    destruct (py_getitem_cases (ranges scan) (i - 1)) as [(B2 & d2 & H2) | (B2 & H2)].
    2:{ split; [lia |]. intros _. unfold compute_cost. rewrite Hi. cbn [bind].
        rewrite H0. cbn [bind]. rewrite H1. cbn [bind]. rewrite H2. reflexivity. }
    split; [| lia]. intros H. exfalso.
    rewrite (compute_cost_lookups offset delta p scan i d0 d1 d2 Hi H0 H1 H2) in H.
    pose proof (math_pow_2_not_index (px p)) as Nx.
    pose proof (math_pow_2_not_index (py p)) as Ny.
    destruct (math_pow_2 (px p)) as [x2 | e |]; cbn [bind] in H; try congruence.
    destruct (math_pow_2 (py p)) as [y2 | e |]; cbn [bind] in H; congruence. }
  split; [exact Hiff |]. intros Hn.
  destruct (ray_index (m_atan2 (py p) (px p)) scan) as [i | e |] eqn:Ei.
  - exists IndexError. apply (Hiff i eq_refl). lia.
  - exists e. unfold compute_cost. rewrite Ei. reflexivity.
  - exfalso. unfold ray_index, py_div, int_round in Ei.
    destruct (is_zero (angle_increment scan)); cbn [bind] in Ei; [discriminate |].
    destruct (round_half_away _); [discriminate |].
    destruct (is_nan _); discriminate.
Qed.

Lemma compute_cost_index_error_witness :
  (@compute_cost special_libm one one unit_pose
     {| ranges := [one; one; one]; angle_min := SFopp two; angle_increment := one |}
   = Raise IndexError
   <-> 2 < 1 - 3 \/ 3 - 2 < 2) /\
  exists e,
    @compute_cost special_libm one one unit_pose
      {| ranges := [one]; angle_min := zero; angle_increment := one |}
    = Raise e.
Proof.
  split.
  - exact (proj1 (@compute_cost_index_error special_libm one one unit_pose
                    {| ranges := [one; one; one]; angle_min := SFopp two;
                       angle_increment := one |}) 2 eq_refl).
  - apply (proj2 (@compute_cost_index_error special_libm one one unit_pose
                    {| ranges := [one]; angle_min := zero;
                       angle_increment := one |})).
    cbn. lia.
Defined.

(** For a ray index [i] in [1 - n, n - 2] the three measurements are read
    at the positions [i mod n], [(i + 1) mod n] and [(i - 1) mod n]: an
    index below zero counts from the end of the scan, and the cost is a
    third of the steering magnitude with the penalties of these three
    rays. *)
Theorem compute_cost_reads_circularly (M : Libm) (offset delta : float) (p : pose)
    (scan : LaserScan) (i : Z) (x2 y2 : float) :
  let n := Z.of_nat (length (ranges scan)) in
  ray_index (m_atan2 (py p) (px p)) scan = Ok i ->
  1 - n <= i <= n - 2 ->
  math_pow_2 (px p) = Ok x2 -> math_pow_2 (py p) = Ok y2 ->
  exists d0 d1 d2,
    nth_error (ranges scan) (py_position n i) = Some d0 /\
    nth_error (ranges scan) (py_position n (i + 1)) = Some d1 /\
    nth_error (ranges scan) (py_position n (i - 1)) = Some d2 /\
    compute_cost offset delta p scan
    = Ok (div (penalize offset (add x2 y2) d2
                 (penalize offset (add x2 y2) d1
                    (penalize offset (add x2 y2) d0 (abs delta))))
              (of_Z 3)).
Proof.
  intros n Hi Hr Hx Hy. subst n.
  destruct (py_getitem_in (ranges scan) i) as (d0 & E0 & H0); [lia |].
  destruct (py_getitem_in (ranges scan) (i + 1)) as (d1 & E1 & H1); [lia |].
  destruct (py_getitem_in (ranges scan) (i - 1)) as (d2 & E2 & H2); [lia |].
  exists d0, d1, d2. repeat split; try assumption.
  rewrite (compute_cost_lookups offset delta p scan i d0 d1 d2 Hi H0 H1 H2).
  rewrite Hx, Hy. reflexivity.
Qed.

Lemma compute_cost_reads_circularly_witness :
  exists d0 d1 d2,
    nth_error (ranges edge_scan) (py_position 3 0) = Some d0 /\
    nth_error (ranges edge_scan) (py_position 3 (0 + 1)) = Some d1 /\
    nth_error (ranges edge_scan) (py_position 3 (0 - 1)) = Some d2 /\
    @compute_cost special_libm one (of_Z 3) unit_pose edge_scan
    = Ok (div (penalize one (add one zero) d2
                 (penalize one (add one zero) d1
                    (penalize one (add one zero) d0 (abs (of_Z 3)))))
              (of_Z 3)).
Proof.
  apply (@compute_cost_reads_circularly special_libm one (of_Z 3) unit_pose edge_scan
           0 one zero); try reflexivity.
  cbn. lia.
Defined.

(** For a steering angle that is a number, a cost that [compute_cost]
    returns is a number and is not negative. *)
Theorem compute_cost_nonneg (M : Libm) (offset delta : float) (p : pose)
    (scan : LaserScan) (c : float) :
  is_nan delta = false ->
  compute_cost offset delta p scan = Ok c ->
  is_nan c = false /\ leb zero c = true.
Proof.
  intros Hn H. pose proof (compute_cost_sign offset delta p scan c Hn H) as Hs.
  split; [| apply sign_false_leb; exact Hs].
  destruct c; try reflexivity. contradiction.
Qed.

Lemma compute_cost_nonneg_witness :
  exists c,
    @compute_cost special_libm one (of_Z 3) unit_pose silent_scan = Ok c /\
    is_nan c = false /\ leb zero c = true.
Proof.
  eexists. split; [reflexivity |].
  exact (@compute_cost_nonneg special_libm one (of_Z 3) unit_pose silent_scan _
           eq_refl eq_refl).
Defined.

(** ** The search loop: what is published, and when *)

Lemma sign_false_non_negative (x : float) : sign_is false x -> non_negative x.
Proof.
  intros H. split; [| apply sign_false_leb; exact H].
  destruct x; try reflexivity. contradiction.
Qed.

Lemma fold_add_sign (cs : list float) :
  forall a, sign_is false a -> Forall (sign_is false) cs ->
            sign_is false (fold_left add cs a).
Proof.
  induction cs as [| c rest IH]; intros a Ha Hc; [exact Ha |].
  inversion Hc; subst. cbn [fold_left]. apply IH; [| assumption].
  apply add_sign_false; assumption.
Qed.

Lemma repeated_sum_sign (k : nat) (cs : list float) :
  Forall (sign_is false) cs -> sign_is false (repeated_sum k cs).
Proof.
  intros H. unfold repeated_sum. apply fold_add_sign; [reflexivity |].
  induction k as [| j IH]; [constructor |].
  cbn [repeat concat]. apply Forall_app. split; assumption.
Qed.

Section SearchMore.

Context {M : Libm}.

Lemma search_loop_world (lw : LaserWanderer) (msg : LaserScan) (start : float) :
  forall (fuel : nat) (costs : list float) (w : world) r w',
    search_loop fuel lw msg start costs w = (r, w') ->
    clock w' = clock w /\ cmd_pub w' = cmd_pub w /\
    (tick w <= tick w')%nat /\ (forall c, r = Ok c -> (tick w < tick w')%nat).
Proof.
  induction fuel as [| f IH]; intros costs w r w' H; cbn [search_loop] in H.
  - injection H as <- <-.
    split; [reflexivity | split; [reflexivity | split; [lia | discriminate]]].
  - unfold now in H.
    destruct (ltb (clock w (tick w)) (add start (compute_time lw))).
    + destruct (sweep lw msg costs) as [costs' | e |].
      * apply IH in H as (Hc & Hp & Ht & Hs). cbn [clock cmd_pub tick] in *.
        split; [exact Hc | split; [exact Hp | split; [lia |]]].
        intros c Hr. specialize (Hs c Hr). lia.
      * injection H as <- <-. cbn [clock cmd_pub tick].
        split; [reflexivity | split; [reflexivity | split; [lia | discriminate]]].
      * injection H as <- <-. cbn [clock cmd_pub tick].
        split; [reflexivity | split; [reflexivity | split; [lia | discriminate]]].
    + injection H as <- <-. cbn [clock cmd_pub tick].
      split; [reflexivity | split; [reflexivity | split; [lia | intros; lia]]].
Qed.

Lemma cost_row_sign (lw : LaserWanderer) (msg : LaserScan) (n : nat) (ts : list nat) :
  Forall non_nan (deltas lw) ->
  forall cs, cost_row lw msg n ts = Ok cs -> Forall (sign_is false) cs.
Proof.
  intros Hd. induction ts as [| t rest IH]; intros cs H; cbn [cost_row] in H.
  - injection H as <-. constructor.
  - apply bind_ok_inv in H as (d & Ed & H).
    apply bind_ok_inv in H as (p & _ & H).
    apply bind_ok_inv in H as (c & Ec & H).
    apply bind_ok_inv in H as (more & Em & H).
    injection H as <-. constructor; [| apply IH; exact Em].
    unfold np_getitem in Ed.
    destruct (nth_error (deltas lw) n) as [d' |] eqn:En; [| discriminate].
    injection Ed as ->.
    eapply compute_cost_sign; [| exact Ec].
    exact (proj1 (Forall_forall _ _) Hd d (nth_error_In _ _ En)).
Qed.

Lemma cost_table_sign (lw : LaserWanderer) (msg : LaserScan) (ns : list nat) :
  Forall non_nan (deltas lw) ->
  forall C, cost_table lw msg ns = Ok C -> Forall (Forall (sign_is false)) C.
Proof.
  intros Hd. induction ns as [| n rest IH]; intros C H; cbn [cost_table] in H.
  - injection H as <-. constructor.
  - apply bind_ok_inv in H as (cs & Ec & H).
    apply bind_ok_inv in H as (more & Em & H).
    injection H as <-. constructor; [| apply IH; exact Em].
    eapply cost_row_sign; eassumption.
Qed.

Lemma sweeps_zero_or_table (lw : LaserWanderer) (msg : LaserScan) (k : nat)
    (A : list float) :
  sweeps k lw msg (repeat zero (length (deltas lw))) = Ok A ->
  A = repeat zero (length (deltas lw)) \/
  exists C, cost_table lw msg (seq 0 (length (deltas lw))) = Ok C /\
            length C = length (deltas lw) /\
            A = map (repeated_sum k) C.
Proof.
  intros H. destruct k as [| j].
  - left. cbn [sweeps] in H. injection H as <-. reflexivity.
  - right. pose proof H as H'. cbn [sweeps] in H'.
    apply bind_ok_inv in H' as (A1 & E1 & _).
    rewrite sweep_spec in E1 by apply repeat_length.
    apply bind_ok_inv in E1 as (C & EC & _).
    exists C. split; [exact EC |].
    pose proof (cost_table_length lw msg _ C EC) as HlC. rewrite length_seq in HlC.
    split; [exact HlC |].
    rewrite (sweeps_repeated_sums lw msg C (S j) EC) in H. injection H as <-.
    reflexivity.
Qed.

Lemma cost_table_empty_rows (lw : LaserWanderer) (msg : LaserScan) (ns : list nat) :
  shape1 (rollouts lw) = 0%nat ->
  cost_table lw msg ns = Ok (map (fun _ => []) ns).
Proof.
  intros H. induction ns as [| n rest IH]; [reflexivity |].
  cbn [cost_table map]. rewrite H. cbn [seq cost_row bind]. rewrite IH. reflexivity.
Qed.

End SearchMore.

(** When no candidate is NaN, the accumulators that any number of sweeps
    leaves are one per candidate, all numbers and none negative; so
    [np.argmin] selects the first index that holds the least of them. *)
Theorem accumulators_non_negative (M : Libm) (lw : LaserWanderer) (msg : LaserScan)
    (k : nat) (A : list float) :
  Forall non_nan (deltas lw) ->
  sweeps k lw msg (repeat zero (length (deltas lw))) = Ok A ->
  length A = length (deltas lw) /\
  Forall non_negative A /\
  (deltas lw <> [] -> exists i, np_argmin A = Ok i /\ least_at A i).
Proof.
  intros Hd H.
  assert (Hs : length A = length (deltas lw) /\ Forall (sign_is false) A).
  { destruct (sweeps_zero_or_table lw msg k A H) as [-> | (C & EC & HlC & ->)].
    - split; [apply repeat_length |]. apply Forall_forall. intros x Hx.
      apply repeat_spec in Hx. subst x. reflexivity.
    - split; [rewrite length_map; exact HlC |].
      pose proof (cost_table_sign lw msg _ Hd C EC) as HC.
      apply Forall_forall. intros x Hx. apply in_map_iff in Hx as (cs & <- & Hcs).
      apply repeated_sum_sign. exact (proj1 (Forall_forall _ _) HC cs Hcs). }
  destruct Hs as (Hl & Hs).
  assert (Hn : Forall non_negative A).
  { eapply Forall_impl; [| exact Hs]. intros a. apply sign_false_non_negative. }
  split; [exact Hl | split; [exact Hn |]].
  intros Hne. apply np_argmin_least.
  - intros ->. destruct (deltas lw); [contradiction | discriminate].
  - eapply Forall_impl; [| exact Hn]. intros a Ha. apply Ha.
Qed.

Lemma accumulators_non_negative_witness :
  length (map (repeated_sum 5) tied_costs) = length (deltas tied_wanderer) /\
  Forall non_negative (map (repeated_sum 5) tied_costs) /\
  (deltas tied_wanderer <> [] ->
   exists i, np_argmin (map (repeated_sum 5) tied_costs) = Ok i /\
             least_at (map (repeated_sum 5) tied_costs) i).
Proof.
  apply (@accumulators_non_negative special_libm tied_wanderer silent_scan 5
           (map (repeated_sum 5) tied_costs)).
  - repeat constructor.
  - apply sweeps_repeated_sums. apply tied_cost_table.
Defined.

(** A call of [wander_cb] publishes at most one command.  When it
    returns, it has published exactly one: its steering angle is one of the
    candidates, its speed is [self.speed], and its stamp is the last of the
    at least three readings of the clock.  When it raises or does not
    return, nothing has been published. *)
Theorem wander_cb_publishes (M : Libm) (fuel : nat) (lw : LaserWanderer)
    (msg : LaserScan) (w : world) (r : result unit) (w' : world) :
  wander_cb fuel lw msg w = (r, w') ->
  clock w' = clock w /\
  match r with
  | Ok _ =>
      exists ads,
        cmd_pub w' = ads :: cmd_pub w /\
        In (steering_angle ads) (deltas lw) /\
        drive_speed ads = speed lw /\
        (tick w + 3 <= tick w')%nat /\
        stamp ads = clock w (tick w' - 1)
  | _ => cmd_pub w' = cmd_pub w
  end.
Proof.
  unfold wander_cb, now. intros H.
  destruct (search_loop fuel lw msg (clock w (tick w))
              (repeat zero (length (deltas lw)))
              {| clock := clock w; tick := S (tick w); cmd_pub := cmd_pub w |})
    as [rs ws] eqn:Es.
  apply search_loop_world in Es as (Hc & Hp & Ht & Hs).
  cbn [clock cmd_pub tick] in *.
  destruct rs as [costs | e |].
  2,3: injection H as <- <-; split; assumption.
  specialize (Hs costs eq_refl).
  destruct (np_argmin costs) as [i | e |].
  2,3: injection H as <- <-; split; assumption.
  unfold np_getitem in H.
  destruct (nth_error (deltas lw) i) as [d |] eqn:Ed.
  2:{ injection H as <- <-. cbn [clock cmd_pub]. split; assumption. }
  injection H as <- <-. cbn [clock cmd_pub tick publish]. split; [exact Hc |].
  eexists. split; [rewrite Hp; reflexivity |].
  cbn [steering_angle drive_speed stamp].
  split; [eapply nth_error_In; exact Ed |]. split; [reflexivity |].
  split; [lia |]. rewrite Hc. f_equal. lia.
Qed.

Lemma wander_cb_publishes_witness :
  exists w',
    @wander_cb special_libm 1 hurried_wanderer silent_scan initial_world
    = (Ok tt, w') /\
    clock w' = clock initial_world /\
    exists ads,
      cmd_pub w' = ads :: cmd_pub initial_world /\
      In (steering_angle ads) (deltas hurried_wanderer) /\
      drive_speed ads = speed hurried_wanderer /\
      (tick initial_world + 3 <= tick w')%nat /\
      stamp ads = clock initial_world (tick w' - 1).
Proof.
  eexists. split; [reflexivity |].
  exact (@wander_cb_publishes special_libm 1 hurried_wanderer silent_scan initial_world
           (Ok tt) _ eq_refl).
Defined.

Lemma repeated_sum_nil (k : nat) : repeated_sum k [] = zero.
Proof.
  unfold repeated_sum.
  replace (concat (repeat [] k)) with (@nil float); [reflexivity |].
  induction k as [| j IH]; [reflexivity | exact IH].
Qed.

Lemma map_const_repeat {A B : Type} (b : B) (l : list A) :
  map (fun _ => b) l = repeat b (length l).
Proof. induction l as [| a t IH]; [reflexivity |]. cbn [map length repeat]. rewrite IH. reflexivity. Qed.

(** With rollouts of no pose ([T = 0]) and at least one candidate, a
    cycle evaluates no cost whatever the scan: however many sweeps the
    budget allows, the accumulators stay 0 and the first candidate is
    published. *)
Theorem zero_horizon (M : Libm) (lw : LaserWanderer) (msg : LaserScan) (w : world)
    (k fuel : nat) (d0 : float) (rest : list float) :
  shape1 (rollouts lw) = 0%nat ->
  deltas lw = d0 :: rest ->
  sweeps_allowed k lw w -> (k < fuel)%nat ->
  sweeps k lw msg (repeat zero (length (deltas lw)))
  = Ok (repeat zero (length (deltas lw))) /\
  wander_cb fuel lw msg w
  = (Ok tt,
     world_after k {| stamp := clock w (tick w + k + 2);
                      steering_angle := d0; drive_speed := speed lw |} w).
Proof.
  intros HT Hd Ha Hf.
  assert (Hs : sweeps k lw msg (repeat zero (length (deltas lw)))
               = Ok (repeat zero (length (deltas lw)))).
  { rewrite (sweeps_repeated_sums lw msg _ k (cost_table_empty_rows lw msg _ HT)).
    rewrite map_map. f_equal.
    rewrite (map_ext _ (fun _ => zero)) by (intros a; apply repeated_sum_nil).
    rewrite map_const_repeat, length_seq. reflexivity. }
  split; [exact Hs |].
  apply wander_cb_ok with (costs := repeat zero (length (deltas lw))) (i := 0%nat);
    try assumption.
  - rewrite Hd. apply np_argmin_zeros.
  - rewrite Hd. reflexivity.
Qed.

Lemma zero_horizon_witness :
  @sweeps special_libm 1 {| rollouts := {| shape1 := 0; rows := [[]; []] |};
                            deltas := deltas tied_wanderer; speed := one;
                            compute_time := default_compute_time;
                            laser_offset := one |}
    (scan3 one one one) (repeat zero 2)
  = Ok (repeat zero 2) /\
  @wander_cb special_libm 2 {| rollouts := {| shape1 := 0; rows := [[]; []] |};
                               deltas := deltas tied_wanderer; speed := one;
                               compute_time := default_compute_time;
                               laser_offset := one |}
    (scan3 one one one) brisk_world
  = (Ok tt,
     world_after 1 {| stamp := clock brisk_world (tick brisk_world + 1 + 2);
                      steering_angle := S754_finite true 6665327448508335 (-54);
                      drive_speed := one |} brisk_world).
Proof.
  apply (@zero_horizon special_libm
           {| rollouts := {| shape1 := 0; rows := [[]; []] |};
              deltas := deltas tied_wanderer; speed := one;
              compute_time := default_compute_time; laser_offset := one |}
           (scan3 one one one) brisk_world 1 2
           (S754_finite true 6665327448508335 (-54))
           [S754_finite false 6665327448508334 (-54)]).
  - reflexivity.
  - reflexivity.
  - split; [intros [| j] Hj; [reflexivity | lia] | reflexivity].
  - lia.
Defined.

Section Stalled.

Context {M : Libm}.

Lemma search_loop_stalled (lw : LaserWanderer) (msg : LaserScan) (start : float)
    (C : list (list float)) :
  cost_table lw msg (seq 0 (length (deltas lw))) = Ok C ->
  forall (fuel : nat) (costs : list float) (w : world),
    length costs = length (deltas lw) ->
    (forall j, ltb (clock w (tick w + j)) (add start (compute_time lw)) = true) ->
    exists w', search_loop fuel lw msg start costs w = (OutOfFuel, w') /\
               cmd_pub w' = cmd_pub w.
Proof.
  intros HC. induction fuel as [| f IH]; intros costs w Hl Hc.
  - exists w. split; reflexivity.
  - cbn [search_loop]. unfold now.
    pose proof (Hc 0%nat) as H0. rewrite Nat.add_0_r in H0. rewrite H0.
    rewrite sweep_spec by exact Hl. rewrite HC. cbn [bind].
    destruct (IH (accumulate costs C)
                {| clock := clock w; tick := S (tick w); cmd_pub := cmd_pub w |})
      as (w' & E & Hp).
    + rewrite accumulate_length; [exact Hl |].
      pose proof (cost_table_length lw msg _ C HC) as HlC.
      rewrite length_seq in HlC. lia.
    + intros j. cbn [clock tick]. replace (S (tick w) + j)%nat with (tick w + S j)%nat by lia.
      apply Hc.
    + exists w'. split; [exact E | exact Hp].
Qed.

End Stalled.

(** If the clock never reaches the deadline (a clock that has stopped, or
    an infinite budget) and the costs can be evaluated, [wander_cb] never
    leaves its loop: it does not return, and nothing is published. *)
Theorem stalled_clock (M : Libm) (lw : LaserWanderer) (msg : LaserScan)
    (C : list (list float)) (w : world) (fuel : nat) :
  cost_table lw msg (seq 0 (length (deltas lw))) = Ok C ->
  (forall j, ltb (clock w (S (tick w) + j)) (deadline lw w) = true) ->
  fst (wander_cb fuel lw msg w) = OutOfFuel /\
  cmd_pub (snd (wander_cb fuel lw msg w)) = cmd_pub w.
Proof.
  intros HC Hc. unfold wander_cb, now.
  destruct (search_loop_stalled lw msg (clock w (tick w)) C HC fuel
              (repeat zero (length (deltas lw)))
              {| clock := clock w; tick := S (tick w); cmd_pub := cmd_pub w |})
    as (w' & E & Hp).
  - apply repeat_length.
  - intros j. cbn [clock tick]. apply Hc.
  - rewrite E. split; [reflexivity | exact Hp].
Qed.

Lemma stalled_clock_witness :
  fst (@wander_cb special_libm 50 tied_wanderer silent_scan frozen_world) = OutOfFuel /\
  cmd_pub (snd (@wander_cb special_libm 50 tied_wanderer silent_scan frozen_world)) = [].
Proof.
  apply (@stalled_clock special_libm tied_wanderer silent_scan tied_costs
           frozen_world 50).
  - apply tied_cost_table.
  - intros j. reflexivity.
Defined.

(** ** The visualisation callback *)

Lemma nth_error_last {A : Type} (l : list A) (d : A) :
  l <> [] -> nth_error l (length l - 1) = Some (last l d).
Proof.
  induction l as [| a t IH]; intros Hne; [contradiction |].
  destruct t as [| b t']; [reflexivity |].
  change (last (a :: b :: t') d) with (last (b :: t') d).
  rewrite <- IH by discriminate.
  cbn [length]. replace (S (S (length t')) - 1)%nat with (S (S (length t') - 1)) by lia.
  reflexivity.
Qed.

Lemma py_getitem_last {A : Type} (l : list A) (d : A) :
  l <> [] -> py_getitem l (-1) = Ok (last l d).
Proof.
  intros Hne. unfold py_getitem.
  assert (Hl : (0 < length l)%nat) by (destruct l; [contradiction | cbn; lia]).
  change (-1 <? 0) with true. cbv iota.
  destruct (Z.leb_spec 0 (-1 + Z.of_nat (length l))); [| lia].
  destruct (Z.ltb_spec (-1 + Z.of_nat (length l)) (Z.of_nat (length l))); [| lia].
  cbn [andb].
  replace (Z.to_nat (-1 + Z.of_nat (length l))) with (length l - 1)%nat by lia.
  rewrite (nth_error_last l d Hne). reflexivity.
Qed.

Lemma py_getitem_nil {A : Type} (i : Z) : @py_getitem A [] i = Raise IndexError.
Proof. apply py_getitem_out. cbn [length]. lia. Qed.

Section VizFacts.

Context {Q : Type} (angle_to_quaternion : float -> Q).

Lemma viz_loop_spec (nodes : list (list pose)) :
  forall acc,
    Forall (fun node => node <> []) nodes ->
    viz_loop angle_to_quaternion nodes acc
    = Ok (acc ++ map (last_pose_of angle_to_quaternion) nodes).
Proof.
  induction nodes as [| node rest IH]; intros acc H.
  - cbn [viz_loop map]. rewrite app_nil_r. reflexivity.
  - inversion H as [| ? ? Hn Hr]; subst. cbn [viz_loop map].
    rewrite (py_getitem_last node origin Hn). cbn [bind].
    rewrite IH by exact Hr. rewrite <- app_assoc. reflexivity.
Qed.

Lemma viz_loop_empty_node (nodes : list (list pose)) :
  forall acc,
    Exists (fun node => node = []) nodes ->
    viz_loop angle_to_quaternion nodes acc = Raise IndexError.
Proof.
  induction nodes as [| node rest IH]; intros acc H.
  - inversion H.
  - cbn [viz_loop]. destruct node as [| p0 more].
    + rewrite py_getitem_nil. reflexivity.
    + rewrite (py_getitem_last (p0 :: more) origin) by discriminate. cbn [bind].
      apply IH. inversion H as [? ? E | ? ? E]; subst; [discriminate | exact E].
Qed.

End VizFacts.

(** [viz_sub_cb] reads the clock once and never reads [msg].  When every
    rollout has a pose, it publishes one array holding, for each rollout in
    order, the position and the orientation of its last pose.  When a
    rollout has no pose, it raises [IndexError] and publishes nothing. *)
Theorem viz_sub_cb_publishes (Q : Type) (angle_to_quaternion : float -> Q)
    (lw : LaserWanderer) (msg : pose) (w : viz_world Q) :
  (Forall (fun node => node <> []) (rows (rollouts lw)) ->
   viz_sub_cb angle_to_quaternion lw msg w
   = (Ok tt,
      {| vw_world := snd (now (vw_world w));
         viz_pub := {| pa_stamp := fst (now (vw_world w));
                       poses := map (last_pose_of angle_to_quaternion)
                                    (rows (rollouts lw)) |}
                    :: viz_pub w |})) /\
  (Exists (fun node => node = []) (rows (rollouts lw)) ->
   viz_sub_cb angle_to_quaternion lw msg w
   = (Raise IndexError,
      {| vw_world := snd (now (vw_world w)); viz_pub := viz_pub w |})).
Proof.
  unfold viz_sub_cb, now. split; intros H.
  - rewrite viz_loop_spec by exact H. reflexivity.
  - rewrite viz_loop_empty_node by exact H. reflexivity.
Qed.

Lemma viz_sub_cb_publishes_witness :
  viz_sub_cb (fun m : float => m) tied_wanderer origin
    {| vw_world := initial_world; viz_pub := [] |}
  = (Ok tt,
     {| vw_world := snd (now initial_world);
        viz_pub := [{| pa_stamp := zero;
                       poses := [{| position_x := one; position_y := zero;
                                    orientation := zero |};
                                 {| position_x := one; position_y := zero;
                                    orientation := zero |}] |}] |}) /\
  viz_sub_cb (fun m : float => m)
    {| rollouts := {| shape1 := 0; rows := [[]; []] |};
       deltas := deltas tied_wanderer; speed := one;
       compute_time := default_compute_time; laser_offset := one |}
    origin {| vw_world := initial_world; viz_pub := [] |}
  = (Raise IndexError,
     {| vw_world := snd (now initial_world); viz_pub := [] |}).
Proof.
  split.
  - apply (proj1 (viz_sub_cb_publishes float (fun m : float => m) tied_wanderer origin
                    {| vw_world := initial_world; viz_pub := [] |})).
    repeat constructor; discriminate.
  - apply (proj2 (viz_sub_cb_publishes float (fun m : float => m)
                    {| rollouts := {| shape1 := 0; rows := [[]; []] |};
                       deltas := deltas tied_wanderer; speed := one;
                       compute_time := default_compute_time; laser_offset := one |}
                    origin {| vw_world := initial_world; viz_pub := [] |})).
    left. reflexivity.
Defined.

(** ** The controller that [main] builds *)

Section MainFacts.

Context {M : Libm}.

Lemma cost_row_error (lw : LaserWanderer) (msg : LaserScan) (n : nat) (d : float)
    (ts : list nat) (e : pyerr) :
  nth_error (deltas lw) n = Some d ->
  (forall t, In t ts -> exists p, rollout_at (rollouts lw) n t = Ok p) ->
  cost_row lw msg n ts = Raise e ->
  exists t p, In t ts /\ rollout_at (rollouts lw) n t = Ok p /\
              compute_cost (laser_offset lw) d p msg = Raise e.
Proof.
  intros Hd. induction ts as [| t rest IH]; intros Hr H; cbn [cost_row] in H.
  - discriminate.
  - unfold np_getitem in H. rewrite Hd in H. cbn [bind] in H.
    destruct (Hr t (or_introl eq_refl)) as (p & Hp). rewrite Hp in H. cbn [bind] in H.
    destruct (compute_cost (laser_offset lw) d p msg) as [c | e' |] eqn:Ec;
      cbn [bind] in H.
    + destruct (cost_row lw msg n rest) as [cs | e' |] eqn:Er; cbn [bind] in H;
        try discriminate.
      injection H as ->.
      destruct IH as (t' & p' & Ht' & Hp' & Hc'); [| reflexivity |].
      * intros t' Ht'. apply Hr. right. exact Ht'.
      * exists t', p'. split; [right; exact Ht' | auto].
    + injection H as ->. exists t, p. split; [left; reflexivity | auto].
    + discriminate.
Qed.

Lemma cost_table_error (lw : LaserWanderer) (msg : LaserScan) (ns : list nat) (e : pyerr) :
  (forall n, In n ns -> exists d, nth_error (deltas lw) n = Some d) ->
  (forall n t, In n ns -> (t < shape1 (rollouts lw))%nat ->
     exists p, rollout_at (rollouts lw) n t = Ok p) ->
  cost_table lw msg ns = Raise e ->
  exists n t d p, In n ns /\ (t < shape1 (rollouts lw))%nat /\
                  nth_error (deltas lw) n = Some d /\
                  rollout_at (rollouts lw) n t = Ok p /\
                  compute_cost (laser_offset lw) d p msg = Raise e.
Proof.
  induction ns as [| n rest IH]; intros Hd Hr H; cbn [cost_table] in H.
  - discriminate.
  - destruct (cost_row lw msg n (seq 0 (shape1 (rollouts lw)))) as [cs | e' |] eqn:Ec;
      cbn [bind] in H.
    + destruct (cost_table lw msg rest) as [C | e' |] eqn:Et; cbn [bind] in H;
        try discriminate.
      injection H as ->.
      destruct IH as (n' & t & d & p & Hn & Ht & Hd' & Hp & Hc); [| | reflexivity |].
      * intros n' Hn'. apply Hd. right. exact Hn'.
      * intros n' t Hn'. apply Hr. right. exact Hn'.
      * exists n', t, d, p. split; [right; exact Hn | auto].
    + injection H as ->.
      destruct (Hd n (or_introl eq_refl)) as (d & Hdn).
      destruct (cost_row_error lw msg n d (seq 0 (shape1 (rollouts lw))) e Hdn)
        as (t & p & Ht & Hp & Hc).
      * intros t Ht. apply in_seq in Ht. apply Hr; [left; reflexivity | lia].
      * exact Ec.
      * apply in_seq in Ht.
        exists n, t, d, p. split; [left; reflexivity |]. split; [lia | auto].
    + discriminate.
Qed.

Lemma well_formed_lookup (tbl : rollout_table) (n t : nat) :
  well_formed_rows (shape1 tbl) (rows tbl) ->
  (n < length (rows tbl))%nat -> (t < shape1 tbl)%nat ->
  exists q, rollout_at tbl n t = Ok q /\ ltb (ptheta q) two_pi = false.
Proof.
  intros Hw Hn Ht. unfold rollout_at, np_getitem.
  destruct (nth_error (rows tbl) n) as [row |] eqn:Er.
  2:{ apply nth_error_None in Er. lia. }
  cbn [bind].
  pose proof (proj1 (Forall_forall _ _) Hw row (nth_error_In _ _ Er)) as (Hlen & Hh).
  destruct (nth_error row t) as [q |] eqn:Eq.
  2:{ apply nth_error_None in Eq. lia. }
  exists q. split; [reflexivity |].
  exact (proj1 (Forall_forall _ _) Hh q (nth_error_In _ _ Eq)).
Qed.

Lemma sweep_error (lw : LaserWanderer) (msg : LaserScan) (A : list float) (e : pyerr) :
  length (rows (rollouts lw)) = length (deltas lw) ->
  well_formed_rows (shape1 (rollouts lw)) (rows (rollouts lw)) ->
  length A = length (deltas lw) ->
  sweep lw msg A = Raise e ->
  exists n t d p,
    (n < length (deltas lw))%nat /\ (t < shape1 (rollouts lw))%nat /\
    nth_error (deltas lw) n = Some d /\
    rollout_at (rollouts lw) n t = Ok p /\
    compute_cost (laser_offset lw) d p msg = Raise e.
Proof.
  intros Hl Hw HA Hs. rewrite sweep_spec in Hs by exact HA.
  destruct (cost_table lw msg (seq 0 (length (deltas lw)))) as [C | e' |] eqn:Ec;
    cbn [bind] in Hs; try discriminate.
  injection Hs as ->.
  apply cost_table_error in Ec as (n & t & d & p & Hn & Ht & Hd & Hp & Hc).
  - apply in_seq in Hn. exists n, t, d, p. split; [lia | auto].
  - intros n Hn. apply in_seq in Hn.
    destruct (nth_error (deltas lw) n) as [d |] eqn:Ed; [eauto |].
    apply nth_error_None in Ed. lia.
  - intros n t Hn Ht. apply in_seq in Hn.
    destruct (well_formed_lookup (rollouts lw) n t Hw ltac:(lia) Ht) as (q & Hq & _).
    eauto.
Qed.

Lemma main_inv (fuel : nat) (ps : params) (lw : LaserWanderer) :
  main fuel ps = Ok lw ->
  speed lw = get_param (p_speed ps) one /\
  compute_time lw = get_param (p_compute_time ps) default_compute_time /\
  laser_offset lw = get_param (p_laser_offset ps) one /\
  np_arange (get_param (p_min_delta ps) default_min_delta)
            (get_param (p_max_delta ps) default_max_delta)
            (get_param (p_delta_inc ps) default_delta_incr)
  = Ok (deltas lw) /\
  shape1 (rollouts lw) = get_param (p_T ps) 300%nat /\
  length (rows (rollouts lw)) = length (deltas lw) /\
  well_formed_rows (shape1 (rollouts lw)) (rows (rollouts lw)).
Proof.
  unfold main. intros H.
  apply bind_ok_inv in H as ([tbl D] & Hg & H). injection H as <-.
  apply generate_well_formed in Hg as (HD & Hs & Hl & Hw).
  cbn [LaserWanderer_init speed compute_time laser_offset deltas rollouts].
  rewrite Hs. auto 10.
Qed.

End MainFacts.

(** Whenever [main] gets as far as the controller, the controller holds the
    parameters of the server (or their defaults), its candidates are those
    of [np.arange], and its table has the shape the search loop expects:
    every [self.deltas[n]] and [self.rollouts[n,t,:]] that a sweep looks up
    exists, and no heading in the table is below [2*np.pi]. *)
Theorem main_builds_controller (M : Libm) (fuel : nat) (ps : params)
    (lw : LaserWanderer) :
  main fuel ps = Ok lw ->
  speed lw = get_param (p_speed ps) one /\
  compute_time lw = get_param (p_compute_time ps) default_compute_time /\
  laser_offset lw = get_param (p_laser_offset ps) one /\
  np_arange (get_param (p_min_delta ps) default_min_delta)
            (get_param (p_max_delta ps) default_max_delta)
            (get_param (p_delta_inc ps) default_delta_incr)
  = Ok (deltas lw) /\
  shape1 (rollouts lw) = get_param (p_T ps) 300%nat /\
  length (rows (rollouts lw)) = length (deltas lw) /\
  forall n t, (n < length (deltas lw))%nat -> (t < shape1 (rollouts lw))%nat ->
    exists d q, np_getitem (deltas lw) n = Ok d /\
                rollout_at (rollouts lw) n t = Ok q /\
                ltb (ptheta q) two_pi = false.
Proof.
  intros H. destruct (main_inv fuel ps lw H) as (H1 & H2 & H3 & H4 & H5 & H6 & H7).
  repeat (split; [assumption |]).
  intros n t Hn Ht.
  destruct (well_formed_lookup (rollouts lw) n t H7 ltac:(lia) Ht) as (q & Hq & Hh).
  unfold np_getitem. destruct (nth_error (deltas lw) n) as [d |] eqn:Ed.
  - exists d, q. auto.
  - apply nth_error_None in Ed. lia.
Qed.

Lemma main_builds_controller_witness :
  exists lw,
    @main special_libm 2 small_params = Ok lw /\
    speed lw = one /\
    shape1 (rollouts lw) = 2%nat /\
    length (rows (rollouts lw)) = length (deltas lw) /\
    length (deltas lw) = 4%nat.
Proof.
  eexists. split; [reflexivity |].
  pose proof (@main_builds_controller special_libm 2 small_params _ eq_refl)
    as (H1 & _ & _ & _ & H5 & H6 & _).
  split; [exact H1 | split; [exact H5 | split; [exact H6 | reflexivity]]].
Defined.

(** For a controller built by [main], an exception that ends a sweep is an
    exception of [compute_cost] on one of the candidates and one of its
    poses: the loops themselves never index out of bounds. *)
Theorem main_sweep_errors (M : Libm) (fuel : nat) (ps : params)
    (lw : LaserWanderer) (msg : LaserScan) (A : list float) (e : pyerr) :
  main fuel ps = Ok lw ->
  length A = length (deltas lw) ->
  sweep lw msg A = Raise e ->
  exists n t d p,
    (n < length (deltas lw))%nat /\ (t < shape1 (rollouts lw))%nat /\
    nth_error (deltas lw) n = Some d /\
    rollout_at (rollouts lw) n t = Ok p /\
    compute_cost (laser_offset lw) d p msg = Raise e.
Proof.
  intros H HA Hs.
  destruct (main_inv fuel ps lw H) as (_ & _ & _ & _ & _ & H6 & H7).
  exact (sweep_error lw msg A e H6 H7 HA Hs).
Qed.

Lemma main_sweep_errors_witness :
  exists lw n t d p,
    @main special_libm 2 small_params = Ok lw /\
    (n < length (deltas lw))%nat /\ (t < shape1 (rollouts lw))%nat /\
    nth_error (deltas lw) n = Some d /\
    rollout_at (rollouts lw) n t = Ok p /\
    @compute_cost special_libm (laser_offset lw) d p short_scan = Raise IndexError.
Proof.
  eexists.
  destruct (@main_sweep_errors special_libm 2 small_params _ short_scan
              (repeat zero 4) IndexError eq_refl eq_refl eq_refl)
    as (n & t & d & p & H).
  exists n, t, d, p. split; [reflexivity | exact H].
Defined.

(* ================================================================== *)
(** * The straight branch, cycles without candidates, and generation in full *)
(* ================================================================== *)

(** ** The straight branch on headings from 0 up to [2*np.pi] *)

(** C4 (the code on headings from 0 up to [2*np.pi]).  For a steering
    angle below the threshold, the branch computes the increments
    [v*cos(theta)*dt], [v*sin(theta)*dt] and 0, as specified, and the
    position that the step returns is the old one displaced by the first
    two.  The heading is not returned unchanged: the normalisation that
    follows adds a full turn to every heading from 0 up to [2*np.pi], so
    the step returns [theta + 2*np.pi], which is at least [2*np.pi] and is
    not [theta]. *)
Theorem straight_step (M : Libm) (p : pose) (c : control) (car_length : float) :
  ltb (abs (cdelta c)) lit_1e_2 = true ->
  valid (ptheta p) = true ->
  leb zero (ptheta p) = true -> ltb (ptheta p) two_pi = true ->
  kinematic_deltas (ptheta p) (cv c) (cdelta c) (cdt c) car_length
  = (mul (mul (cv c) (m_cos (ptheta p))) (cdt c),
     mul (mul (cv c) (m_sin (ptheta p))) (cdt c), zero)
  /\ forall f, exists q,
       kinematic_model_step (S (S f)) p c car_length = Ok q /\
       px q = add (px p) (mul (mul (cv c) (m_cos (ptheta p))) (cdt c)) /\
       py q = add (py p) (mul (mul (cv c) (m_sin (ptheta p))) (cdt c)) /\
       ptheta q = add (ptheta p) two_pi /\
       leb two_pi (ptheta q) = true /\
       eqb (ptheta q) (ptheta p) = false.
Proof.
  intros Hd Vt H0 Hlt.
  split; [apply kinematic_deltas_straight; exact Hd |]. intros f.
  assert (H1 : leb (ptheta p) two_pi = true) by (apply ltb_leb; exact Hlt).
  assert (Ft : is_finite (ptheta p) = true)
    by (apply (leb_is_finite zero (ptheta p) two_pi); auto).
  rewrite (step_straight_returns p c car_length Hd Vt H0 H1 f), Hlt.
  eexists. split; [reflexivity |]. cbn [px py ptheta].
  assert (Hge : leb two_pi (add (ptheta p) two_pi) = true).
  { change two_pi with (add zero two_pi) at 1. apply add_le_mono; auto. }
  repeat split; try reflexivity; [exact Hge |].
  assert (Hs : ltb (ptheta p) (add (ptheta p) two_pi) = true)
    by (apply ltb_leb_trans with two_pi; assumption).
  apply ltb_iff in Hs as (N1 & N2 & Hk).
  unfold eqb, SFeqb. rewrite (SFcompare_key _ _ N2 N1).
  destruct (lex3 _ _) eqn:E; try reflexivity.
  apply lex3_eq in E. rewrite E in Hk. exfalso.
  eapply lex_lt_not_le; [exact Hk | right; reflexivity].
Qed.

(** The theorem at the origin. *)
Lemma straight_step_witness :
  exists q,
    @kinematic_model_step special_libm 2 origin straight_control default_car_length
    = Ok q /\
    px q = add zero (mul (mul one (special_cos zero)) lit_1e_2) /\
    py q = add zero (mul (mul one (special_sin zero)) lit_1e_2) /\
    ptheta q = add zero two_pi /\
    leb two_pi (ptheta q) = true /\
    eqb (ptheta q) zero = false.
Proof.
  exact (proj2 (@straight_step special_libm origin straight_control
                  default_car_length eq_refl eq_refl eq_refl eq_refl) 0%nat).
Defined.

(** ** A cycle without candidates *)

Section NoCandidates.

Context {M : Libm}.

Lemma sweep_no_candidates (lw : LaserWanderer) (msg : LaserScan) :
  deltas lw = [] -> sweep lw msg [] = Ok [].
Proof. intros H. unfold sweep. rewrite H. reflexivity. Qed.

Lemma search_loop_no_candidates (lw : LaserWanderer) (msg : LaserScan) (start : float) :
  deltas lw = [] ->
  forall (fuel : nat) (w : world) r w',
    search_loop fuel lw msg start [] w = (r, w') ->
    r = Ok [] \/ r = OutOfFuel.
Proof.
  intros Hd. induction fuel as [| f IH]; intros w r w' H; cbn [search_loop] in H.
  - injection H as <- <-. right. reflexivity.
  - unfold now in H.
    destruct (ltb (clock w (tick w)) (add start (compute_time lw))).
    + rewrite (sweep_no_candidates lw msg Hd) in H. eapply IH; exact H.
    + injection H as <- <-. left. reflexivity.
Qed.

End NoCandidates.

(** C6 (counterexample).  With no candidate and a clock that has stopped,
    the cycle reports no failure: it never leaves its loop, whatever the
    fuel, and nothing is published. *)
Lemma no_failure_on_a_stopped_clock :
  deltas empty_wanderer = [] /\
  forall (M : Libm) (fuel : nat),
    fst (wander_cb fuel empty_wanderer (scan3 one one one) frozen_world) = OutOfFuel /\
    cmd_pub (snd (wander_cb fuel empty_wanderer (scan3 one one one) frozen_world)) = [].
Proof.
  split; [reflexivity |]. intros M fuel. unfold wander_cb, now.
  destruct (search_loop_stalled empty_wanderer (scan3 one one one)
              (clock frozen_world (tick frozen_world)) [] eq_refl fuel
              (repeat zero (length (deltas empty_wanderer)))
              {| clock := clock frozen_world; tick := S (tick frozen_world);
                 cmd_pub := cmd_pub frozen_world |})
    as (w' & E & Hp).
  - reflexivity.
  - intros j. reflexivity.
  - rewrite E. split; [reflexivity | exact Hp].
Qed.

(** C6 (amended).  With no candidate, a cycle never publishes a command
    and never returns normally, whatever the scan and the clock.  If the
    deadline is reached after [k] passes of the loop, the cycle ends, after
    [k + 2] readings of the clock, with the [ValueError] that [np.argmin]
    raises on the empty array, and this exception is the outcome of
    [wander_cb]: nothing in it handles the case.  If the clock never
    reaches the deadline, the cycle does not end at all. *)
Theorem no_candidates (M : Libm) (lw : LaserWanderer) (msg : LaserScan) :
  deltas lw = [] ->
  (forall fuel w r w',
      wander_cb fuel lw msg w = (r, w') ->
      cmd_pub w' = cmd_pub w /\ (r = Raise ValueError \/ r = OutOfFuel)) /\
  (forall w k fuel,
      sweeps_allowed k lw w -> (k < fuel)%nat ->
      exists w',
        wander_cb fuel lw msg w = (Raise ValueError, w') /\
        cmd_pub w' = cmd_pub w /\ clock w' = clock w /\
        tick w' = (tick w + k + 2)%nat) /\
  (forall w,
      (forall j, ltb (clock w (S (tick w) + j)) (deadline lw w) = true) ->
      forall fuel, fst (wander_cb fuel lw msg w) = OutOfFuel).
Proof.
  intros Hd. split; [| split].
  - intros fuel w r w' H. unfold wander_cb, now in H. rewrite Hd in H.
    cbn [length repeat] in H.
    destruct (search_loop fuel lw msg (clock w (tick w)) []
                {| clock := clock w; tick := S (tick w); cmd_pub := cmd_pub w |})
      as [rs ws] eqn:Es.
    pose proof (search_loop_world lw msg _ fuel _ _ _ _ Es) as (_ & Hp & _).
    cbn [cmd_pub] in Hp.
    destruct (search_loop_no_candidates lw msg _ Hd fuel _ _ _ Es) as [-> | ->].
    + cbn [np_argmin] in H. injection H as <- <-. split; [exact Hp | left; reflexivity].
    + injection H as <- <-. split; [exact Hp | right; reflexivity].
  - intros w k fuel Ha Hf.
    destruct (search_loop_allowed lw msg k fuel [] w Ha Hf) as (w' & E & Hc & Hp & Ht).
    rewrite (sweeps_no_candidates lw msg k Hd) in E, Ht.
    exists w'. unfold wander_cb. rewrite Hd. cbn [length repeat].
    destruct (now w) as [start w1]. cbn [fst snd] in E. rewrite E.
    cbn [np_argmin]. repeat split; try assumption. apply (Ht [] eq_refl).
  - intros w Hc fuel. unfold wander_cb, now.
    destruct (search_loop_stalled lw msg (clock w (tick w)) []
                ltac:(rewrite Hd; reflexivity) fuel
                (repeat zero (length (deltas lw)))
                {| clock := clock w; tick := S (tick w); cmd_pub := cmd_pub w |})
      as (w' & E & _).
    + apply repeat_length.
    + intros j. cbn [clock tick]. apply Hc.
    + rewrite E. reflexivity.
Qed.

(** The theorem for a clock that reads whole seconds and for one that has
    stopped. *)
Lemma no_candidates_witness :
  (exists w',
      @wander_cb special_libm 1 empty_wanderer (scan3 one one one) initial_world
      = (Raise ValueError, w') /\
      cmd_pub w' = cmd_pub initial_world /\ clock w' = clock initial_world /\
      tick w' = (tick initial_world + 0 + 2)%nat) /\
  fst (@wander_cb special_libm 50 empty_wanderer (scan3 one one one) frozen_world)
  = OutOfFuel.
Proof.
  pose proof (@no_candidates special_libm empty_wanderer (scan3 one one one) eq_refl)
    as (_ & H2 & H3).
  split.
  - apply (H2 initial_world 0%nat 1%nat); [| lia].
    split; [intros j Hj; lia | reflexivity].
  - apply (H3 frozen_world). intros j. reflexivity.
Defined.

(** ** A budget that is spent, on a clock that steps back *)

Section Backward.

Context {M : Libm}.

Lemma hurried_cost_table :
  cost_table hurried_wanderer silent_scan (seq 0 (length (deltas hurried_wanderer)))
  = Ok tied_costs.
Proof.
  cbn [cost_table cost_row seq length shape1 rollouts deltas laser_offset
       hurried_wanderer tied_wanderer np_getitem nth_error bind rollout_at rows].
  rewrite !compute_cost_silent. reflexivity.
Qed.

End Backward.

(** C10 (counterexample).  With a budget of [-0.09 s] on a clock that reads
    10, 5 and 10 seconds, the first test of the loop succeeds: one sweep is
    made, the accumulators are no longer 0, and the command carries the
    second candidate. *)
Lemma sweep_on_a_clock_that_steps_back :
  leb (compute_time hurried_wanderer) zero = true /\
  nth_error (deltas hurried_wanderer) 1 = Some (S754_finite false 6665327448508334 (-54)) /\
  forall M : Libm,
    sweeps_allowed 1 hurried_wanderer backward_world /\
    (exists A,
        sweeps 1 hurried_wanderer silent_scan
          (repeat zero (length (deltas hurried_wanderer))) = Ok A /\
        Forall (fun a => ltb zero a = true) A /\
        np_argmin A = Ok 1%nat) /\
    wander_cb 2 hurried_wanderer silent_scan backward_world
    = (Ok tt,
       world_after 1 {| stamp := of_Z 10;
                        steering_angle := S754_finite false 6665327448508334 (-54);
                        drive_speed := one |} backward_world).
Proof.
  split; [reflexivity | split; [reflexivity |]]. intros M.
  assert (Ha : sweeps_allowed 1 hurried_wanderer backward_world).
  { split; [intros [| j] Hj; [reflexivity | lia] | reflexivity]. }
  pose proof (sweeps_repeated_sums hurried_wanderer silent_scan tied_costs 1
                hurried_cost_table) as Hs.
  split; [exact Ha | split].
  - eexists. split; [exact Hs |]. split; [repeat constructor | reflexivity].
  - apply (wander_cb_ok hurried_wanderer silent_scan 1 2 backward_world
             (map (repeated_sum 1) tied_costs) 1); try assumption; try reflexivity. lia.
Qed.

(** ** Exact sums *)








(** ** The heading-normalisation loops on increments of at most a turn *)






Section TameLoops.

Context {M : Libm}.









End TameLoops.

(** ** The number of candidates of a range that is not empty *)






